(** * sipbuild/generator/type_hints.py: the type hint manager

    A shallow embedding of [TypeHintManager] (parsing, name lookup,
    override substitution and rendering of type hints) together with the
    properties of it that the specification states.

    Python objects that are mutated in place or compared by identity
    (tree nodes, lists of children, managed hints) live in an explicit
    store and are referred to by their index; every method becomes a
    computation in a state-and-exception monad, where a raised exception
    keeps the mutations made before it, as in Python. *)

From stdpp Require Import gmap strings list.
From Stdlib Require Import Ascii DecimalString.

Open Scope string_scope.
Open Scope list_scope.
Open Scope nat_scope.

(** ** Strings as Python uses them *)

Module Py.

(** [len(s)]. *)
Definition len (s : string) : nat := String.length s.

(** [s[a:b]] for [0 <= a] and [0 <= b]. *)
Definition slice (s : string) (a b : nat) : string :=
  String.substring a (b - a) s.

(** [s.find(c)] for a one character string [c]: the first index, if any. *)
Fixpoint find (c : ascii) (s : string) : option nat :=
  match s with
  | EmptyString => None
  | String d s' => if Ascii.eqb d c then Some 0 else S <$> find c s'
  end.

(** [s[i] == c] for an index in range. *)
Definition char_at_is (s : string) (i : nat) (c : ascii) : bool :=
  match String.get i s with
  | Some d => Ascii.eqb d c
  | None => false
  end.

(** [sep.join(l)]. *)
Definition join (sep : string) (l : list string) : string :=
  String.concat sep l.

(** [s.replace('.', '::')]. *)
Fixpoint replace_dot (s : string) : string :=
  match s with
  | EmptyString => EmptyString
  | String c s' =>
      if Ascii.eqb c "." then String ":" (String ":" (replace_dot s'))
      else String c (replace_dot s')
  end.

(** [str(n)] for a non-negative integer, as an f-string formats it. *)
Definition str_of_nat (n : nat) : string :=
  NilZero.string_of_uint (Nat.to_uint n).

End Py.

(** ** The symbol table (specification.py)

    Only the attributes that the manager reads.  An entity compared with
    [is] or kept as a scope carries an identifier that stands for its
    object identity. *)

(** [TypeHint]: the object handed out by [get_type_hint]. *)
Record TypeHint := mkTypeHint {
  hint_id : nat;
  text : string
}.

(** [TypeHints]: the override hints of a class or mapped type. *)
Record TypeHints := mkTypeHints {
  hint_in : option TypeHint;
  hint_out : option TypeHint
}.

Record WrappedClass := mkWrappedClass {
  class_id : nat;
  (* klass.scope: the enclosing class, if any *)
  class_scope : option nat;
  external : bool;
  (* klass.iface_file.fq_cpp_name.base_name *)
  class_base_name : string;
  class_type_hints : option TypeHints
}.

Record MappedType := mkMappedType {
  mapped_type_id : nat;
  (* mapped_type.cpp_name.name, when cpp_name is not None *)
  cpp_name : option string;
  mapped_type_hints : option TypeHints
}.

(** The scope of an enum: a class or a mapped type. *)
Inductive Scope :=
| ScopeClass (id : nat)
| ScopeMappedType (id : nat).

Record WrappedEnum := mkWrappedEnum {
  enum_id : nat;
  (* enum.fq_cpp_name.base_name, when fq_cpp_name is not None *)
  enum_base_name : option string;
  enum_scope : option Scope
}.

Record Specification := mkSpecification {
  enums : list WrappedEnum;
  classes : list WrappedClass;
  mapped_types : list MappedType
}.

#[global] Instance Scope_eq_dec : EqDecision Scope.
Proof. solve_decision. Defined.

(** ** The data model of the manager *)

Inductive NodeType := TYPING | CLASS | ENUM | OTHER.

Inductive ParseState := REQUIRED | PARSING | PARSED.

#[global] Instance NodeType_eq_dec : EqDecision NodeType.
Proof. solve_decision. Defined.

#[global] Instance ParseState_eq_dec : EqDecision ParseState.
Proof. solve_decision. Defined.

(** [Optional[Union[str, WrappedClass, WrappedEnum]]] without the [None]. *)
Inductive NodeDefinition :=
| DefStr (s : string)
| DefClass (k : WrappedClass)
| DefEnum (e : WrappedEnum).

(** References into the store. *)
Abbreviation node_ref := nat (only parsing).
Abbreviation list_ref := nat (only parsing).

Record TypeHintNode := mkTypeHintNode {
  type : NodeType;
  children : option list_ref;
  definition : option NodeDefinition;
  next : option node_ref
}.

Record ManagedTypeHint := mkManagedTypeHint {
  type_hint : TypeHint;
  parse_state : ParseState;
  rest_ref : option string;
  root : option node_ref
}.

(** The mutable world of one manager: the allocated nodes, the allocated
    Python lists of nodes, the [_managed_type_hints] dict and the number
    of [TypeHint] objects created so far. *)
Record State := mkState {
  nodes : list TypeHintNode;
  lists : list (list node_ref);
  managed : gmap string ManagedTypeHint;
  hint_count : nat
}.

Definition set_nodes (f : list TypeHintNode → list TypeHintNode) (s : State) :=
  mkState (f (nodes s)) (lists s) (managed s) (hint_count s).
Definition set_lists (f : list (list node_ref) → list (list node_ref)) (s : State) :=
  mkState (nodes s) (f (lists s)) (managed s) (hint_count s).
Definition set_managed (f : gmap string ManagedTypeHint → gmap string ManagedTypeHint)
    (s : State) :=
  mkState (nodes s) (lists s) (f (managed s)) (hint_count s).

(** The state of a manager that [__new__] has just created. *)
Definition new_manager : State := mkState [] [] ∅ 0.

(** ** Exceptions and the monad *)

Inductive Exception :=
| UserException (msg : string)
(* len(None), iterating None *)
| TypeError
(* self._managed_type_hints[text] for a text that is not managed *)
| KeyError (key : string)
(* a reference outside the store: no Python run gets here *)
| InvalidRef
(* the recursion budget of the model is used up *)
| OutOfFuel.

Inductive Outcome (A : Type) :=
| Ok (a : A)
| Raise (e : Exception).
Arguments Ok {A} a.
Arguments Raise {A} e.

Definition M (A : Type) : Type := State → State * Outcome A.

Definition ret {A} (a : A) : M A := λ s, (s, Ok a).
Definition raise {A} (e : Exception) : M A := λ s, (s, Raise e).
Definition bind {A B} (c : M A) (k : A → M B) : M B :=
  λ s, match c s with
       | (s', Ok a) => k a s'
       | (s', Raise e) => (s', Raise e)
       end.

Notation "'let*' x ':=' c 'in' k" := (bind c (λ x, k))
  (at level 10, x pattern, c at level 100, k at level 200).
Notation "c1 '>>' c2" := (bind c1 (λ _, c2))
  (at level 100, c2 at level 200, right associativity).

(** *** The store *)

Definition new_node (n : TypeHintNode) : M node_ref :=
  λ s, (set_nodes (λ ns, ns ++ [n]) s, Ok (length (nodes s))).

Definition get_node (r : node_ref) : M TypeHintNode :=
  λ s, match nodes s !! r with
       | Some n => (s, Ok n)
       | None => (s, Raise InvalidRef)
       end.

(** [node.next = nx]. *)
Definition set_next (r : node_ref) (nx : option node_ref) : M unit :=
  λ s, match nodes s !! r with
       | Some n =>
           (set_nodes
              (λ ns, <[r := mkTypeHintNode (type n) (children n) (definition n) nx]> ns) s,
            Ok tt)
       | None => (s, Raise InvalidRef)
       end.

(** [[]]: a new empty list. *)
Definition new_list : M list_ref :=
  λ s, (set_lists (λ ls, ls ++ [[]]) s, Ok (length (lists s))).

Definition get_list (l : list_ref) : M (list node_ref) :=
  λ s, match lists s !! l with
       | Some xs => (s, Ok xs)
       | None => (s, Raise InvalidRef)
       end.

(** [l.append(x)]. *)
Definition list_append (l : list_ref) (x : node_ref) : M unit :=
  λ s, match lists s !! l with
       | Some xs => (set_lists (λ ls, <[l := xs ++ [x]]> ls) s, Ok tt)
       | None => (s, Raise InvalidRef)
       end.

(** [self._managed_type_hints[key]]. *)
Definition get_managed (key : string) : M ManagedTypeHint :=
  λ s, match managed s !! key with
       | Some m => (s, Ok m)
       | None => (s, Raise (KeyError key))
       end.

(** An attribute assignment on the managed hint stored under [key]. *)
Definition update_managed (key : string) (f : ManagedTypeHint → ManagedTypeHint) : M unit :=
  λ s, match managed s !! key with
       | Some m => (set_managed (λ ms, <[key := f m]> ms) s, Ok tt)
       | None => (s, Raise (KeyError key))
       end.

Definition with_parse_state (p : ParseState) (m : ManagedTypeHint) :=
  mkManagedTypeHint (type_hint m) p (rest_ref m) (root m).
Definition with_root (r : option node_ref) (m : ManagedTypeHint) :=
  mkManagedTypeHint (type_hint m) (parse_state m) (rest_ref m) r.
Definition with_rest_ref (r : option string) (m : ManagedTypeHint) :=
  mkManagedTypeHint (type_hint m) (parse_state m) r (root m).

(** ** The collaborators of the manager

    [ScopedName.parse] (scoped_name.py) and the attributes of
    [ClassFormatter] and [EnumFormatter] (formatters.py) that the renderer
    reads are taken as given; so are the types of the [module] and
    [defined] arguments that are only handed on to the formatters. *)
Record Collaborators := mkCollaborators {
  module_t : Type;
  defined_t : Type;
  ScopedName_parse : string → list string;
  class_rest_ref : Specification → WrappedClass → string;
  class_type_hint : Specification → WrappedClass → option module_t → option defined_t → string;
  class_fq_py_name : Specification → WrappedClass → string;
  enum_rest_ref : Specification → WrappedEnum → string;
  enum_type_hint : Specification → WrappedEnum → option module_t → option defined_t → string;
  enum_fq_py_name : Specification → WrappedEnum → string
}.

(** The types defined in the typing module. *)
Definition _TYPING_MODULE : list string := [
  "Any"; "NoReturn"; "Tuple"; "Union"; "Optional"; "Callable"; "Type";
  "Literal"; "ClassVar"; "Final"; "Annotated"; "AnyStr"; "Protocol";
  "NamedTuple"; "Dict"; "List"; "Set"; "FrozenSet"; "IO"; "TextIO";
  "BinaryIO"; "Pattern"; "Match"; "Text"; "Iterable"; "Iterator";
  "Generator"; "Mapping"; "Sequence"
].

(** ** The static helpers *)

(** [_any_object]. *)
Definition _any_object (pep484 : bool) : string :=
  if pep484 then "typing.Any" else "object".

(** [_maybe_any_object]. *)
Definition _maybe_any_object (hint : string) (pep484 : bool) : string :=
  if bool_decide (hint ≠ "Any") then hint else _any_object pep484.

(** The [while] loop of [_strip_leading]; it runs at most [end - start]
    times. *)
Fixpoint strip_leading_loop (n : nat) (text : string) (start end_ : nat) : nat :=
  match n with
  | 0 => start
  | S n' =>
      if (start <? end_) && Py.char_at_is text start " "
      then strip_leading_loop n' text (S start) end_
      else start
  end.

Definition _strip_leading (text : string) (start end_ : nat) : nat :=
  strip_leading_loop (end_ - start) text start end_.

(** The [while] loop of [_strip_trailing]. *)
Fixpoint strip_trailing_loop (n : nat) (text : string) (start end_ : nat) : nat :=
  match n with
  | 0 => end_
  | S n' =>
      if (start <? end_) && Py.char_at_is text (end_ - 1) " "
      then strip_trailing_loop n' text start (end_ - 1)
      else end_
  end.

Definition _strip_trailing (text : string) (start end_ : nat) : nat :=
  strip_trailing_loop (end_ - start) text start end_.

(** [_append_child]. *)
Definition _append_child (children : list_ref) (new_child : node_ref) : M unit :=
  let* xs := get_list children in
  (if 1 <? length xs
   then match last xs with
        | Some l => set_next l (Some new_child)
        | None => raise InvalidRef
        end
   else ret tt) >>
  list_append children new_child.

(** The [for part_i in range(i, end)] loop of [_parse_node] up to its
    [break]: the index of the comma or closing bracket that ends the part
    starting at [i], or [None] when the loop runs to its [else]. [n] is the
    number of indices left. *)
Fixpoint find_part_end (n : nat) (text : string) (part_i depth : nat) : option nat :=
  match n with
  | 0 => None
  | S n' =>
      if Py.char_at_is text part_i "["
      then find_part_end n' text (S part_i) (depth + 1)
      else if Py.char_at_is text part_i "]" && negb (depth =? 0)
      then find_part_end n' text (S part_i) (depth - 1)
      else if (Py.char_at_is text part_i "," || Py.char_at_is text part_i "]")
              && (depth =? 0)
      then Some part_i
      else find_part_end n' text (S part_i) depth
  end.

(** The messages of the three [UserException]s. *)
Definition bracket_expected_msg (text : string) (end_ : nat) : string :=
  "type hint '" +:+ text +:+ "': ']' expected at position " +:+ Py.str_of_nat end_.
Definition brackets_invalid_msg (text : string) : string :=
  "type hint '" +:+ text +:+ "': brackets are invalid".
Definition non_empty_brackets_msg (text : string) : string :=
  "type hint '" +:+ text +:+ "': must have non-empty brackets".

(** The result of running a loop inside a function: the function returned
    from within the loop, or the loop was left (by [break] or by running
    out of items). *)
Inductive LoopResult (A : Type) :=
| Returned (a : A)
| Left.
Arguments Returned {A} a.
Arguments Left {A}.

Section Manager.

Context (env : Collaborators) (spec : Specification).

(** [_lookup_enum]. *)
Definition _lookup_enum (name : string) (scopes : option Scope * option Scope)
    : option WrappedEnum :=
  List.find
    (λ enum,
       match enum_base_name enum with
       | Some base_name =>
           bool_decide (base_name = name)
           && (bool_decide (enum_scope enum = scopes.1)
               || bool_decide (enum_scope enum = scopes.2))
       | None => false
       end)
    (enums spec).

(** [_lookup_class]. *)
Definition _lookup_class (name : string) (scope : option WrappedClass)
    : option WrappedClass :=
  List.find
    (λ klass,
       bool_decide (class_scope klass = class_id <$> scope)
       && negb (external klass)
       && bool_decide (class_base_name klass = name))
    (classes spec).

(** [_lookup_mapped_type]. *)
Definition _lookup_mapped_type (name : string) : option MappedType :=
  List.find
    (λ mapped_type,
       match cpp_name mapped_type with
       | Some n => bool_decide (n = name)
       | None => false
       end)
    (mapped_types spec).

(** The recursion of the manager goes through [_parse_node], which calls
    itself on the parts of a hint and, through [_lookup_type],
    [_copy_type_hint] and [_parse], on the text of an override hint.  The
    definitions below take that recursive call as [parse_node_rec]; the knot
    is tied in [_parse_node]. *)
Section Recursion.

Variable parse_node_rec : bool → string → nat → option nat → M (option node_ref).

(** [_parse]. The managed hint is named by its key in the dict. *)
Definition parse_with (key : string) (out : bool) : M unit :=
  let* managed_type_hint := get_managed key in
  if bool_decide (parse_state managed_type_hint = REQUIRED) then
    update_managed key (with_parse_state PARSING) >>
    let* r := parse_node_rec out (text (type_hint managed_type_hint)) 0 None in
    update_managed key (with_root r) >>
    update_managed key (with_parse_state PARSED)
  else ret tt.

(** [_copy_type_hint]. *)
Definition copy_type_hint_with (type_hint : TypeHint) (out : bool) : M (option node_ref) :=
  let* _ := get_managed (text type_hint) in
  parse_with (text type_hint) out >>
  let* managed_type_hint := get_managed (text type_hint) in
  match root managed_type_hint with
  | None => ret None
  | Some r =>
      let* node := get_node r in
      let* c := new_node (mkTypeHintNode (type node) (children node) (definition node) None) in
      ret (Some c)
  end.

(** The override hint of a class or mapped type for a direction, when its
    [type_hints] and the hint are not [None]. *)
Definition override_hint (type_hints : option TypeHints) (out : bool) : option TypeHint :=
  match type_hints with
  | Some ths => if out then hint_out ths else hint_in ths
  | None => None
  end.

(** The substitution of an override hint: [Returned] when the copy of the
    hint is returned, [Left] when control goes on to the statement after the
    nested [if]s. *)
Definition substitute_with (type_hints : option TypeHints) (out : bool)
    : M (LoopResult (option node_ref)) :=
  match override_hint type_hints out with
  | Some type_hint =>
      let* m := get_managed (text type_hint) in
      if bool_decide (parse_state m ≠ PARSING) then
        let* c := copy_type_hint_with type_hint out in
        ret (Returned c)
      else ret Left
  | None => ret Left
  end.

(** The [for] loop of [_lookup_type] over the parts of the scoped name from
    index [part_i] on; [len] is [len(scoped_name)]. *)
Fixpoint lookup_parts (len part_i : nat) (parts : list string) (out : bool)
    (scope_klass : option WrappedClass) (scope_mapped_type : option MappedType)
    : M (LoopResult (option node_ref)) :=
  match parts with
  | [] => ret Left
  | part :: parts' =>
      let is_last_part := part_i + 1 =? len in
      match _lookup_enum part (ScopeClass ∘ class_id <$> scope_klass,
                               ScopeMappedType ∘ mapped_type_id <$> scope_mapped_type) with
      | Some enum =>
          if is_last_part then
            let* n := new_node (mkTypeHintNode ENUM None (Some (DefEnum enum)) None) in
            ret (Returned (Some n))
          else ret Left
      | None =>
          match scope_mapped_type with
          | Some _ => ret Left
          | None =>
              match (match scope_klass with
                     | None => _lookup_mapped_type part
                     | Some _ => None
                     end) with
              | Some mapped_type =>
                  if is_last_part then
                    let* r := substitute_with (mapped_type_hints mapped_type) out in
                    match r with
                    | Returned c => ret (Returned c)
                    | Left => ret (Returned None)
                    end
                  else
                    lookup_parts len (S part_i) parts' out scope_klass (Some mapped_type)
              | None =>
                  match _lookup_class part scope_klass with
                  | None => ret Left
                  | Some klass =>
                      if is_last_part then
                        let* r := substitute_with (class_type_hints klass) out in
                        match r with
                        | Returned c => ret (Returned c)
                        | Left =>
                            let* n := new_node
                              (mkTypeHintNode CLASS None (Some (DefClass klass)) None) in
                            ret (Returned (Some n))
                        end
                      else
                        lookup_parts len (S part_i) parts' out (Some klass) None
                  end
              end
          end
      end
  end.

(** [_lookup_type]. *)
Definition lookup_type_with (name : string) (out : bool) : M (option node_ref) :=
  let scoped_name := ScopedName_parse env (Py.replace_dot name) in
  let* r := lookup_parts (length scoped_name) 0 scoped_name out None None in
  match r with
  | Returned n => ret n
  | Left =>
      let* n := new_node (mkTypeHintNode OTHER None (Some (DefStr name)) None) in
      ret (Some n)
  end.

(** The [while True] loop of [_parse_node] that splits the bracketed
    arguments and parses each of them.  [i] is the index of the opening
    bracket or of the comma before the next part; every round but the last
    moves it forward, so [n] rounds are enough when [n] is above
    [end - i]. *)
Fixpoint parse_parts (n : nat) (out : bool) (text : string) (end_ : nat)
    (children : list_ref) (i : nat) : M unit :=
  match n with
  | 0 => raise OutOfFuel
  | S n' =>
      let i := i + 1 in
      match find_part_end (end_ - i) text i 0 with
      | Some part_i =>
          let* new_child := parse_node_rec out text i (Some part_i) in
          match new_child with
          | Some c => _append_child children c
          | None => ret tt
          end >>
          parse_parts n' out text end_ children part_i
      | None => ret tt
      end
  end.

(** The loop [for grandchild in child.children] of the flattening. *)
Fixpoint append_children (flattened : list_ref) (grandchildren : list node_ref) : M unit :=
  match grandchildren with
  | [] => ret tt
  | grandchild :: rest =>
      _append_child flattened grandchild >> append_children flattened rest
  end.

(** Whether a node is a union of the typing module:
    [child.type is NodeType.TYPING and child.definition == 'Union']. *)
Definition is_union (child : TypeHintNode) : bool :=
  bool_decide (type child = TYPING)
  && match definition child with
     | Some (DefStr d) => bool_decide (d = "Union")
     | _ => false
     end.

(** The loop [for child in children] of the flattening, over the items
    [child_refs] of [children]. *)
Fixpoint flatten_unions (flattened : list_ref) (child_refs : list node_ref) : M unit :=
  match child_refs with
  | [] => ret tt
  | child_ref :: rest =>
      let* child := get_node child_ref in
      (if is_union child then
         match children child with
         | Some gl =>
             let* grandchildren := get_list gl in
             append_children flattened grandchildren
         | None => raise TypeError
         end
       else _append_child flattened child_ref) >>
      flatten_unions flattened rest
  end.

(** The part of [_parse_node] after the brackets have been parsed: the
    node for the name between [name_start] and [name_end] with the parsed
    [children] ([None] when the text has no brackets). *)
Definition make_node (out : bool) (text : string) (top_level : bool)
    (name_start name_end : nat) (children : option list_ref) : M (option node_ref) :=
  if bool_decide (name_start ≠ name_end) then
    let name := Py.slice text name_start name_end in
    if bool_decide (name ∈ _TYPING_MODULE) then
      if bool_decide (name = "Union") then
        match children with
        | None => raise TypeError
        | Some ch =>
            let* xs := get_list ch in
            if length xs =? 0 then ret None
            else
              let* flattened := new_list in
              flatten_unions flattened xs >>
              let* node := new_node
                (mkTypeHintNode TYPING (Some flattened) (Some (DefStr name)) None) in
              ret (Some node)
        end
      else
        let* node := new_node (mkTypeHintNode TYPING children (Some (DefStr name)) None) in
        ret (Some node)
    else
      match children with
      | Some _ => raise (UserException (brackets_invalid_msg text))
      | None => lookup_type_with name out
      end
  else
    let* no_children :=
      if top_level then
        match children with
        | None => ret true
        | Some ch => let* xs := get_list ch in ret (length xs =? 0)
        end
      else ret false in
    if no_children then raise (UserException (non_empty_brackets_msg text))
    else
      let* node := new_node (mkTypeHintNode TYPING children None None) in
      ret (Some node).

(** The body of [_parse_node]. *)
Definition parse_node_body (out : bool) (text : string) (start : nat) (end_ : option nat)
    : M (option node_ref) :=
  let '(end_, top_level) :=
    match end_ with
    | None => (Py.len text, true)
    | Some e => (e, false)
    end in
  let start := _strip_leading text start end_ in
  let name_start := start in
  let end_ := _strip_trailing text start end_ in
  let name_end := end_ in
  match Py.find "[" (Py.slice text start end_) with
  | Some i =>
      let i := i + start in
      let* children := new_list in
      if negb (Py.char_at_is text (end_ - 1) "]") then
        raise (UserException (bracket_expected_msg text end_))
      else
        let name_end := _strip_trailing text name_start i in
        parse_parts (S (end_ - i)) out text end_ children i >>
        make_node out text top_level name_start name_end (Some children)
  | None => make_node out text top_level name_start name_end None
  end.

End Recursion.

(** [_parse_node].  [fuel] bounds the depth of the calls of [_parse_node]
    inside one another. *)
Fixpoint _parse_node (fuel : nat) (out : bool) (text : string) (start : nat)
    (end_ : option nat) : M (option node_ref) :=
  match fuel with
  | 0 => raise OutOfFuel
  | S fuel' => parse_node_body (_parse_node fuel') out text start end_
  end.

Definition _parse (fuel : nat) := parse_with (_parse_node fuel).
Definition _copy_type_hint (fuel : nat) := copy_type_hint_with (_parse_node fuel).
Definition _lookup_type (fuel : nat) := lookup_type_with (_parse_node fuel).

(** A list comprehension whose items are computed in the monad. *)
Fixpoint map_M {A B} (f : A → M B) (l : list A) : M (list B) :=
  match l with
  | [] => ret []
  | x :: l' =>
      let* y := f x in
      let* ys := map_M f l' in
      ret (y :: ys)
  end.

(** [_render_node].  [fuel] bounds the depth of the tree that is walked.
    A [TYPING] or [OTHER] node is built with a string (or nothing) as its
    definition, a [CLASS] node with a class and an [ENUM] node with an enum;
    the other combinations are given as type errors. *)
Fixpoint _render_node (fuel : nat) (node : node_ref) (out pep484 rest_ref : bool)
    (module : option (module_t env)) (defined : option (defined_t env)) : M string :=
  match fuel with
  | 0 => raise OutOfFuel
  | S fuel' =>
      let* n := get_node node in
      match type n with
      | TYPING =>
          let* s :=
            match definition n with
            | None => ret ""
            | Some (DefStr d) => ret (if pep484 then "typing." +:+ d else d)
            | Some _ => raise TypeError
            end in
          match children n with
          | Some cl =>
              let* cs := get_list cl in
              let* rendered :=
                map_M (λ c, _render_node fuel' c out pep484 rest_ref module defined) cs in
              ret (s +:+ "[" +:+ Py.join ", " rendered +:+ "]")
          | None => ret s
          end
      | CLASS =>
          match definition n with
          | Some (DefClass k) =>
              ret (if rest_ref then class_rest_ref env spec k
                   else if pep484 then class_type_hint env spec k module defined
                   else class_fq_py_name env spec k)
          | _ => raise TypeError
          end
      | ENUM =>
          match definition n with
          | Some (DefEnum e) =>
              ret (if rest_ref then enum_rest_ref env spec e
                   else if pep484 then enum_type_hint env spec e module defined
                   else enum_fq_py_name env spec e)
          | _ => raise TypeError
          end
      | OTHER =>
          match definition n with
          | Some (DefStr d) => ret (_maybe_any_object d pep484)
          | _ => raise TypeError
          end
      end
  end.

(** [_render].  The managed hint is named by its key in the dict. *)
Definition _render (fuel : nat) (key : string) (out pep484 rest_ref : bool)
    (module : option (module_t env)) (defined : option (defined_t env)) : M string :=
  _parse fuel key out >>
  let* managed_type_hint := get_managed key in
  match root managed_type_hint with
  | Some r => _render_node fuel r out pep484 rest_ref module defined
  | None => ret (_maybe_any_object (text (type_hint managed_type_hint)) pep484)
  end.

(** [get_type_hint]. *)
Definition get_type_hint (text : string) : M TypeHint :=
  λ s, match managed s !! text with
       | Some managed_type_hint => (s, Ok (type_hint managed_type_hint))
       | None =>
           let type_hint := mkTypeHint (hint_count s) text in
           (mkState (nodes s) (lists s)
              (<[text := mkManagedTypeHint type_hint REQUIRED None None]> (managed s))
              (S (hint_count s)),
            Ok type_hint)
       end.

(** The method [rest_ref] of the manager. *)
Definition manager_rest_ref (fuel : nat) (type_hint : TypeHint) (out : bool) : M string :=
  let* managed_type_hint := get_managed (text type_hint) in
  match rest_ref managed_type_hint with
  | None =>
      let* s := _render fuel (text type_hint) out false true None None in
      update_managed (text type_hint) (with_rest_ref (Some s)) >>
      ret s
  | Some s => ret s
  end.

End Manager.

(** ** Reading trees off the store, and sample collaborators *)

(** A tree as the store holds it below a node, without the sibling
    links. *)
#[warnings="-register-all"]
Inductive Tree :=
| TreeNode (ty : NodeType) (def : option NodeDefinition) (kids : option (list Tree)).

Fixpoint tree_of (fuel : nat) (s : State) (r : node_ref) : option Tree :=
  match fuel with
  | 0 => None
  | S fuel' =>
      n ← nodes s !! r;
      match children n with
      | None => Some (TreeNode (type n) (definition n) None)
      | Some cl =>
          cs ← lists s !! cl;
          kids ← mapM (tree_of fuel' s) cs;
          Some (TreeNode (type n) (definition n) (Some kids))
      end
  end.

(** The children of a node, as references. *)
Definition children_of (s : State) (r : node_ref) : option (list node_ref) :=
  n ← nodes s !! r; cl ← children n; lists s !! cl.

(** The sibling link of a node. *)
Definition next_of (s : State) (r : node_ref) : option (option node_ref) :=
  next <$> nodes s !! r.

(** Modelled from the spec: [ScopedName.parse] of scoped_name.py, which is
    not among the sources: the path is split into its ordered parts at
    every double colon. *)
Fixpoint split_scoped_aux (acc : string) (s : string) : list string :=
  match s with
  | EmptyString => [String.rev acc]
  | String ":" (String ":" s') => String.rev acc :: split_scoped_aux "" s'
  | String c s' => split_scoped_aux (String c acc) s'
  end.
Definition split_scoped (s : string) : list string := split_scoped_aux "" s.

(** Formatters for the examples: the base name of the entity, marked by
    the attribute that was read. *)
Definition sample_env : Collaborators :=
  mkCollaborators unit unit split_scoped
    (λ _ k, ":sip:ref:`" +:+ class_base_name k +:+ "`")
    (λ _ k _ _, "'" +:+ class_base_name k +:+ "'")
    (λ _ k, class_base_name k)
    (λ _ e, ":sip:ref:`" +:+ default "" (enum_base_name e) +:+ "`")
    (λ _ e _ _, "'" +:+ default "" (enum_base_name e) +:+ "'")
    (λ _ e, default "" (enum_base_name e)).

(** A symbol table without entities. *)
Definition empty_spec : Specification := mkSpecification [] [] [].

(** ** The calls of the public methods, one after another *)

Inductive Call (env : Collaborators) :=
| Call_get_type_hint (text : string)
| Call_rest_ref (fuel : nat) (th : TypeHint) (out : bool)
| Call_render (fuel : nat) (key : string) (out pep484 rest_ref : bool)
    (module : option (module_t env)) (defined : option (defined_t env)).
Arguments Call_get_type_hint {env} text.
Arguments Call_rest_ref {env} fuel th out.
Arguments Call_render {env} fuel key out pep484 rest_ref module defined.

Section Auxiliary.

Context (env : Collaborators) (spec : Specification).

(** The state that a call leaves behind, whether it returns or raises. *)
Definition run_call (c : Call env) (s : State) : State :=
  match c with
  | Call_get_type_hint text => (get_type_hint text s).1
  | Call_rest_ref fuel th out => (manager_rest_ref env spec fuel th out s).1
  | Call_render fuel key out pep484 rest_ref module defined =>
      (_render env spec fuel key out pep484 rest_ref module defined s).1
  end.

(** The state after a sequence of calls. *)
Fixpoint run_calls (cs : list (Call env)) (s : State) : State :=
  match cs with
  | [] => s
  | c :: cs' => run_calls cs' (run_call c s)
  end.

(** The class that a path of names leads to from the scope [scope_klass]
    when every part of it is found as a class, by the tests of the loop of
    [_lookup_type]: the part is not the name of an enum in scope and, at
    the global level, not the name of a mapped type. *)
Fixpoint class_path (parts : list string) (scope_klass : option WrappedClass)
    : option WrappedClass :=
  match parts with
  | [] => None
  | part :: parts' =>
      match _lookup_enum spec part (ScopeClass ∘ class_id <$> scope_klass, None) with
      | Some _ => None
      | None =>
          match (match scope_klass with
                 | None => _lookup_mapped_type spec part
                 | Some _ => None
                 end) with
          | Some _ => None
          | None =>
              match _lookup_class spec part scope_klass with
              | None => None
              | Some klass =>
                  match parts' with
                  | [] => Some klass
                  | _ => class_path parts' (Some klass)
                  end
              end
          end
      end
  end.

(** [_parse_node] for a text of which some parts have been parsed
    already: [parsed start end] is the node of the part from [start] to
    [end], when there is one. *)
Fixpoint parse_node_given (parsed : nat → nat → option node_ref) (fuel : nat)
    (out : bool) (text : string) (start : nat) (end_ : option nat) : M (option node_ref) :=
  match fuel with
  | 0 => raise OutOfFuel
  | S fuel' =>
      match end_ ≫= parsed start with
      | Some r => ret (Some r)
      | None => parse_node_body env spec (parse_node_given parsed fuel') out text start end_
      end
  end.

End Auxiliary.

(** A hint text that is one name and nothing else: not empty, without
    brackets or spaces around it, and not a name of the typing module. *)
Definition bare_name (name : string) : Prop :=
  name ≠ ""
  ∧ Py.find "[" name = None
  ∧ Py.char_at_is name 0 " " = false
  ∧ Py.char_at_is name (Py.len name - 1) " " = false
  ∧ name ∉ _TYPING_MODULE.

(** The node of a plain reference to a class. *)
Definition class_node (klass : WrappedClass) : TypeHintNode :=
  mkTypeHintNode CLASS None (Some (DefClass klass)) None.

(** The node that [_parse_node] returns below the top level for a part
    without a name and without brackets:
    [TypeHintNode(NodeType.TYPING, children=None)]. *)
Definition anonymous_node : TypeHintNode := mkTypeHintNode TYPING None None None.

(** The parts [A], [B] and [C] of the text [Union[Union[A,B],C]], parsed
    to the nodes [a], [b] and [c]. *)
Definition nested_parts (a b c : node_ref) (start end_ : nat) : option node_ref :=
  if decide ((start, end_) = (12, 13)) then Some a
  else if decide ((start, end_) = (14, 15)) then Some b
  else if decide ((start, end_) = (17, 18)) then Some c
  else None.

(** The parts [A], [B] and [C] of the text [Union[A,B,C]]. *)
Definition plain_parts (a b c : node_ref) (start end_ : nat) : option node_ref :=
  if decide ((start, end_) = (6, 7)) then Some a
  else if decide ((start, end_) = (8, 9)) then Some b
  else if decide ((start, end_) = (10, 11)) then Some c
  else None.

(** The union branch of [_parse_node] for the list [children] of parsed
    children: what [make_node] does when the name is [Union]. *)
Definition union_of (children : list_ref) : M (option node_ref) :=
  let* xs := get_list children in
  if length xs =? 0 then ret None
  else
    let* flattened := new_list in
    flatten_unions flattened xs >>
    let* node := new_node
      (mkTypeHintNode TYPING (Some flattened) (Some (DefStr "Union")) None) in
    ret (Some node).

(** [if new_child is not None: self._append_child(children, new_child)]. *)
Definition append_parsed (children : list_ref) (new_child : option node_ref) : M unit :=
  match new_child with
  | Some c => _append_child children c
  | None => ret tt
  end.

(** Whether [sub] occurs in [s]: [sub in s]. *)
Fixpoint contains (sub s : string) : bool :=
  String.prefix sub s
  || match s with
     | EmptyString => false
     | String _ s' => contains sub s'
     end.

(** ** Relations between states of the manager

    [extends s s'] holds when [s'] can be reached from [s] by the methods
    of the manager: the nodes of [s] are still there with their type,
    children and definition (only the sibling link may change), the lists
    of [s] have their items, every managed hint keeps its [TypeHint]
    object and a cached reference, and a hint that is no longer [REQUIRED]
    keeps its parse state and root. *)

(** A node without its sibling link. *)
Definition shape (n : TypeHintNode) : NodeType * option list_ref * option NodeDefinition :=
  (type n, children n, definition n).

(** The nodes of a state without their sibling links. *)
Definition shapes (s : State) : list (NodeType * option list_ref * option NodeDefinition) :=
  shape <$> nodes s.

(** What may become of a managed hint: the [TypeHint] object stays, a
    cached reference stays, and the parse state and the root stay once the
    state is not [REQUIRED] any more. *)
Definition managed_le (m m' : ManagedTypeHint) : Prop :=
  type_hint m' = type_hint m
  ∧ (∀ r, rest_ref m = Some r → rest_ref m' = Some r)
  ∧ (parse_state m ≠ REQUIRED → parse_state m' = parse_state m ∧ root m' = root m).

Record extends (s s' : State) : Prop := mkExtends {
  ext_shapes : shapes s `prefix_of` shapes s';
  ext_lists : ∀ l xs, lists s !! l = Some xs → lists s' !! l = Some xs;
  ext_managed : ∀ key m, managed s !! key = Some m →
    ∃ m', managed s' !! key = Some m' ∧ managed_le m m';
  ext_hint_count : hint_count s ≤ hint_count s'
}.

(** [keeps s0 c Q]: run from any state that extends [s0], the computation
    [c] ends, whatever its outcome, in a state that extends [s0]; and a
    value that it returns satisfies [Q]. *)
Definition keeps {A} (s0 : State) (c : M A) (Q : A → Prop) : Prop :=
  ∀ s1, extends s0 s1 →
    extends s0 (c s1).1 ∧ match (c s1).2 with
                           | Ok a => Q a
                           | Raise _ => True
                           end.

(** [extending c]: the computation [c] ends in a state that extends the one
    it started from. *)
Definition extending {A} (c : M A) : Prop := ∀ s, extends s (c s).1.

(** [readonly c]: the computation [c] leaves the state as it is. *)
Definition readonly {A} (c : M A) : Prop := ∀ s, (c s).1 = s.

(** A reference to a node of the store. *)
Definition valid_node (s : State) (x : node_ref) : Prop := x < length (nodes s).

(** Every reference held by the store leads into the store, and a union
    node has a list of children, as [_parse_node] builds it. *)
Definition heap_closed (s : State) : Prop :=
  (∀ r n cl, nodes s !! r = Some n → children n = Some cl → cl < length (lists s))
  ∧ (∀ l xs, lists s !! l = Some xs → Forall (valid_node s) xs)
  ∧ (∀ r n, nodes s !! r = Some n → is_union n = true → is_Some (children n)).

(** What the flattening puts in place of a child: the children of a union
    node, the node itself otherwise. *)
Definition flat (s : State) (c : node_ref) : list node_ref :=
  match nodes s !! c with
  | Some n => if is_union n then default [] (gl ← children n; lists s !! gl) else [c]
  | None => []
  end.

(** [s'] is [s] after the items [xs] have been appended to the list [l],
    which held [ys]: no other list has changed, and no node has changed but
    in its sibling link. *)
Definition appended_to (l : list_ref) (ys xs : list node_ref) (s s' : State) : Prop :=
  lists s !! l = Some ys
  ∧ lists s' = <[l := ys ++ xs]> (lists s)
  ∧ shapes s' = shapes s
  ∧ managed s' = managed s
  ∧ hint_count s' = hint_count s.

(** A child that the flattening can handle while it fills the list [l]:
    a node of the store and, when it is a union, one whose children are a
    list other than [l] of nodes of the store. *)
Definition flattenable (s : State) (l : list_ref) (c : node_ref) : Prop :=
  ∃ n, nodes s !! c = Some n
       ∧ (is_union n = true →
          ∃ gl gs, children n = Some gl ∧ gl ≠ l ∧ lists s !! gl = Some gs
                   ∧ Forall (valid_node s) gs).

(** [s'] is [s] with the nodes of shapes [sh] and the lists [ls] allocated
    after those of [s]. *)
Definition grown (s s' : State) (sh : list (NodeType * option list_ref * option NodeDefinition))
    (ls : list (list node_ref)) : Prop :=
  shapes s' = shapes s ++ sh
  ∧ lists s' = lists s ++ ls
  ∧ managed s' = managed s
  ∧ hint_count s' = hint_count s.

(** ** Sample symbol tables and managers *)

(** A symbol table with the class [Foo], whose outgoing override hint is
    [Foo] itself, and the class [Bar], whose outgoing override hint is
    [Union[A, B, C]]. *)
Definition Foo : WrappedClass :=
  mkWrappedClass 0 None false "Foo" (Some (mkTypeHints None (Some (mkTypeHint 0 "Foo")))).
Definition Bar : WrappedClass :=
  mkWrappedClass 1 None false "Bar"
    (Some (mkTypeHints None (Some (mkTypeHint 1 "Union[A, B, C]")))).
Definition foo_bar_spec : Specification := mkSpecification [] [Foo; Bar] [].

(** A manager that has handed out the hints of the examples. *)
Definition sample_manager : State :=
  run_calls sample_env foo_bar_spec
    [Call_get_type_hint "Foo"; Call_get_type_hint "Union[A, B, C]";
     Call_get_type_hint "Union[Bar, D]"; Call_get_type_hint "Any";
     Call_get_type_hint "Union[]"; Call_get_type_hint "List[int"]
    new_manager.

(** A manager that has handed out and rendered the hint [List[int]]. *)
Definition sample_state : State :=
  run_calls sample_env empty_spec
    [Call_get_type_hint "List[int]"; Call_render 5 "List[int]" true true false None None]
    new_manager.

(** A store with three parsed names. *)
Definition three_names : State :=
  mkState
    [mkTypeHintNode OTHER None (Some (DefStr "A")) None;
     mkTypeHintNode OTHER None (Some (DefStr "B")) None;
     mkTypeHintNode OTHER None (Some (DefStr "C")) None]
    [] ∅ 0.

(** A store with a list of one child. *)
Definition one_child : State :=
  mkState
    [mkTypeHintNode OTHER None (Some (DefStr "str")) None;
     mkTypeHintNode OTHER None (Some (DefStr "int")) None]
    [[0]] ∅ 0.

(** The manager after the override hint of [Bar] has been parsed. *)
Definition bar_parsed : State :=
  (_parse sample_env foo_bar_spec 5 "Union[A, B, C]" true sample_manager).1.

(** The manager after [Union[Bar, D]] has been rendered outgoing and then
    cross-referenced incoming. *)
Definition rendered_twice : State :=
  run_calls sample_env foo_bar_spec
    [Call_rest_ref 5 (mkTypeHint 2 "Union[Bar, D]") false]
    (_render sample_env foo_bar_spec 5 "Union[Bar, D]" true false false
       None None sample_manager).1.

(** A symbol table with the mapped type [MT], which has no override
    hints, and a manager that has handed out a union of it. *)
Definition mapped_spec : Specification :=
  mkSpecification [] [] [mkMappedType 0 (Some "MT") None].
Definition mapped_manager : State := (get_type_hint "Union[MT]" new_manager).1.

(** ** Counting brackets *)

(** The number of indices among the [n] from [a] on at which [text] holds
    the character [c]. *)
Fixpoint count_char (c : ascii) (text : string) (a n : nat) : nat :=
  match n with
  | 0 => 0
  | S n' => (if Py.char_at_is text a c then 1 else 0) + count_char c text (S a) n'
  end.

(** A store with four parsed names and a list that holds the first. *)
Definition one_child_more : State :=
  mkState
    [mkTypeHintNode OTHER None (Some (DefStr "A")) None;
     mkTypeHintNode OTHER None (Some (DefStr "B")) None;
     mkTypeHintNode OTHER None (Some (DefStr "C")) None;
     mkTypeHintNode OTHER None (Some (DefStr "D")) None]
    [[0]] ∅ 0.

(** ** Well-formed stores *)

(** A reference to a list of the store. *)
Definition valid_list (s : State) (l : list_ref) : Prop := l < length (lists s).

(** The node that a parse returned, if any, is a node of the store. *)
Definition valid_result (r : option node_ref) (s : State) : Prop :=
  match r with
  | Some x => valid_node s x
  | None => True
  end.

(** What a loop gives back, seen as the result of a parse. *)
Definition valid_loop_result (r : LoopResult (option node_ref)) (s : State) : Prop :=
  match r with
  | Returned n => valid_result n s
  | Left => True
  end.

(** No node has the list [l] as its children. *)
Definition unheld (s : State) (l : list_ref) : Prop :=
  ∀ r n, nodes s !! r = Some n → children n ≠ Some l.

(** The children of a node were all made before the node. *)
Definition ordered (s : State) : Prop :=
  ∀ r n cl xs, nodes s !! r = Some n → children n = Some cl → lists s !! cl = Some xs →
    Forall (λ x, x < r) xs.

(** The dict of managed hints: a hint is kept under its own text, and no
    two texts have the same [TypeHint] object. *)
Definition registry_ok (s : State) : Prop :=
  (∀ key m, managed s !! key = Some m →
     text (type_hint m) = key ∧ hint_id (type_hint m) < hint_count s)
  ∧ (∀ k1 k2 m1 m2, managed s !! k1 = Some m1 → managed s !! k2 = Some m2 →
       hint_id (type_hint m1) = hint_id (type_hint m2) → k1 = k2).

(** What a node holds, by its type: a [TYPING] node a name of the typing
    module or nothing, a [CLASS] node a class of the symbol table that is
    not external, an [ENUM] node an enum of the symbol table, an [OTHER]
    node a name that is not of the typing module; only [TYPING] nodes have
    children. *)
Definition typed_node (spec : Specification) (n : TypeHintNode) : Prop :=
  match type n, definition n with
  | TYPING, None => True
  | TYPING, Some (DefStr d) => d ∈ _TYPING_MODULE
  | CLASS, Some (DefClass k) => children n = None ∧ k ∈ classes spec ∧ external k = false
  | ENUM, Some (DefEnum e) => children n = None ∧ e ∈ enums spec
  | OTHER, Some (DefStr d) => children n = None ∧ d ∉ _TYPING_MODULE
  | _, _ => False
  end.

Definition typed (spec : Specification) (s : State) : Prop :=
  ∀ r n, nodes s !! r = Some n → typed_node spec n.

(** A well-formed store: closed, with managed roots that are nodes of the
    store, nodes that hold what their type says, children made before
    their parents, and a dict that is in order. *)
Definition store_ok (spec : Specification) (s : State) : Prop :=
  heap_closed s
  ∧ (∀ key m r, managed s !! key = Some m → root m = Some r → valid_node s r)
  ∧ typed spec s
  ∧ ordered s
  ∧ registry_ok s.

(** [s'] has the nodes and lists of [s], and maybe more; a list below [b]
    that no node of [s] had as its children is the children of no node of
    [s']. *)
Definition grows (b : nat) (s s' : State) : Prop :=
  length (nodes s) ≤ length (nodes s')
  ∧ length (lists s) ≤ length (lists s')
  ∧ ∀ l, l < b → unheld s l → unheld s' l.

(** [sound spec b P c Q]: run in a well-formed store that has at least [b]
    lists and in which [P] holds, the computation [c] ends in a well-formed
    store that has grown; it does not fail on a reference, and a value that
    it returns satisfies [Q] in the final store. *)
Definition sound {A} (spec : Specification) (b : nat) (P : State → Prop) (c : M A)
    (Q : A → State → Prop) : Prop :=
  ∀ s, store_ok spec s → b ≤ length (lists s) → P s →
    store_ok spec (c s).1 ∧ grows b s (c s).1
    ∧ match (c s).2 with
      | Ok a => Q a (c s).1
      | Raise e => e ≠ InvalidRef
      end.

(** A property of stores that holds on when the store grows. *)
Definition stable (b : nat) (P : State → Prop) : Prop :=
  ∀ s s', grows b s s' → P s → P s'.

(** ** Symbol tables whose override hints do not depend on the direction *)

#[global] Instance TypeHint_eq_dec : EqDecision TypeHint.
Proof. solve_decision. Defined.

(** Every class and every mapped type of the symbol table has the same
    override hint for both directions, or none for both. *)
Definition same_overrides (spec : Specification) : bool :=
  forallb
    (λ klass, bool_decide (override_hint (class_type_hints klass) true
                           = override_hint (class_type_hints klass) false))
    (classes spec)
  && forallb
       (λ mapped_type, bool_decide (override_hint (mapped_type_hints mapped_type) true
                                    = override_hint (mapped_type_hints mapped_type) false))
       (mapped_types spec).

(** A symbol table with a class whose override hint is the same for both
    directions, and a manager that has handed out the hints of the
    example. *)
Definition Baz : WrappedClass :=
  mkWrappedClass 0 None false "Baz"
    (Some (mkTypeHints (Some (mkTypeHint 0 "List[int]")) (Some (mkTypeHint 0 "List[int]")))).
Definition baz_spec : Specification := mkSpecification [] [Baz] [].
Definition baz_manager : State :=
  run_calls sample_env baz_spec
    [Call_get_type_hint "List[int]"; Call_get_type_hint "Dict[str, Baz]"] new_manager.

(** ** The depth of the recursion of the parser *)

(** What a managed hint that has not been parsed yet adds to the depth of
    the recursion: the length of its text and two more; a hint that is
    being parsed or has been parsed adds nothing. *)
Definition pending_weight (m : ManagedTypeHint) : nat :=
  if bool_decide (parse_state m = REQUIRED)
  then S (S (Py.len (text (type_hint m))))
  else 0.

(** The sum of it over the managed hints. *)
Definition pending (s : State) : nat :=
  map_fold (λ (_ : string) m acc, pending_weight m + acc) 0 (managed s).

(** The length of the span that a call of [_parse_node] is given. *)
Definition span (text : string) (start : nat) (end_ : option nat) : nat :=
  default (Py.len text) end_ - start.

(** [bounded B c]: run in a store in which the hints still to be parsed
    weigh at most [B], the computation [c] ends in such a store, and not
    by running out of fuel. *)
Definition bounded {A} (B : nat) (c : M A) : Prop :=
  ∀ s, pending s ≤ B → pending (c s).1 ≤ B ∧ (c s).2 ≠ Raise OutOfFuel.

(** ** Texts and the hints that they spell *)

(** The string [w] is in the text [text] from the index [a] on. *)
Definition occurs (text : string) (a : nat) (w : string) : Prop :=
  ∀ i c, String.get i w = Some c → String.get (a + i) text = Some c.

(** A string without brackets and commas. *)
Fixpoint plain (s : string) : bool :=
  match s with
  | EmptyString => true
  | String c s' =>
      negb (Ascii.eqb c "[") && negb (Ascii.eqb c "]") && negb (Ascii.eqb c ",")
      && plain s'
  end.

(** A name as it stands in a hint: not empty, without brackets and commas,
    and with no space at either end. *)
Definition good_name (name : string) : bool :=
  negb (bool_decide (name = ""))
  && plain name
  && negb (Py.char_at_is name 0 " ")
  && negb (Py.char_at_is name (Py.len name - 1) " ").

(** A hint as a tree of names: a name alone, or a name (maybe empty) with
    bracketed arguments. *)
#[warnings="-register-all"]
Inductive Hint :=
| HName (name : string)
| HGeneric (name : string) (args : list Hint).

(** A name as it is rendered: a name of the typing module gets the prefix
    [typing.] in annotation mode. *)
Definition show_name (pep484 : bool) (name : string) : string :=
  if pep484 && bool_decide (name ∈ _TYPING_MODULE) then "typing." +:+ name else name.

(** The text of a hint, with a comma and one space between arguments. *)
Fixpoint show (pep484 : bool) (h : Hint) : string :=
  match h with
  | HName name => show_name pep484 name
  | HGeneric name args =>
      show_name pep484 name +:+ "[" +:+ Py.join ", " (map (show pep484) args) +:+ "]"
  end.

(** The number of levels of a hint. *)
Fixpoint height (h : Hint) : nat :=
  match h with
  | HName _ => 1
  | HGeneric _ args => S (list_max (map height args))
  end.

Definition hint_name (h : Hint) : string :=
  match h with
  | HName name => name
  | HGeneric name _ => name
  end.

(** A union with arguments. *)
Definition is_union_hint (h : Hint) : bool :=
  match h with
  | HGeneric name _ => bool_decide (name = "Union")
  | HName _ => false
  end.

(** [n] spaces. *)
Fixpoint spaces (n : nat) : string :=
  match n with
  | 0 => ""
  | S n' => String " " (spaces n')
  end.

(** A hint as it is written: with [l] spaces before it and [r] spaces
    after it, and with [m] spaces between the name and the bracket. *)
#[warnings="-register-all"]
Inductive Spaced :=
| SName (l : nat) (name : string) (r : nat)
| SGeneric (l : nat) (name : string) (m : nat) (args : list Spaced) (r : nat).

(** The text of a written hint: the arguments are separated by commas, and
    the spaces are those of the arguments. *)
Fixpoint written (h : Spaced) : string :=
  match h with
  | SName l name r => spaces l +:+ name +:+ spaces r
  | SGeneric l name m args r =>
      spaces l +:+ name +:+ spaces m +:+ "[" +:+ Py.join "," (map written args) +:+ "]"
      +:+ spaces r
  end.

(** The hint that is written. *)
Fixpoint erase (h : Spaced) : Hint :=
  match h with
  | SName _ name _ => HName name
  | SGeneric _ name _ args _ => HGeneric name (map erase args)
  end.

(** A hint written as it is rendered: one space after a comma and no
    other; [sp] tells whether the hint comes after a comma. *)
Fixpoint tidy (sp : bool) (h : Hint) : Spaced :=
  match h with
  | HName name => SName (if sp then 1 else 0) name 0
  | HGeneric name args =>
      SGeneric (if sp then 1 else 0) name 0
        match args with
        | [] => []
        | a :: rest => tidy false a :: map (tidy true) rest
        end 0
  end.

(** The arguments and the closing bracket, as the parser reads them: part
    by part. *)
Fixpoint parts_text (ws : list string) : string :=
  match ws with
  | [] => "]"
  | w :: rest =>
      w +:+ match rest with
            | [] => "]"
            | _ :: _ => "," +:+ parts_text rest
            end
  end.

(** A string that the loop over a part passes by at the depth [depth]:
    it has no brackets, and commas only inside brackets. *)
Fixpoint skippable (depth : nat) (s : string) : bool :=
  match s with
  | EmptyString => true
  | String c s' =>
      negb (Ascii.eqb c "[") && negb (Ascii.eqb c "]")
      && (negb (Ascii.eqb c ",") || negb (depth =? 0))
      && skippable depth s'
  end.

(** What the loop of [_lookup_type] finds for a scoped name. *)
Inductive Found :=
| FoundEnum (enum : WrappedEnum)
| FoundMappedType (mapped_type : MappedType)
| FoundClass (klass : WrappedClass)
| FoundNothing.

Section Canonical.

Context (env : Collaborators) (spec : Specification).

(** The search of the loop of [_lookup_type], without what is done with
    the enum, mapped type or class that is found: the same tests in the
    same order, from the scope [scope_klass] or [scope_mapped_type]. *)
Fixpoint find_parts (parts : list string) (scope_klass : option WrappedClass)
    (scope_mapped_type : option MappedType) : Found :=
  match parts with
  | [] => FoundNothing
  | part :: parts' =>
      let is_last_part := match parts' with [] => true | _ :: _ => false end in
      match _lookup_enum spec part (ScopeClass ∘ class_id <$> scope_klass,
                                    ScopeMappedType ∘ mapped_type_id <$> scope_mapped_type) with
      | Some enum => if is_last_part then FoundEnum enum else FoundNothing
      | None =>
          match scope_mapped_type with
          | Some _ => FoundNothing
          | None =>
              match (match scope_klass with
                     | None => _lookup_mapped_type spec part
                     | Some _ => None
                     end) with
              | Some mapped_type =>
                  if is_last_part then FoundMappedType mapped_type
                  else find_parts parts' scope_klass (Some mapped_type)
              | None =>
                  match _lookup_class spec part scope_klass with
                  | None => FoundNothing
                  | Some klass =>
                      if is_last_part then FoundClass klass
                      else find_parts parts' (Some klass) None
                  end
              end
          end
      end
  end.

(** What [_lookup_type] finds for a name. *)
Definition find_type (name : string) : Found :=
  find_parts (ScopedName_parse env (Py.replace_dot name)) None None.

(** A name that the symbol table does not know: the first part of it is
    not the name of an enum, of a mapped type or of a class at the global
    level. *)
Definition unknown_name (name : string) : bool :=
  match ScopedName_parse env (Py.replace_dot name) with
  | [] => true
  | part :: _ =>
      match _lookup_enum spec part (None, None), _lookup_mapped_type spec part,
            _lookup_class spec part None with
      | None, None, None => true
      | _, _, _ => false
      end
  end.

(** A hint in the form in which it is rendered: the names that stand
    alone are good names, either of the typing module (but not [Union]) or
    unknown to the symbol table; a name with arguments is of the typing
    module or empty, and has at least one argument; the arguments of a
    union are not unions themselves. *)
Fixpoint canonical (h : Hint) : bool :=
  match h with
  | HName name =>
      good_name name
      && (if bool_decide (name ∈ _TYPING_MODULE)
          then negb (bool_decide (name = "Union"))
          else unknown_name name)
  | HGeneric name args =>
      (bool_decide (name = "") || bool_decide (name ∈ _TYPING_MODULE))
      && match args with [] => false | _ :: _ => true end
      && forallb canonical args
      && (negb (bool_decide (name = "Union"))
          || forallb (λ a, negb (is_union_hint a)) args)
  end.

(** A name that stands alone and that the parser gives a node of its own
    for the direction [out]: a name of the typing module (but not
    [Union]), the name of an enum, the name of a class that has no
    override hint for the direction, or a name for which nothing is
    found. *)
Definition leaf_ok (out : bool) (name : string) : bool :=
  good_name name
  && (if bool_decide (name ∈ _TYPING_MODULE)
      then negb (bool_decide (name = "Union"))
      else match find_type name with
           | FoundEnum _ => true
           | FoundMappedType _ => false
           | FoundClass klass =>
               match override_hint (class_type_hints klass) out with
               | Some _ => false
               | None => true
               end
           | FoundNothing => true
           end).

(** The hints of which the parser makes a tree of new nodes, node by
    node: as [canonical], but for the names that stand alone. *)
Fixpoint legible (out : bool) (h : Hint) : bool :=
  match h with
  | HName name => leaf_ok out name
  | HGeneric name args =>
      (bool_decide (name = "") || bool_decide (name ∈ _TYPING_MODULE))
      && match args with [] => false | _ :: _ => true end
      && forallb (legible out) args
      && (negb (bool_decide (name = "Union"))
          || forallb (λ a, negb (is_union_hint a)) args)
  end.

(** The string of a name that stands alone: an enum and a class are
    formatted by [EnumFormatter] and [ClassFormatter], as the mode asks. *)
Definition leaf_text (pep484 rest_ref : bool) (module : option (module_t env))
    (defined : option (defined_t env)) (name : string) : string :=
  if bool_decide (name ∈ _TYPING_MODULE) then show_name pep484 name
  else match find_type name with
       | FoundEnum enum =>
           if rest_ref then enum_rest_ref env spec enum
           else if pep484 then enum_type_hint env spec enum module defined
           else enum_fq_py_name env spec enum
       | FoundClass klass =>
           if rest_ref then class_rest_ref env spec klass
           else if pep484 then class_type_hint env spec klass module defined
           else class_fq_py_name env spec klass
       | FoundMappedType _ | FoundNothing => name
       end.

(** The string of a hint: as [show], but for the names that stand
    alone. *)
Fixpoint rendered (pep484 rest_ref : bool) (module : option (module_t env))
    (defined : option (defined_t env)) (h : Hint) : string :=
  match h with
  | HName name => leaf_text pep484 rest_ref module defined name
  | HGeneric name args =>
      show_name pep484 name +:+ "["
      +:+ Py.join ", " (map (rendered pep484 rest_ref module defined) args) +:+ "]"
  end.

End Canonical.

(** The definition of the node of a name with brackets. *)
Definition generic_def (name : string) : option NodeDefinition :=
  if bool_decide (name = "") then None else Some (DefStr name).

(** [s'] has the nodes of [s] (but for their sibling links) and the lists
    of [s] from [lb] on as they are, and maybe more. *)
Definition frame (lb : nat) (s s' : State) : Prop :=
  shapes s `prefix_of` shapes s'
  ∧ ∀ l xs, lb ≤ l → lists s !! l = Some xs → lists s' !! l = Some xs.

(** The same, for all the lists of [s] but [l]. *)
Definition frame_but (l : list_ref) (s s' : State) : Prop :=
  shapes s `prefix_of` shapes s'
  ∧ ∀ l' xs, l' ≠ l → lists s !! l' = Some xs → lists s' !! l' = Some xs.

Section Spelled.

Context (env : Collaborators) (spec : Specification).

(** The node [r] is rendered as the hint [h], in [s] and in every store
    that keeps what [s] has from the list [lb] on. *)
Definition renders_as (lb : nat) (s : State) (r : node_ref) (h : Hint) : Prop :=
  ∀ s' fuel out pep484 rr module defined,
    frame lb s s' → height h ≤ fuel →
    _render_node env spec fuel r out pep484 rr module defined s'
    = (s', Ok (rendered env spec pep484 rr module defined h)).

(** The node [r] of [s] is the node of the hint [h]: a union when the hint
    is one, and rendered as the hint. *)
Definition parsed_as (lb : nat) (s : State) (r : node_ref) (h : Hint) : Prop :=
  (∃ n, nodes s !! r = Some n ∧ is_union n = is_union_hint h)
  ∧ renders_as lb s r h.

End Spelled.

(** The space that the renderer puts after a comma. *)
Definition pad (sp : bool) : string := if sp then " " else "".

(** Hints for the examples. *)
Definition dict_hint : Hint :=
  HGeneric "Dict" [HName "str"; HGeneric "Union" [HName "int"; HGeneric "" [HName "A"; HName "B"]]].


(** Managers that have handed out the hints of the examples. *)
Definition dict_manager : State :=
  (get_type_hint "Dict[str, Union[int, [A, B]]]" new_manager).1.
Definition foo_int_manager : State := (get_type_hint " Foo [int ]" new_manager).1.

(** * Properties *)

(** ** What a computation leaves alone *)

Lemma managed_le_refl m : managed_le m m.
Proof. repeat split; auto. Qed.

Lemma managed_le_trans m1 m2 m3 : managed_le m1 m2 → managed_le m2 m3 → managed_le m1 m3.
Proof.
  intros (Ht & Hr & Hp) (Ht' & Hr' & Hp'). repeat split.
  - congruence.
  - auto.
  - destruct (Hp H) as [E1 E2]. destruct Hp' as [E3 E4]; congruence.
  - destruct (Hp H) as [E1 E2]. destruct Hp' as [E3 E4]; congruence.
Qed.

Lemma extends_refl s : extends s s.
Proof.
  split; auto.
  intros key m Hm. exists m. split; [done | apply managed_le_refl].
Qed.

Lemma extends_trans s1 s2 s3 : extends s1 s2 → extends s2 s3 → extends s1 s3.
Proof.
  intros [Hs Hl Hm Hc] [Hs' Hl' Hm' Hc']. split.
  - by etrans.
  - auto.
  - intros key m H. destruct (Hm _ _ H) as (m2 & H2 & L2).
    destruct (Hm' _ _ H2) as (m3 & H3 & L3).
    exists m3. split; [done | by eapply managed_le_trans].
  - lia.
Qed.

Lemma extends_node s s' r n :
  extends s s' → nodes s !! r = Some n →
  ∃ n', nodes s' !! r = Some n' ∧ shape n' = shape n.
Proof.
  intros [Hs _ _ _] Hn.
  assert (shapes s !! r = Some (shape n)) as H
    by (unfold shapes; rewrite list_lookup_fmap, Hn; done).
  destruct Hs as [k Hk].
  assert (shapes s' !! r = Some (shape n)) as H'
    by (rewrite Hk; apply lookup_app_l_Some; done).
  unfold shapes in H'. rewrite list_lookup_fmap in H'.
  destruct (nodes s' !! r) as [n'|]; simplify_eq/=.
  exists n'. split; [done|]. unfold shape. congruence.
Qed.

Lemma extends_nodes_length s s' : extends s s' → length (nodes s) ≤ length (nodes s').
Proof.
  intros [Hs _ _ _]. apply prefix_length in Hs.
  unfold shapes in Hs. by rewrite !length_fmap in Hs.
Qed.

Lemma extends_lists_length s s' : extends s s' → length (lists s) ≤ length (lists s').
Proof.
  intros [_ Hl _ _].
  destruct (decide (length (lists s) = 0)) as [->|Hne]; [lia|].
  destruct (lookup_lt_is_Some_2 (lists s) (length (lists s) - 1)) as [xs Hxs]; [lia|].
  apply Hl, lookup_lt_Some in Hxs. lia.
Qed.

Lemma keeps_ret {A} s0 (a : A) (Q : A → Prop) : Q a → keeps s0 (ret a) Q.
Proof. intros HQ s1 H. by split. Qed.

Lemma keeps_raise {A} s0 e (Q : A → Prop) : keeps s0 (raise e) Q.
Proof. intros s1 H. by split. Qed.

Lemma keeps_bind {A B} s0 (c : M A) (k : A → M B) (Q : A → Prop) (R : B → Prop) :
  keeps s0 c Q → (∀ a, Q a → keeps s0 (k a) R) → keeps s0 (bind c k) R.
Proof.
  intros Hc Hk s1 H. unfold bind.
  destruct (Hc s1 H) as [He HQ]. destruct (c s1) as [s2 [a|e]]; simpl in *.
  - by apply Hk.
  - by split.
Qed.

Lemma keeps_weaken {A} s0 (c : M A) (Q Q' : A → Prop) :
  keeps s0 c Q → (∀ a, Q a → Q' a) → keeps s0 c Q'.
Proof.
  intros Hc HQ s1 H. destruct (Hc s1 H) as [He Ha]. split; [done|].
  destruct (c s1).2; auto.
Qed.

Lemma keeps_extending {A} s0 (c : M A) : extending c → keeps s0 c (λ _, True).
Proof.
  intros Hc s1 H. split.
  - eapply extends_trans; [done | apply Hc].
  - by destruct (c s1).2.
Qed.

Lemma keeps_to_extending {A} (c : M A) : (∀ s0, keeps s0 c (λ _, True)) → extending c.
Proof. intros H s. apply (H s s), extends_refl. Qed.

Lemma keeps_get_node s0 r : keeps s0 (get_node r) (λ _, True).
Proof. intros s1 H. unfold get_node. by destruct (nodes s1 !! r). Qed.

Lemma keeps_get_list s0 l : keeps s0 (get_list l) (λ _, True).
Proof. intros s1 H. unfold get_list. by destruct (lists s1 !! l). Qed.

Lemma keeps_get_managed s0 key :
  keeps s0 (get_managed key)
    (λ m, ∀ m0, managed s0 !! key = Some m0 → managed_le m0 m).
Proof.
  intros s1 H. unfold get_managed.
  destruct (managed s1 !! key) as [m|] eqn:E; simpl; split; try done.
  intros m0 H0. destruct (ext_managed _ _ H _ _ H0) as (m' & E' & L). congruence.
Qed.

Lemma keeps_new_node s0 n : keeps s0 (new_node n) (λ _, True).
Proof.
  intros s1 [Hs Hl Hm Hc]. split; [|done]. split; simpl; auto.
  unfold shapes; simpl. rewrite fmap_app.
  by apply prefix_app_r.
Qed.

Lemma keeps_new_list s0 : keeps s0 new_list (λ l, lists s0 !! l = None).
Proof.
  intros s1 H. split; simpl.
  - destruct H as [Hs Hl Hm Hc]. split; simpl; auto.
    intros l xs Hx. apply lookup_app_l_Some; auto.
  - apply lookup_ge_None, extends_lists_length, H.
Qed.

Lemma shapes_set_next s r n nx :
  nodes s !! r = Some n →
  shape <$> <[r := mkTypeHintNode (type n) (children n) (definition n) nx]> (nodes s)
  = shapes s.
Proof.
  intros Hn. rewrite list_fmap_insert. apply list_insert_id.
  unfold shapes. by rewrite list_lookup_fmap, Hn.
Qed.

Lemma keeps_set_next s0 r nx : keeps s0 (set_next r nx) (λ _, True).
Proof.
  intros s1 H. unfold set_next.
  destruct (nodes s1 !! r) as [n|] eqn:E; simpl; split; try done.
  destruct H as [Hs Hl Hm Hc]. split; simpl; auto.
  unfold shapes at 2; simpl. by rewrite shapes_set_next.
Qed.

Lemma keeps_list_append s0 l x :
  lists s0 !! l = None → keeps s0 (list_append l x) (λ _, True).
Proof.
  intros Hnew s1 H. unfold list_append.
  destruct (lists s1 !! l) as [xs|] eqn:E; simpl; split; try done.
  destruct H as [Hs Hl Hm Hc]. split; simpl; auto.
  intros l' xs' Hx. rewrite list_lookup_insert_ne; [auto | congruence].
Qed.

Lemma keeps_update_managed s0 key f :
  (∀ m0 m1, managed s0 !! key = Some m0 → managed_le m0 m1 → managed_le m0 (f m1)) →
  keeps s0 (update_managed key f) (λ _, True).
Proof.
  intros Hf s1 H. unfold update_managed.
  destruct (managed s1 !! key) as [m|] eqn:E; simpl; split; try done.
  destruct H as [Hs Hl Hm Hc]. split; simpl; auto.
  intros key' m0 H0. destruct (Hm _ _ H0) as (m' & E' & L).
  destruct (decide (key = key')) as [->|Hne].
  - rewrite lookup_insert_eq. eexists. split; [done|].
    apply Hf; [done|]. congruence.
  - rewrite lookup_insert_ne by done. eauto.
Qed.

Lemma keeps_append_child s0 l x :
  lists s0 !! l = None → keeps s0 (_append_child l x) (λ _, True).
Proof.
  intros Hnew. unfold _append_child.
  eapply keeps_bind; [apply keeps_get_list|]. intros xs _.
  eapply keeps_bind; [|intros; by apply keeps_list_append].
  instantiate (1 := λ _, True).
  destruct (1 <? length xs); [|by apply keeps_ret].
  destruct (last xs); [apply keeps_set_next | apply keeps_raise].
Qed.

Lemma keeps_bind_True {A B} s0 (c : M A) (k : A → M B) (R : B → Prop) :
  keeps s0 c (λ _, True) → (∀ a, keeps s0 (k a) R) → keeps s0 (bind c k) R.
Proof. intros Hc Hk. eapply keeps_bind; [exact Hc | auto]. Qed.

Lemma keeps_True {A} s0 (c : M A) (Q : A → Prop) : keeps s0 c Q → keeps s0 c (λ _, True).
Proof. intros H. eapply keeps_weaken; [exact H | done]. Qed.

(** A managed hint that is still [REQUIRED] may change its parse state and
    root. *)
Lemma managed_le_required m0 m1 m2 :
  managed_le m0 m1 → parse_state m1 = REQUIRED →
  type_hint m2 = type_hint m1 → rest_ref m2 = rest_ref m1 →
  managed_le m0 m2.
Proof.
  intros (Ht & Hr & Hp) Hreq Ht2 Hr2. repeat split.
  - congruence.
  - intros r Hr0. rewrite Hr2. auto.
  - destruct (Hp H). congruence.
  - destruct (Hp H). congruence.
Qed.

(** Walks through a computation built from the operations of the store,
    leaving the obligations that are not plain. *)
Ltac keeps_step :=
  match goal with
  | |- keeps _ (ret _) _ => by apply keeps_ret
  | |- keeps _ (raise _) _ => apply keeps_raise
  | |- keeps _ (get_node _) _ => apply keeps_get_node
  | |- keeps _ (get_list _) _ => apply keeps_get_list
  | |- keeps _ (new_node _) _ => apply keeps_new_node
  | |- keeps _ (set_next _ _) _ => apply keeps_set_next
  | |- keeps _ (_append_child _ _) _ => by apply keeps_append_child
  | |- keeps _ (list_append _ _) _ => by apply keeps_list_append
  | |- keeps _ new_list (λ _, True) => apply (keeps_True _ _ _ (keeps_new_list _))
  | |- keeps _ (get_managed _) (λ _, True) => apply (keeps_True _ _ _ (keeps_get_managed _ _))
  | |- keeps _ (bind new_list _) _ =>
      eapply keeps_bind; [apply keeps_new_list | intros ? ?; cbv beta]
  | |- keeps _ (bind (get_managed _) _) _ =>
      eapply keeps_bind; [apply keeps_get_managed | intros ? ?; cbv beta]
  | |- keeps _ (bind _ _) _ => apply keeps_bind_True; [|intros ?; cbv beta]
  | |- keeps _ (if ?b then _ else _) _ => destruct b eqn:?
  | |- keeps _ (match ?x with _ => _ end) _ => destruct x eqn:?
  end.

Section Extending.

Context (env : Collaborators) (spec : Specification).

Section Body.

Variable parse_node_rec : bool → string → nat → option nat → M (option node_ref).
Hypothesis rec_extending : ∀ out text start end_,
  extending (parse_node_rec out text start end_).

Lemma keeps_parse_with s0 key out :
  keeps s0 (parse_with parse_node_rec key out) (λ _, True).
Proof.
  unfold parse_with. keeps_step. keeps_step; [|keeps_step].
  apply bool_decide_eq_true in Heqb.
  assert (∀ f, (∀ m, type_hint (f m) = type_hint m) → (∀ m, rest_ref (f m) = rest_ref m) →
            keeps s0 (update_managed key f) (λ _, True)) as Hupd.
  { intros f Hf1 Hf2. apply keeps_update_managed. intros m0 m1 H0 L.
    specialize (H _ H0).
    assert (parse_state m0 = REQUIRED) as Hreq.
    { destruct H as (_ & _ & Hp). destruct (decide (parse_state m0 = REQUIRED)); [done|].
      destruct (Hp n). congruence. }
    destruct L as (L1 & L2 & L3). repeat split.
    - rewrite Hf1. done.
    - intros r Hr. rewrite Hf2. auto.
    - congruence.
    - congruence. }
  keeps_step; [by apply Hupd|].
  keeps_step; [by apply keeps_extending|].
  keeps_step; by apply Hupd.
Qed.

Lemma keeps_copy_type_hint_with s0 th out :
  keeps s0 (copy_type_hint_with parse_node_rec th out) (λ _, True).
Proof.
  unfold copy_type_hint_with.
  keeps_step. keeps_step; [apply keeps_parse_with|].
  repeat keeps_step.
Qed.

Lemma keeps_substitute_with s0 ths out :
  keeps s0 (substitute_with parse_node_rec ths out) (λ _, True).
Proof.
  unfold substitute_with. repeat keeps_step.
  apply keeps_copy_type_hint_with.
Qed.

Lemma keeps_lookup_parts s0 len part_i parts out sk sm :
  keeps s0 (lookup_parts spec parse_node_rec len part_i parts out sk sm) (λ _, True).
Proof.
  revert part_i sk sm. induction parts as [|part parts IH]; intros part_i sk sm; simpl.
  - keeps_step.
  - repeat first [apply IH | apply keeps_substitute_with | keeps_step].
Qed.

Lemma keeps_lookup_type_with s0 name out :
  keeps s0 (lookup_type_with env spec parse_node_rec name out) (λ _, True).
Proof.
  unfold lookup_type_with.
  keeps_step; [apply keeps_lookup_parts|]. repeat keeps_step.
Qed.

Lemma keeps_parse_parts s0 n out text end_ children i :
  lists s0 !! children = None →
  keeps s0 (parse_parts parse_node_rec n out text end_ children i) (λ _, True).
Proof.
  intros Hnew. revert i. induction n as [|n IH]; intros i; simpl.
  - keeps_step.
  - keeps_step; [|keeps_step].
    keeps_step; [by apply keeps_extending|].
    keeps_step; [|apply IH]. repeat keeps_step.
Qed.

Lemma keeps_append_children s0 flattened grandchildren :
  lists s0 !! flattened = None →
  keeps s0 (append_children flattened grandchildren) (λ _, True).
Proof.
  intros Hnew. induction grandchildren as [|g gs IH]; simpl; repeat keeps_step. done.
Qed.

Lemma keeps_flatten_unions s0 flattened child_refs :
  lists s0 !! flattened = None →
  keeps s0 (flatten_unions flattened child_refs) (λ _, True).
Proof.
  intros Hnew. induction child_refs as [|c cs IH]; simpl.
  - keeps_step.
  - keeps_step; [keeps_step|]. keeps_step; [|done].
    repeat first [by apply keeps_append_children | keeps_step].
Qed.

Lemma keeps_make_node s0 out text top_level name_start name_end children :
  keeps s0 (make_node env spec parse_node_rec out text top_level name_start name_end children)
    (λ _, True).
Proof.
  unfold make_node.
  repeat first [by apply keeps_flatten_unions | apply keeps_lookup_type_with | keeps_step].
Qed.

Lemma parse_node_body_extending out text start end_ :
  extending (parse_node_body env spec parse_node_rec out text start end_).
Proof.
  apply keeps_to_extending. intros s0. unfold parse_node_body.
  destruct end_ as [e|]; simpl;
    repeat first [by apply keeps_parse_parts | apply keeps_make_node
                 | by apply keeps_extending | keeps_step].
Qed.

End Body.

Lemma _parse_node_extending fuel out text start end_ :
  extending (_parse_node env spec fuel out text start end_).
Proof.
  revert out text start end_. induction fuel as [|fuel IH]; intros; simpl.
  - intros s. apply extends_refl.
  - by apply parse_node_body_extending.
Qed.

End Extending.

(** ** Rendering reads the store and does not change it *)

Lemma readonly_ret {A} (a : A) : readonly (ret a).
Proof. done. Qed.

Lemma readonly_raise {A} e : readonly (raise (A := A) e).
Proof. done. Qed.

Lemma readonly_bind {A B} (c : M A) (k : A → M B) :
  readonly c → (∀ a, readonly (k a)) → readonly (bind c k).
Proof.
  intros Hc Hk s. unfold bind. specialize (Hc s).
  destruct (c s) as [s' [a|e]]; simpl in *; subst; [apply Hk | done].
Qed.

Lemma readonly_get_node r : readonly (get_node r).
Proof. intros s. unfold get_node. by destruct (nodes s !! r). Qed.

Lemma readonly_get_list l : readonly (get_list l).
Proof. intros s. unfold get_list. by destruct (lists s !! l). Qed.

Lemma readonly_get_managed key : readonly (get_managed key).
Proof. intros s. unfold get_managed. by destruct (managed s !! key). Qed.

Lemma readonly_map_M {A B} (f : A → M B) l :
  (∀ x, readonly (f x)) → readonly (map_M f l).
Proof.
  intros Hf. induction l as [|x l IH]; simpl.
  - apply readonly_ret.
  - apply readonly_bind; [apply Hf|]. intros y.
    apply readonly_bind; [apply IH|]. intros ys. apply readonly_ret.
Qed.

Lemma bind_Ok {A B} (c : M A) (k : A → M B) s s1 a :
  c s = (s1, Ok a) → bind c k s = k a s1.
Proof. intros H. unfold bind. by rewrite H. Qed.

Lemma bind_Raise {A B} (c : M A) (k : A → M B) s s1 e :
  c s = (s1, Raise e) → bind c k s = (s1, Raise e).
Proof. intros H. unfold bind. by rewrite H. Qed.

Lemma bind_Ok_inv {A B} (c : M A) (k : A → M B) s s' b :
  bind c k s = (s', Ok b) → ∃ s1 a, c s = (s1, Ok a) ∧ k a s1 = (s', Ok b).
Proof. unfold bind. destruct (c s) as [s1 [a|e]]; [eauto | done]. Qed.

Lemma get_node_Ok s r n : nodes s !! r = Some n → get_node r s = (s, Ok n).
Proof. intros H. unfold get_node. by rewrite H. Qed.

Lemma get_node_Ok_inv s s' r n :
  get_node r s = (s', Ok n) → s' = s ∧ nodes s !! r = Some n.
Proof. unfold get_node. destruct (nodes s !! r); intros; by simplify_eq. Qed.

Lemma get_list_Ok s l xs : lists s !! l = Some xs → get_list l s = (s, Ok xs).
Proof. intros H. unfold get_list. by rewrite H. Qed.

Lemma get_list_Ok_inv s s' l xs :
  get_list l s = (s', Ok xs) → s' = s ∧ lists s !! l = Some xs.
Proof. unfold get_list. destruct (lists s !! l); intros; by simplify_eq. Qed.

Lemma get_managed_Ok s key m : managed s !! key = Some m → get_managed key s = (s, Ok m).
Proof. intros H. unfold get_managed. by rewrite H. Qed.

Lemma get_managed_Ok_inv s s' key m :
  get_managed key s = (s', Ok m) → s' = s ∧ managed s !! key = Some m.
Proof. unfold get_managed. destruct (managed s !! key); intros; by simplify_eq. Qed.

Lemma update_managed_Ok s key f m :
  managed s !! key = Some m →
  update_managed key f s = (set_managed (λ ms, <[key := f m]> ms) s, Ok tt).
Proof. intros H. unfold update_managed. by rewrite H. Qed.

Lemma bind_ext_r {A B} (c : M A) (k k' : A → M B) s :
  (∀ a s', k a s' = k' a s') → bind c k s = bind c k' s.
Proof. intros H. unfold bind. destruct (c s) as [s' [a|e]]; auto. Qed.

Lemma bind_ext_l {A B} (c c' : M A) (k : A → M B) s :
  c s = c' s → bind c k s = bind c' k s.
Proof. intros H. unfold bind. by rewrite H. Qed.

Lemma bind_ext_l' {A B} (c c' : M A) (k k' : A → M B) s :
  c s = c' s → (∀ a s', k a s' = k' a s') → bind c k s = bind c' k' s.
Proof. intros H Hk. unfold bind. rewrite H. destruct (c' s) as [s' [a|e]]; auto. Qed.

Lemma map_M_ext {A B} (f g : A → M B) l s :
  (∀ x s', f x s' = g x s') → map_M f l s = map_M g l s.
Proof.
  intros H. revert s. induction l as [|x l IH]; intros s; simpl; [done|].
  apply bind_ext_l' with (c' := g x); [apply H|]. intros y s1.
  apply bind_ext_l. apply IH.
Qed.

(** A read-only comprehension that succeeds in one state succeeds with
    the same items in another state in which every item does. *)
Lemma map_M_extends {A B} (f : A → M B) l s s' ys :
  (∀ x y, f x s = (s, Ok y) → f x s' = (s', Ok y)) →
  (∀ x, readonly (f x)) →
  map_M f l s = (s, Ok ys) → map_M f l s' = (s', Ok ys).
Proof.
  intros H Hro. revert ys. induction l as [|x l IH]; intros ys; simpl.
  - unfold ret. intros; by simplify_eq.
  - unfold bind. pose proof (Hro x s) as Hx.
    destruct (f x s) as [s1 [y|e]] eqn:E; simpl in Hx; subst s1; [|done].
    rewrite (H _ _ E).
    pose proof (readonly_map_M f l Hro s) as Hl.
    destruct (map_M f l s) as [s1 [zs|e]] eqn:E'; simpl in Hl; subst s1; [|done].
    rewrite (IH _ eq_refl). unfold ret. intros; by simplify_eq.
Qed.

Lemma readonly_extending {A} (c : M A) : readonly c → extending c.
Proof. intros H s. rewrite H. apply extends_refl. Qed.

Ltac readonly_step :=
  match goal with
  | |- readonly (ret _) => apply readonly_ret
  | |- readonly (raise _) => apply readonly_raise
  | |- readonly (get_node _) => apply readonly_get_node
  | |- readonly (get_list _) => apply readonly_get_list
  | |- readonly (get_managed _) => apply readonly_get_managed
  | |- readonly (bind _ _) => apply readonly_bind; [|intros ?; cbv beta]
  | |- readonly (if ?b then _ else _) => destruct b eqn:?
  | |- readonly (match ?x with _ => _ end) => destruct x eqn:?
  end.

Section Rendering.

Context (env : Collaborators) (spec : Specification).

Lemma _render_node_readonly fuel node out pep484 rr module defined :
  readonly (_render_node env spec fuel node out pep484 rr module defined).
Proof.
  revert node. induction fuel as [|fuel IH]; intros node; simpl.
  - apply readonly_raise.
  - repeat first [by apply readonly_map_M | readonly_step].
Qed.

(** The direction is handed down the tree and never read. *)
Lemma _render_node_direction fuel node out out' pep484 rr module defined s :
  _render_node env spec fuel node out pep484 rr module defined s
  = _render_node env spec fuel node out' pep484 rr module defined s.
Proof.
  revert node s. induction fuel as [|fuel IH]; intros node s; simpl; [done|].
  apply bind_ext_r; intros n s1. destruct (type n); try done.
  apply bind_ext_r; intros str s2. destruct (children n); [|done].
  apply bind_ext_r; intros cs s3. apply bind_ext_l. by apply map_M_ext.
Qed.

(** A node that renders in a state renders to the same string in every
    state that extends it. *)
Lemma _render_node_extends fuel node out pep484 rr module defined s s' str :
  extends s s' →
  _render_node env spec fuel node out pep484 rr module defined s = (s, Ok str) →
  _render_node env spec fuel node out pep484 rr module defined s' = (s', Ok str).
Proof.
  intros Hext. revert node str. induction fuel as [|fuel IH]; intros node str; simpl; [done|].
  intros H. apply bind_Ok_inv in H as (s1 & n & Hget & H).
  apply get_node_Ok_inv in Hget as [-> Hn].
  destruct (extends_node _ _ _ _ Hext Hn) as (n' & Hn' & Hshape).
  rewrite (bind_Ok _ _ _ _ _ (get_node_Ok _ _ _ Hn')).
  injection Hshape as Hty Hch Hdef. rewrite Hty, Hch, Hdef.
  destruct (type n).
  - apply bind_Ok_inv in H as (s1 & str0 & Hstr & H).
    assert (s1 = s ∧ ∀ s2, match definition n with
                     | Some (DefStr d) => ret (if pep484 then "typing." +:+ d else d)
                     | Some _ => raise TypeError
                     | None => ret ""
                     end s2 = (s2, Ok str0)) as [-> Hstr'].
    { destruct (definition n) as [[]|]; unfold ret, raise in *; by simplify_eq. }
    rewrite (bind_Ok _ _ _ _ _ (Hstr' s')).
    destruct (children n) as [cl|]; [|unfold ret in *; by simplify_eq].
    apply bind_Ok_inv in H as (s1 & cs & Hcs & H).
    apply get_list_Ok_inv in Hcs as [-> Hcs].
    rewrite (bind_Ok _ _ _ _ _ (get_list_Ok _ _ _ (ext_lists _ _ Hext _ _ Hcs))).
    apply bind_Ok_inv in H as (s1 & rendered & Hmap & H).
    assert (s1 = s) as ->.
    { pose proof (readonly_map_M _ cs
        (λ c, _render_node_readonly fuel c out pep484 rr module defined) s) as Hro.
      by rewrite Hmap in Hro. }
    erewrite bind_Ok; [unfold ret in *; by simplify_eq|].
    eapply map_M_extends; [| |exact Hmap].
    + intros x y. apply IH.
    + intros x. apply _render_node_readonly.
  - destruct (definition n) as [[]|]; unfold ret, raise in *; by simplify_eq.
  - destruct (definition n) as [[]|]; unfold ret, raise in *; by simplify_eq.
  - destruct (definition n) as [[]|]; unfold ret, raise in *; by simplify_eq.
Qed.

End Rendering.

(** ** Every call extends the state *)

Section Calls.

Context (env : Collaborators) (spec : Specification).

Lemma _parse_extending fuel key out : extending (_parse env spec fuel key out).
Proof.
  apply keeps_to_extending. intros s0. apply keeps_parse_with.
  intros. apply _parse_node_extending.
Qed.

Lemma _render_extending fuel key out pep484 rr module defined :
  extending (_render env spec fuel key out pep484 rr module defined).
Proof.
  apply keeps_to_extending. intros s0. unfold _render.
  keeps_step; [apply keeps_extending, _parse_extending|].
  keeps_step. keeps_step; [|keeps_step].
  apply keeps_extending, readonly_extending, _render_node_readonly.
Qed.

Lemma get_type_hint_extending text : extending (get_type_hint text).
Proof.
  intros s. unfold get_type_hint.
  destruct (managed s !! text) as [m|] eqn:E; simpl; [apply extends_refl|].
  split; simpl; auto.
  intros key m Hm. exists m. split; [|apply managed_le_refl].
  rewrite lookup_insert_ne; [done | congruence].
Qed.

Lemma manager_rest_ref_extending fuel th out :
  extending (manager_rest_ref env spec fuel th out).
Proof.
  apply keeps_to_extending. intros s0. unfold manager_rest_ref.
  keeps_step. keeps_step; [keeps_step|].
  keeps_step; [apply keeps_extending, _render_extending|].
  keeps_step; [|keeps_step].
  apply keeps_update_managed. intros m0 m1 H0 (L1 & L2 & L3).
  destruct (H _ H0) as (_ & Hr & _).
  repeat split; simpl; auto.
  - intros r Hr0. specialize (Hr _ Hr0). congruence.
  - by destruct (L3 H1).
  - by destruct (L3 H1).
Qed.

Lemma run_call_extends c s : extends s (run_call env spec c s).
Proof.
  destruct c; simpl.
  - apply get_type_hint_extending.
  - apply manager_rest_ref_extending.
  - apply _render_extending.
Qed.

Lemma run_calls_extends cs s : extends s (run_calls env spec cs s).
Proof.
  revert s. induction cs as [|c cs IH]; intros s; simpl; [apply extends_refl|].
  eapply extends_trans; [apply run_call_extends | apply IH].
Qed.

(** [_parse] does nothing for a hint whose marker is no longer
    [REQUIRED]: [_parse_node] is not called. *)
Lemma _parse_not_required fuel key out s m :
  managed s !! key = Some m → parse_state m ≠ REQUIRED →
  _parse env spec fuel key out s = (s, Ok tt).
Proof.
  intros Hm Hp. unfold _parse, parse_with.
  rewrite (bind_Ok _ _ _ _ _ (get_managed_Ok _ _ _ Hm)).
  by rewrite bool_decide_eq_false_2.
Qed.

(** Whatever its outcome, [_parse] leaves the marker of a managed hint
    set. *)
Lemma _parse_marks fuel key out s m :
  managed s !! key = Some m →
  ∃ m', managed (_parse env spec fuel key out s).1 !! key = Some m'
        ∧ parse_state m' ≠ REQUIRED.
Proof.
  intros Hm. unfold _parse, parse_with.
  rewrite (bind_Ok _ _ _ _ _ (get_managed_Ok _ _ _ Hm)).
  case_bool_decide as Hreq; [|by exists m].
  rewrite (bind_Ok _ _ _ _ _ (update_managed_Ok _ _ _ _ Hm)).
  set (s1 := set_managed _ s).
  assert (managed s1 !! key = Some (with_parse_state PARSING m)) as H1
    by (simpl; apply lookup_insert_eq).
  pose proof (_parse_node_extending env spec fuel out (text (type_hint m)) 0 None s1) as Hext.
  destruct (ext_managed _ _ Hext _ _ H1) as (m2 & H2 & _ & _ & L).
  destruct L as [L _]; [done|]. simpl in L.
  unfold bind at 1.
  destruct (_parse_node env spec fuel out (text (type_hint m)) 0 None s1) as [s2 [r|e]];
    simpl in H2 |- *.
  - rewrite (bind_Ok _ _ _ _ _ (update_managed_Ok _ _ _ _ H2)).
    unfold update_managed; simpl. rewrite lookup_insert_eq; simpl.
    rewrite lookup_insert_eq. by eexists.
  - exists m2. split; [done | congruence].
Qed.

Lemma _render_state fuel key out pep484 rr module defined s :
  (_render env spec fuel key out pep484 rr module defined s).1
  = (_parse env spec fuel key out s).1.
Proof.
  unfold _render, bind at 1.
  destruct (_parse env spec fuel key out s) as [s1 [[]|e]]; [|done]. simpl.
  assert (readonly (let* m := get_managed key in
     match root m with
     | Some r => _render_node env spec fuel r out pep484 rr module defined
     | None => ret (_maybe_any_object (text (type_hint m)) pep484)
     end)) as Hro.
  { readonly_step; [readonly_step|]. readonly_step; [|readonly_step].
    apply _render_node_readonly. }
  apply Hro.
Qed.

(** A render of a hint whose marker is set walks the stored tree, or falls
    back to the text of the hint when there is none; it leaves the state as
    it is and does not read the direction. *)
Lemma _render_parsed fuel key out pep484 rr module defined s m :
  managed s !! key = Some m → parse_state m ≠ REQUIRED →
  _render env spec fuel key out pep484 rr module defined s
  = match root m with
    | Some r => _render_node env spec fuel r out pep484 rr module defined s
    | None => (s, Ok (_maybe_any_object (text (type_hint m)) pep484))
    end.
Proof.
  intros Hm Hp. unfold _render.
  rewrite (bind_Ok _ _ _ _ _ (_parse_not_required fuel key out s m Hm Hp)).
  rewrite (bind_Ok _ _ _ _ _ (get_managed_Ok _ _ _ Hm)).
  by destruct (root m).
Qed.

End Calls.

(** ** The registry (C5) and the reuse of the tree (C10) *)

Section Registry.

Context (env : Collaborators) (spec : Specification).

(** C5. A hint text requested twice from one manager, with any calls in
    between, gets the identical [TypeHint] object; a render of the hint
    leaves its parse marker set whatever the outcome; and once the marker
    is set it stays as it is, with the same root, through all later calls,
    and [_parse] returns at once without calling [_parse_node] again. *)
Theorem get_type_hint_unique_and_parsed_once (txt : string) (s : State)
    (calls : list (Call env)) :
  let first := get_type_hint txt s in
  let s2 := run_calls env spec calls first.1 in
  get_type_hint txt s2 = (s2, first.2)
  ∧ (∀ fuel out pep484 rr module defined,
       ∃ m, managed (_render env spec fuel txt out pep484 rr module defined s2).1 !! txt
            = Some m
            ∧ parse_state m ≠ REQUIRED)
  ∧ (∀ m, managed s2 !! txt = Some m → parse_state m ≠ REQUIRED →
       ∀ calls',
         let s3 := run_calls env spec calls' s2 in
         (∃ m', managed s3 !! txt = Some m'
                ∧ parse_state m' = parse_state m ∧ root m' = root m)
         ∧ ∀ fuel out, _parse env spec fuel txt out s3 = (s3, Ok tt)).
Proof.
  intros first s2.
  assert (∃ m1, managed first.1 !! txt = Some m1 ∧ first.2 = Ok (type_hint m1))
    as (m1 & Hm1 & Hfirst).
  { subst first. unfold get_type_hint.
    destruct (managed s !! txt) as [m|] eqn:E; simpl.
    - by exists m.
    - eexists. split; [apply lookup_insert_eq | done]. }
  pose proof (run_calls_extends env spec calls first.1) as Hext. fold s2 in Hext.
  destruct (ext_managed _ _ Hext _ _ Hm1) as (m2 & Hm2 & Hty & _).
  split; [|split].
  - unfold get_type_hint. rewrite Hm2, Hfirst. by rewrite Hty.
  - intros. rewrite _render_state. by eapply _parse_marks.
  - intros m Hm Hp calls' s3.
    pose proof (run_calls_extends env spec calls' s2) as Hext'. fold s3 in Hext'.
    destruct (ext_managed _ _ Hext' _ _ Hm) as (m3 & Hm3 & _ & _ & L).
    destruct (L Hp) as [L1 L2]. split; [by exists m3|].
    intros. eapply _parse_not_required; [done | congruence].
Qed.

End Registry.

Lemma get_type_hint_unique_and_parsed_once_witness :
  get_type_hint "List[int]" sample_state
    = (sample_state, Ok (mkTypeHint 0 "List[int]"))
  ∧ _parse sample_env empty_spec 5 "List[int]" false
      (run_calls sample_env empty_spec
         [Call_render 5 "List[int]" false false true None None] sample_state)
    = (run_calls sample_env empty_spec
         [Call_render 5 "List[int]" false false true None None] sample_state, Ok tt).
Proof.
  pose proof (get_type_hint_unique_and_parsed_once sample_env empty_spec "List[int]"
    new_manager [Call_render 5 "List[int]" true true false None None]) as (H1 & _ & H3).
  split; [exact H1|].
  refine (proj2 (H3 (mkManagedTypeHint (mkTypeHint 0 "List[int]") PARSED None (Some 1)) _ _
    [Call_render 5 "List[int]" false false true None None]) 5 false).
  - vm_compute. reflexivity.
  - simpl. discriminate.
Defined.

Section Reuse.

Context (env : Collaborators) (spec : Specification).

(** After [rest_ref] has returned a string, the string is cached. *)
Lemma manager_rest_ref_caches fuel th out s s' r :
  manager_rest_ref env spec fuel th out s = (s', Ok r) →
  ∃ m', managed s' !! text th = Some m' ∧ rest_ref m' = Some r.
Proof.
  unfold manager_rest_ref. intros H.
  apply bind_Ok_inv in H as (s1 & m & Hget & H).
  apply get_managed_Ok_inv in Hget as [-> Hm].
  destruct (rest_ref m) as [r0|] eqn:Hr.
  - unfold ret in H. simplify_eq. by exists m.
  - apply bind_Ok_inv in H as (s1 & str & Hrender & H).
    apply bind_Ok_inv in H as (s2 & [] & Hupd & H).
    unfold ret in H. simplify_eq.
    unfold update_managed in Hupd.
    destruct (managed s1 !! text th) as [m1|]; [|done]. simplify_eq. simpl.
    rewrite lookup_insert_eq. by eexists.
Qed.

(** A cached string is returned as it is, whatever the direction. *)
Lemma manager_rest_ref_cached fuel th out s m r :
  managed s !! text th = Some m → rest_ref m = Some r →
  manager_rest_ref env spec fuel th out s = (s, Ok r).
Proof.
  intros Hm Hr. unfold manager_rest_ref.
  rewrite (bind_Ok _ _ _ _ _ (get_managed_Ok _ _ _ Hm)). by rewrite Hr.
Qed.

(** C10. The tree of a hint is built by the first render that parses it;
    every later render, in any mode and with either direction, finds the
    marker set and the same root, leaves the state as it is, does not
    depend on its direction, and gives the string that a render gave right
    after the first one; and a cross-reference that [rest_ref] has returned
    is returned again by every later call, whatever its direction. *)
Theorem later_direction_is_irrelevant (key : string) (s : State) (m : ManagedTypeHint)
    (fuel0 : nat) (out0 pep0 rr0 : bool) (module0 : option (module_t env))
    (defined0 : option (defined_t env)) (calls : list (Call env)) :
  managed s !! key = Some m →
  let s1 := (_render env spec fuel0 key out0 pep0 rr0 module0 defined0 s).1 in
  let s2 := run_calls env spec calls s1 in
  (∃ m1 m2,
     managed s1 !! key = Some m1 ∧ parse_state m1 ≠ REQUIRED
     ∧ managed s2 !! key = Some m2
     ∧ parse_state m2 = parse_state m1 ∧ root m2 = root m1)
  ∧ (∀ fuel out out' pep484 rr module defined,
       _render env spec fuel key out pep484 rr module defined s2
       = _render env spec fuel key out' pep484 rr module defined s2
       ∧ (_render env spec fuel key out pep484 rr module defined s2).1 = s2)
  ∧ (∀ fuel out out' pep484 rr module defined str,
       (_render env spec fuel key out pep484 rr module defined s1).2 = Ok str →
       _render env spec fuel key out' pep484 rr module defined s2 = (s2, Ok str))
  ∧ (∀ fuel th out sa sb r calls' fuel' out',
       manager_rest_ref env spec fuel th out sa = (sb, Ok r) →
       let sc := run_calls env spec calls' sb in
       manager_rest_ref env spec fuel' th out' sc = (sc, Ok r)).
Proof.
  intros Hm s1 s2.
  destruct (_parse_marks env spec fuel0 key out0 s m Hm) as (m1 & Hm1 & Hp1).
  rewrite <- (_render_state env spec fuel0 key out0 pep0 rr0 module0 defined0) in Hm1.
  fold s1 in Hm1.
  pose proof (run_calls_extends env spec calls s1) as Hext. fold s2 in Hext.
  destruct (ext_managed _ _ Hext _ _ Hm1) as (m2 & Hm2 & Hty & _ & L).
  destruct (L Hp1) as [Lp Lr].
  assert (parse_state m2 ≠ REQUIRED) as Hp2 by congruence.
  split; [|split; [|split]].
  - by exists m1, m2.
  - intros. rewrite !(_render_parsed env spec fuel key _ pep484 rr module defined s2 m2 Hm2 Hp2).
    destruct (root m2) as [r|]; [|done]. split.
    + apply _render_node_direction.
    + apply _render_node_readonly.
  - intros fuel out out' pep484 rr module defined str.
    rewrite (_render_parsed env spec fuel key _ pep484 rr module defined s1 m1 Hm1 Hp1).
    rewrite (_render_parsed env spec fuel key _ pep484 rr module defined s2 m2 Hm2 Hp2).
    rewrite Lr, Hty. destruct (root m1) as [r|]; simpl.
    + intros H. rewrite (_render_node_direction env spec fuel r out' out).
      apply _render_node_extends with (s := s1); [done|].
      pose proof (_render_node_readonly env spec fuel r out pep484 rr module defined s1) as Hro.
      destruct (_render_node env spec fuel r out pep484 rr module defined s1) as [sx ox].
      simpl in *. by subst.
    + intros H. by simplify_eq.
  - intros fuel th out sa sb r calls' fuel' out' H sc.
    destruct (manager_rest_ref_caches _ _ _ _ _ _ H) as (mb & Hmb & Hrb).
    pose proof (run_calls_extends env spec calls' sb) as Hext'. fold sc in Hext'.
    destruct (ext_managed _ _ Hext' _ _ Hmb) as (mc & Hmc & _ & Lc & _).
    eapply manager_rest_ref_cached; [done | auto].
Qed.

End Reuse.

(** ** Copies of override hints (C9) and self-reference (C4) *)

Section Substitution.

Context (env : Collaborators) (spec : Specification).

Lemma lookup_parts_class rec len part_i parts out scope_klass klass s :
  class_path spec parts scope_klass = Some klass →
  part_i + length parts = len →
  lookup_parts spec rec len part_i parts out scope_klass None s
  = (let* r := substitute_with rec (class_type_hints klass) out in
     match r with
     | Returned c => ret (Returned c)
     | Left => let* n := new_node (class_node klass) in ret (Returned (Some n))
     end) s.
Proof.
  revert part_i scope_klass. induction parts as [|part parts IH]; intros part_i sk; [done|].
  intros Hpath Hlen. cbn [class_path lookup_parts] in *.
  replace (ScopeMappedType ∘ mapped_type_id <$> (None : option MappedType))
    with (None : option Scope) by done.
  destruct (_lookup_enum spec part _); [done|].
  destruct (match sk with None => _ | Some _ => None end); [done|].
  destruct (_lookup_class spec part sk) as [k|]; [|done].
  destruct parts as [|part' parts].
  - simplify_eq. rewrite (proj2 (Nat.eqb_eq _ _)); [done | simpl; lia].
  - rewrite (proj2 (Nat.eqb_neq _ _)); [|simpl in Hlen; lia].
    apply IH; [done | simpl in *; lia].
Qed.

Lemma substring_none n s : String.substring n 0 s = "".
Proof. revert n. induction s as [|c s IH]; intros [|n]; simpl; auto. Qed.

Lemma substring_all s : String.substring 0 (String.length s) s = s.
Proof. induction s as [|c s IH]; simpl; [done | by rewrite IH]. Qed.

(** [_parse_node] hands a bare name on to [_lookup_type]. *)
Lemma parse_node_body_bare_name rec out name s :
  bare_name name →
  parse_node_body env spec rec out name 0 None s = lookup_type_with env spec rec name out s.
Proof.
  intros (Hne & Hfind & Hlead & Htrail & Htyping).
  assert (0 < Py.len name) as Hlen by (destruct name; [done | simpl; lia]).
  unfold parse_node_body.
  assert (_strip_leading name 0 (Py.len name) = 0) as ->.
  { unfold _strip_leading. destruct (Py.len name - 0) eqn:E; [done|].
    simpl. by rewrite Hlead, andb_false_r. }
  assert (_strip_trailing name 0 (Py.len name) = Py.len name) as ->.
  { unfold _strip_trailing. destruct (Py.len name - 0) eqn:E; [done|].
    simpl. by rewrite Htrail, andb_false_r. }
  assert (Py.slice name 0 (Py.len name) = name) as Hslice.
  { unfold Py.slice, Py.len. rewrite Nat.sub_0_r. apply substring_all. }
  rewrite Hslice, Hfind. unfold make_node.
  rewrite (bool_decide_eq_true_2 (0 ≠ Py.len name)) by lia.
  rewrite Hslice. by rewrite (bool_decide_eq_false_2 (name ∈ _TYPING_MODULE)).
Qed.

(** The guard: while the override hint of a class is being parsed, a
    reference to the class is a plain class node, and no hint is parsed
    for it. *)
Lemma lookup_type_mid_parse rec name out s klass th m :
  class_path spec (ScopedName_parse env (Py.replace_dot name)) None = Some klass →
  override_hint (class_type_hints klass) out = Some th →
  managed s !! text th = Some m → parse_state m = PARSING →
  lookup_type_with env spec rec name out s
  = (set_nodes (λ ns, ns ++ [class_node klass]) s, Ok (Some (length (nodes s)))).
Proof.
  intros Hpath Hov Hm Hp. unfold lookup_type_with.
  assert (lookup_parts spec rec (length (ScopedName_parse env (Py.replace_dot name))) 0
            (ScopedName_parse env (Py.replace_dot name)) out None None s
          = (set_nodes (λ ns, ns ++ [class_node klass]) s,
             Ok (Returned (Some (length (nodes s)))))) as Hparts.
  { erewrite lookup_parts_class; [|done|done].
    unfold substitute_with. rewrite Hov.
    rewrite (bind_Ok _ _ s s Left); [done|].
    rewrite (bind_Ok _ _ _ _ _ (get_managed_Ok _ _ _ Hm)).
    rewrite bool_decide_eq_false_2; [done|]. intros H; by apply H. }
  by rewrite (bind_Ok _ _ _ _ _ Hparts).
Qed.

(** C9, as the code has it. The node that [_copy_type_hint] returns is a
    new node: it is not a node of the state before the call and it is not
    the root of the override hint.  It has the type and the definition of
    that root and no sibling link, and its children are the very list of
    the root: the copy is one node deep, and the list of children and all
    the nodes below are shared with the tree of the override hint. *)
Theorem copy_type_hint_is_shallow (fuel : nat) (th : TypeHint) (out : bool)
    (s s' : State) (c : node_ref) :
  _copy_type_hint env spec fuel th out s = (s', Ok (Some c)) →
  ∃ m r n,
    managed s' !! text th = Some m ∧ root m = Some r
    ∧ nodes s' !! r = Some n
    ∧ nodes s !! c = None ∧ c ≠ r
    ∧ nodes s' !! c = Some (mkTypeHintNode (type n) (children n) (definition n) None).
Proof.
  unfold _copy_type_hint, copy_type_hint_with. intros H.
  apply bind_Ok_inv in H as (s0 & m0 & Hget & H).
  apply get_managed_Ok_inv in Hget as [-> Hm0].
  apply bind_Ok_inv in H as (s1 & [] & Hparse & H).
  apply bind_Ok_inv in H as (s2 & m & Hget & H).
  apply get_managed_Ok_inv in Hget as [-> Hm].
  destruct (root m) as [r|] eqn:Hr; [|unfold ret in H; by simplify_eq].
  apply bind_Ok_inv in H as (s2 & n & Hget & H).
  apply get_node_Ok_inv in Hget as [-> Hn].
  unfold bind, new_node, ret in H. simplify_eq.
  pose proof (_parse_extending env spec fuel (text th) out s) as Hext.
  fold (_parse env spec fuel) in Hparse. rewrite Hparse in Hext. simpl in Hext.
  apply extends_nodes_length in Hext.
  pose proof (lookup_lt_Some _ _ _ Hn) as Hlt.
  exists m, r, n. simpl. repeat split; try done.
  - by apply lookup_app_l_Some.
  - apply lookup_ge_None. lia.
  - lia.
  - by apply list_lookup_middle.
Qed.

(** C4. A class whose override hint for the direction is the name of the
    class itself.  While that hint is being parsed, the name resolves to a
    plain class node without any further parse; and from a manager in
    which the hint has not been parsed yet, resolving the name ends, for
    every fuel from 1 on, with a plain class node for the class, the hint
    parsed and its root a plain class node as well. *)
Theorem self_reference_resolves_to_class (name : string) (out : bool)
    (klass : WrappedClass) (th : TypeHint) (s : State) (m : ManagedTypeHint) :
  bare_name name →
  class_path spec (ScopedName_parse env (Py.replace_dot name)) None = Some klass →
  override_hint (class_type_hints klass) out = Some th →
  text th = name →
  managed s !! name = Some m →
  text (type_hint m) = name →
  (parse_state m = PARSING →
     ∀ fuel, _lookup_type env spec fuel name out s
             = (set_nodes (λ ns, ns ++ [class_node klass]) s, Ok (Some (length (nodes s)))))
  ∧ (parse_state m = REQUIRED →
     ∀ fuel, ∃ s' c r m',
       _lookup_type env spec (S fuel) name out s = (s', Ok (Some c))
       ∧ nodes s' !! c = Some (class_node klass)
       ∧ managed s' !! name = Some m'
       ∧ parse_state m' = PARSED ∧ root m' = Some r
       ∧ nodes s' !! r = Some (class_node klass)).
Proof.
  intros Hbare Hpath Hov Hth Hm Htxt. split.
  - intros Hp fuel. eapply lookup_type_mid_parse; [done | done | by rewrite Hth | done].
  - intros Hp fuel.
    set (s1 := set_managed (λ ms, <[name := with_parse_state PARSING m]> ms) s).
    set (r := length (nodes s)).
    set (s2 := set_nodes (λ ns, ns ++ [class_node klass]) s1).
    set (m3 := with_parse_state PARSED (with_root (Some r) (with_parse_state PARSING m))).
    set (s3 := set_managed (λ ms, <[name := m3]> (<[name := with_root (Some r)
                 (with_parse_state PARSING m)]> ms)) s2).
    assert (parse_with (_parse_node env spec (S fuel)) name out s = (s3, Ok tt)) as Hparse.
    { unfold parse_with.
      rewrite (bind_Ok _ _ _ _ _ (get_managed_Ok _ _ _ Hm)).
      rewrite bool_decide_eq_true_2 by done.
      rewrite (bind_Ok _ _ _ _ _ (update_managed_Ok _ _ _ _ Hm)). fold s1.
      rewrite (bind_Ok _ _ s1 s2 (Some r)).
      2:{ rewrite Htxt. cbn [_parse_node]. rewrite parse_node_body_bare_name by done.
          eapply lookup_type_mid_parse with (m := with_parse_state PARSING m);
            [done | done | | done].
          rewrite Hth. simpl. apply lookup_insert_eq. }
      rewrite (bind_Ok _ _ _ _ _ (update_managed_Ok s2 name _ (with_parse_state PARSING m)
                 (lookup_insert_eq _ _ _))).
      erewrite update_managed_Ok; [|simpl; apply lookup_insert_eq].
      done. }
    exists (set_nodes (λ ns, ns ++ [class_node klass]) s3), (S r), r, m3.
    assert (managed s3 !! name = Some m3) as Hm3 by (simpl; apply lookup_insert_eq).
    assert (nodes s3 !! r = Some (class_node klass)) as Hr
      by (simpl; by apply list_lookup_middle).
    split; [|repeat split; simpl; try done].
    + unfold _lookup_type, lookup_type_with.
      assert (copy_type_hint_with (_parse_node env spec (S fuel)) th out s
              = (set_nodes (λ ns, ns ++ [class_node klass]) s3, Ok (Some (S r)))) as Hcopy.
      { unfold copy_type_hint_with. rewrite Hth.
        rewrite (bind_Ok _ _ _ _ _ (get_managed_Ok _ _ _ Hm)).
        rewrite (bind_Ok _ _ _ _ _ Hparse).
        rewrite (bind_Ok _ _ _ _ _ (get_managed_Ok _ _ _ Hm3)).
        change (root m3) with (Some r). cbv iota beta.
        rewrite (bind_Ok _ _ _ _ _ (get_node_Ok _ _ _ Hr)).
        unfold bind, new_node, ret. simpl. do 3 f_equal.
        rewrite length_app. simpl. lia. }
      rewrite (bind_Ok _ _ s (set_nodes (λ ns, ns ++ [class_node klass]) s3)
                 (Returned (Some (S r)))); [done|].
      erewrite lookup_parts_class; [|done|done].
      unfold substitute_with. rewrite Hov, Hth.
      rewrite (bind_Ok _ _ s (set_nodes (λ ns, ns ++ [class_node klass]) s3)
                 (Returned (Some (S r)))); [done|].
      rewrite (bind_Ok _ _ _ _ _ (get_managed_Ok _ _ _ Hm)).
      rewrite bool_decide_eq_true_2 by congruence.
      by rewrite (bind_Ok _ _ _ _ _ Hcopy).
    + replace (S r) with (length (nodes s3)) by (simpl; rewrite length_app; simpl; lia).
      by apply list_lookup_middle.
    + apply lookup_app_l_Some. by apply list_lookup_middle.
Qed.

End Substitution.

(** ** Appending children and flattening unions *)

Lemma appended_to_nil l ys s : lists s !! l = Some ys → appended_to l ys [] s s.
Proof.
  intros H. repeat split; try done.
  rewrite app_nil_r. symmetry. by apply list_insert_id.
Qed.

Lemma appended_to_trans l ys xs zs s s1 s2 :
  appended_to l ys xs s s1 → appended_to l (ys ++ xs) zs s1 s2 →
  appended_to l ys (xs ++ zs) s s2.
Proof.
  intros (H1 & H2 & H3 & H4 & H5) (H1' & H2' & H3' & H4' & H5').
  repeat split; try congruence.
  rewrite H2', H2, list_insert_insert_eq. by rewrite app_assoc.
Qed.

Lemma appended_to_lookup l ys xs s s' :
  appended_to l ys xs s s' → lists s' !! l = Some (ys ++ xs).
Proof.
  intros (H1 & H2 & _). rewrite H2. apply list_lookup_insert_eq.
  by eapply lookup_lt_Some.
Qed.

Lemma appended_to_other l ys xs s s' l' :
  appended_to l ys xs s s' → l' ≠ l → lists s' !! l' = lists s !! l'.
Proof. intros (H1 & H2 & _) Hne. rewrite H2. by apply list_lookup_insert_ne. Qed.

Lemma shapes_length s s' : shapes s' = shapes s → length (nodes s') = length (nodes s).
Proof. unfold shapes. intros H. apply (f_equal length) in H. by rewrite !length_fmap in H. Qed.

Lemma shapes_lookup s s' r n :
  shapes s' = shapes s → nodes s !! r = Some n →
  ∃ n', nodes s' !! r = Some n' ∧ shape n' = shape n.
Proof.
  intros H Hn. assert (shapes s' !! r = Some (shape n)) as H'
    by (rewrite H; unfold shapes; by rewrite list_lookup_fmap, Hn).
  unfold shapes in H'. rewrite list_lookup_fmap in H'.
  destruct (nodes s' !! r) as [n'|]; simplify_eq/=. exists n'. split; [done|].
  unfold shape. congruence.
Qed.

Lemma is_union_shape n n' : shape n' = shape n → is_union n' = is_union n.
Proof. unfold shape, is_union. intros H. injection H as Hty _ Hdef. by rewrite Hty, Hdef. Qed.

Lemma appended_to_valid l ys xs s s' x :
  appended_to l ys xs s s' → valid_node s x → valid_node s' x.
Proof. intros (_ & _ & H & _) Hx. unfold valid_node. by rewrite (shapes_length _ _ H). Qed.

Lemma set_next_run s r nx :
  valid_node s r →
  ∃ s', set_next r nx s = (s', Ok tt)
        ∧ lists s' = lists s ∧ shapes s' = shapes s
        ∧ managed s' = managed s ∧ hint_count s' = hint_count s.
Proof.
  intros Hr. destruct (lookup_lt_is_Some_2 _ _ Hr) as [n Hn].
  unfold set_next. rewrite Hn. eexists. split; [done|]. simpl.
  repeat split; try done. unfold shapes at 1; simpl. by apply shapes_set_next.
Qed.

Lemma _append_child_run l x s ys :
  lists s !! l = Some ys → Forall (valid_node s) ys →
  ∃ s', _append_child l x s = (s', Ok tt) ∧ appended_to l ys [x] s s'.
Proof.
  intros Hl Hys. unfold _append_child.
  rewrite (bind_Ok _ _ _ _ _ (get_list_Ok _ _ _ Hl)).
  assert (∃ s1, (if 1 <? length ys
                 then match last ys with
                      | Some z => set_next z (Some x)
                      | None => raise InvalidRef
                      end
                 else ret tt) s = (s1, Ok tt)
                ∧ lists s1 = lists s ∧ shapes s1 = shapes s
                ∧ managed s1 = managed s ∧ hint_count s1 = hint_count s)
    as (s1 & Hrun & H1 & H2 & H3 & H4).
  { destruct (1 <? length ys) eqn:Hlen; [|by exists s].
    destruct (last ys) as [z|] eqn:Hlast.
    - apply set_next_run. rewrite Forall_forall in Hys. apply Hys.
      by eapply last_Some_elem_of.
    - apply last_None in Hlast. by subst. }
  rewrite (bind_Ok _ _ _ _ _ Hrun).
  unfold list_append. rewrite H1, Hl. eexists. split; [done|].
  repeat split; simpl; try done. by rewrite H1.
Qed.

Lemma append_children_run l xs s ys :
  lists s !! l = Some ys → Forall (valid_node s) ys → Forall (valid_node s) xs →
  ∃ s', append_children l xs s = (s', Ok tt) ∧ appended_to l ys xs s s'.
Proof.
  revert s ys. induction xs as [|x xs IH]; intros s ys Hl Hys Hxs; simpl.
  - exists s. split; [done | by apply appended_to_nil].
  - destruct (_append_child_run l x s ys Hl Hys) as (s1 & Hrun & Happ).
    rewrite (bind_Ok _ _ _ _ _ Hrun).
    apply Forall_cons in Hxs as [Hx Hxs].
    destruct (IH s1 (ys ++ [x])) as (s2 & Hrun2 & Happ2).
    + by eapply appended_to_lookup.
    + apply Forall_app. split.
      * eapply Forall_impl; [done|]. intros; by eapply appended_to_valid.
      * apply Forall_singleton. by eapply appended_to_valid.
    + eapply Forall_impl; [done|]. intros; by eapply appended_to_valid.
    + exists s2. split; [done|].
      change (x :: xs) with ([x] ++ xs). by eapply appended_to_trans.
Qed.

Lemma flattenable_appended l ys xs s s' c :
  appended_to l ys xs s s' → flattenable s l c →
  flattenable s' l c ∧ flat s' c = flat s c.
Proof.
  intros Happ (n & Hn & Hu).
  destruct Happ as (H1 & H2 & H3 & H4 & H5).
  destruct (shapes_lookup _ _ _ _ H3 Hn) as (n' & Hn' & Hshape).
  pose proof (is_union_shape _ _ Hshape) as Hiu.
  assert (children n' = children n) as Hch by (unfold shape in Hshape; by simplify_eq).
  split.
  - exists n'. split; [done|]. rewrite Hiu. intros Hun.
    destruct (Hu Hun) as (gl & gs & Hgl & Hne & Hgs & Hvalid).
    exists gl, gs. repeat split; try congruence.
    + rewrite H2. by rewrite list_lookup_insert_ne.
    + eapply Forall_impl; [done|]. intros x. unfold valid_node.
      by rewrite (shapes_length _ _ H3).
  - unfold flat. rewrite Hn, Hn', Hiu, Hch.
    destruct (is_union n) eqn:Hun; [|done].
    destruct (Hu eq_refl) as (gl & gs & Hgl & Hne & Hgs & Hvalid).
    rewrite Hgl. simpl. rewrite H2. by rewrite list_lookup_insert_ne.
Qed.

Lemma flat_valid s l c : flattenable s l c → Forall (valid_node s) (flat s c).
Proof.
  intros (n & Hn & Hu). unfold flat. rewrite Hn.
  destruct (is_union n) eqn:Hun.
  - destruct (Hu eq_refl) as (gl & gs & Hgl & Hne & Hgs & Hvalid).
    rewrite Hgl. simpl. by rewrite Hgs.
  - apply Forall_singleton. by eapply lookup_lt_Some.
Qed.

Lemma flatten_unions_run l cs s ys :
  lists s !! l = Some ys → Forall (valid_node s) ys → Forall (flattenable s l) cs →
  ∃ s', flatten_unions l cs s = (s', Ok tt)
        ∧ appended_to l ys (concat (flat s <$> cs)) s s'.
Proof.
  revert s ys. induction cs as [|c cs IH]; intros s ys Hl Hys Hcs; simpl.
  - exists s. split; [done | by apply appended_to_nil].
  - apply Forall_cons in Hcs as [Hc Hcs].
    pose proof (flat_valid _ _ _ Hc) as Hflat.
    destruct Hc as (n & Hn & Hu).
    rewrite (bind_Ok _ _ _ _ _ (get_node_Ok _ _ _ Hn)).
    assert (∃ s1, (if is_union n
                   then match children n with
                        | Some gl =>
                            let* grandchildren := get_list gl in
                            append_children l grandchildren
                        | None => raise TypeError
                        end
                   else _append_child l c) s = (s1, Ok tt)
                  ∧ appended_to l ys (flat s c) s s1) as (s1 & Hrun & Happ).
    { unfold flat in *. rewrite Hn in *. destruct (is_union n) eqn:Hun.
      - destruct (Hu eq_refl) as (gl & gs & Hgl & Hne & Hgs & Hvalid).
        rewrite Hgl in *. simpl in *. rewrite Hgs in *. simpl in *.
        rewrite (bind_Ok _ _ _ _ _ (get_list_Ok _ _ _ Hgs)).
        by apply append_children_run.
      - by apply _append_child_run. }
    rewrite (bind_Ok _ _ _ _ _ Hrun).
    destruct (IH s1 (ys ++ flat s c)) as (s2 & Hrun2 & Happ2).
    + by eapply appended_to_lookup.
    + apply Forall_app. split; (eapply Forall_impl; [done|]);
        intros; by eapply appended_to_valid.
    + eapply Forall_impl; [done|]. intros x Hx.
      by destruct (flattenable_appended _ _ _ _ _ _ Happ Hx).
    + exists s2. split; [done|].
      eapply appended_to_trans; [done|].
      assert (fmap (M := list) (flat s1) cs = fmap (flat s) cs) as Heq.
      { apply Forall_fmap_ext_1. eapply Forall_impl; [done|]. intros x Hx.
        by destruct (flattenable_appended _ _ _ _ _ _ Happ Hx). }
      rewrite Heq in Happ2. exact Happ2.
Qed.

Lemma grown_refl s : grown s s [] [].
Proof. repeat split; by rewrite ?app_nil_r. Qed.

Lemma lookup_app_plus {A} (l1 l2 : list A) i : (l1 ++ l2) !! (length l1 + i) = l2 !! i.
Proof. rewrite lookup_app_r by lia. f_equal. lia. Qed.

Lemma shapes_length_nodes s : length (shapes s) = length (nodes s).
Proof. unfold shapes. by rewrite length_fmap. Qed.

Lemma shapes_lookup_node s r x :
  shapes s !! r = Some x → ∃ n, nodes s !! r = Some n ∧ shape n = x.
Proof.
  unfold shapes. rewrite list_lookup_fmap.
  destruct (nodes s !! r) as [n|]; intros; simplify_eq/=. by exists n.
Qed.

Lemma grown_new_list s s1 sh ls :
  grown s s1 sh ls →
  ∃ s2, new_list s1 = (s2, Ok (length (lists s) + length ls))
        ∧ grown s s2 sh (ls ++ [[]]).
Proof.
  intros (H1 & H2 & H3 & H4). eexists. split.
  - unfold new_list. do 2 f_equal. by rewrite H2, length_app.
  - repeat split; simpl; try done. by rewrite H2, app_assoc.
Qed.

Lemma grown_new_node s s1 sh ls n :
  grown s s1 sh ls →
  ∃ s2, new_node n s1 = (s2, Ok (length (nodes s) + length sh))
        ∧ grown s s2 (sh ++ [shape n]) ls
        ∧ nodes s2 !! (length (nodes s) + length sh) = Some n.
Proof.
  intros (H1 & H2 & H3 & H4).
  assert (length (nodes s1) = length (nodes s) + length sh) as Hlen
    by (rewrite <- !shapes_length_nodes, H1, length_app; done).
  eexists. split; [|split].
  - unfold new_node. do 2 f_equal. done.
  - repeat split; simpl; try done.
    unfold shapes in *; simpl. by rewrite fmap_app, H1, app_assoc.
  - simpl. rewrite <- Hlen. by apply list_lookup_middle.
Qed.

Lemma grown_appended s s1 s2 sh ls i ys xs :
  grown s s1 sh ls → appended_to (length (lists s) + i) ys xs s1 s2 →
  grown s s2 sh (<[i := ys ++ xs]> ls).
Proof.
  intros (H1 & H2 & H3 & H4) (H1' & H2' & H3' & H4' & H5').
  repeat split; try congruence.
  rewrite H2', H2. apply insert_app_r.
Qed.

Lemma grown_valid s s1 sh ls x :
  grown s s1 sh ls → valid_node s1 x ↔ x < length (nodes s) + length sh.
Proof.
  intros (H1 & _). unfold valid_node.
  by rewrite <- !shapes_length_nodes, H1, length_app.
Qed.

Lemma grown_append_child s s1 sh ls i ys x :
  grown s s1 sh ls → ls !! i = Some ys →
  Forall (λ y, y < length (nodes s) + length sh) ys →
  ∃ s2, _append_child (length (lists s) + i) x s1 = (s2, Ok tt)
        ∧ grown s s2 sh (<[i := ys ++ [x]]> ls).
Proof.
  intros Hg Hi Hys.
  destruct (_append_child_run (length (lists s) + i) x s1 ys) as (s2 & Hrun & Happ).
  - destruct Hg as (_ & -> & _). by rewrite lookup_app_plus.
  - eapply Forall_impl; [done|]. intros y Hy. by apply (grown_valid _ _ _ _ _ Hg).
  - exists s2. split; [done | by eapply grown_appended].
Qed.

(** In a closed store that has grown, a node of the old store is
    flattened as before. *)
Lemma grown_flat_old s s1 sh ls l c :
  heap_closed s → grown s s1 sh ls → valid_node s c → length (lists s) ≤ l →
  flattenable s1 l c ∧ flat s1 c = flat s c.
Proof.
  intros (Hc1 & Hc2 & Hc3) Hg Hc Hl.
  destruct (lookup_lt_is_Some_2 _ _ Hc) as [n Hn].
  assert (shapes s1 !! c = Some (shape n)) as Hs1.
  { destruct Hg as (-> & _). apply lookup_app_l_Some.
    unfold shapes. by rewrite list_lookup_fmap, Hn. }
  apply shapes_lookup_node in Hs1 as (n1 & Hn1 & Hshape).
  pose proof (is_union_shape _ _ Hshape) as Hiu.
  assert (children n1 = children n) as Hch by (unfold shape in Hshape; by simplify_eq).
  assert (∀ gl, children n = Some gl →
            ∃ gs, lists s !! gl = Some gs ∧ lists s1 !! gl = Some gs ∧ gl ≠ l
                  ∧ Forall (valid_node s1) gs) as Hgl.
  { intros gl Hgl. pose proof (Hc1 _ _ _ Hn Hgl) as Hlt.
    destruct (lookup_lt_is_Some_2 _ _ Hlt) as [gs Hgs]. exists gs.
    repeat split; [done | | lia |].
    - destruct Hg as (_ & -> & _). by apply lookup_app_l_Some.
    - eapply Forall_impl; [by eapply Hc2|]. intros x Hx.
      apply (grown_valid _ _ _ _ _ Hg). unfold valid_node in Hx. lia. }
  split.
  - exists n1. split; [done|]. rewrite Hiu, Hch. intros Hun.
    destruct (children n) as [gl|] eqn:Hchn.
    + destruct (Hgl gl eq_refl) as (gs & _ & Hgs & Hne & Hv). by exists gl, gs.
    + destruct (Hc3 _ _ Hn Hun) as [x Hx]. congruence.
  - unfold flat. rewrite Hn, Hn1, Hiu, Hch.
    destruct (is_union n); [|done].
    destruct (children n) as [gl|]; [|done]. simpl.
    destruct (Hgl gl eq_refl) as (gs & -> & -> & _). done.
Qed.

Lemma grown_flatten s s1 sh ls i ys cs :
  grown s s1 sh ls → ls !! i = Some ys →
  Forall (λ y, y < length (nodes s) + length sh) ys →
  Forall (flattenable s1 (length (lists s) + i)) cs →
  ∃ s2, flatten_unions (length (lists s) + i) cs s1 = (s2, Ok tt)
        ∧ grown s s2 sh (<[i := ys ++ concat (flat s1 <$> cs)]> ls).
Proof.
  intros Hg Hi Hys Hcs.
  destruct (flatten_unions_run (length (lists s) + i) cs s1 ys) as (s2 & Hrun & Happ).
  - destruct Hg as (_ & -> & _). by rewrite lookup_app_plus.
  - eapply Forall_impl; [done|]. intros y Hy. by apply (grown_valid _ _ _ _ _ Hg).
  - done.
  - exists s2. split; [done | by eapply grown_appended].
Qed.

(** A union node allocated since [s], with its children [gs]. *)
Lemma grown_flat_new s s1 sh ls l j k gs :
  grown s s1 sh ls →
  sh !! j = Some (TYPING, Some (length (lists s) + k), Some (DefStr "Union")) →
  ls !! k = Some gs →
  Forall (λ y, y < length (nodes s) + length sh) gs →
  length (lists s) + k ≠ l →
  flattenable s1 l (length (nodes s) + j) ∧ flat s1 (length (nodes s) + j) = gs.
Proof.
  intros Hg Hj Hk Hgs Hne.
  assert (shapes s1 !! (length (nodes s) + j)
          = Some (TYPING, Some (length (lists s) + k), Some (DefStr "Union"))) as Hs1.
  { destruct Hg as (-> & _). by rewrite <- shapes_length_nodes, lookup_app_plus. }
  apply shapes_lookup_node in Hs1 as (n & Hn & Hshape).
  injection Hshape as Hty Hch Hdef.
  assert (is_union n = true) as Hun by (unfold is_union; by rewrite Hty, Hdef).
  assert (lists s1 !! (length (lists s) + k) = Some gs) as Hl
    by (destruct Hg as (_ & -> & _); by rewrite lookup_app_plus).
  split.
  - exists n. split; [done|]. intros _. exists (length (lists s) + k), gs.
    repeat split; try done.
    eapply Forall_impl; [done|]. intros y Hy. by apply (grown_valid _ _ _ _ _ Hg).
  - unfold flat. rewrite Hn, Hun, Hch. simpl. by rewrite Hl.
Qed.

Section Union.

Context (env : Collaborators) (spec : Specification).

(** The union branch of [make_node]. *)
Lemma make_node_union rec out text top_level name_start name_end ch s :
  Py.slice text name_start name_end = "Union" → 
  make_node env spec rec out text top_level name_start name_end (Some ch) s
  = (let* xs := get_list ch in
     if length xs =? 0 then ret None
     else
       let* flattened := new_list in
       flatten_unions flattened xs >>
       let* node := new_node
         (mkTypeHintNode TYPING (Some flattened) (Some (DefStr "Union")) None) in
       ret (Some node)) s.
Proof.
  intros Hname. unfold make_node. rewrite Hname.
  assert (name_start ≠ name_end) as Hne.
  { intros ->. unfold Py.slice in Hname. rewrite Nat.sub_diag in Hname.
    by rewrite substring_none in Hname. }
  by rewrite (bool_decide_eq_true_2 _ Hne).
Qed.

End Union.

Lemma bind_assoc {A B C} (c : M A) (k1 : A → M B) (k2 : B → M C) s :
  bind (bind c k1) k2 s = bind c (λ x, bind (k1 x) k2) s.
Proof. unfold bind. by destruct (c s) as [s' [a|e]]. Qed.

Lemma bind_ret_l {A B} (a : A) (k : A → M B) s : bind (ret a) k s = k a s.
Proof. done. Qed.

Lemma flattenable_new_list s l c :
  flattenable s l c →
  flattenable (set_lists (λ ls, ls ++ [[]]) s) l c
  ∧ flat (set_lists (λ ls, ls ++ [[]]) s) c = flat s c.
Proof.
  intros (n & Hn & Hu). split.
  - exists n. split; [done|]. intros Hun.
    destruct (Hu Hun) as (gl & gs & Hgl & Hne & Hgs & Hv).
    exists gl, gs. repeat split; try done. simpl. by apply lookup_app_l_Some.
  - unfold flat. simpl. rewrite Hn. destruct (is_union n) eqn:Hun; [|done].
    destruct (Hu eq_refl) as (gl & gs & Hgl & Hne & Hgs & Hv).
    rewrite Hgl. simpl. by rewrite Hgs, (lookup_app_l_Some _ _ _ _ Hgs).
Qed.

Lemma insert_last {A} (l : list A) x y : <[length l := y]> (l ++ [x]) = l ++ [y].
Proof. by rewrite <- (Nat.add_0_r (length l)), insert_app_r. Qed.

Lemma grown_union_of s s1 sh ls i xs :
  grown s s1 sh ls → ls !! i = Some xs → xs ≠ [] →
  Forall (flattenable s1 (length (lists s) + length ls)) xs →
  ∃ s2, union_of (length (lists s) + i) s1 = (s2, Ok (Some (length (nodes s) + length sh)))
        ∧ grown s s2
            (sh ++ [(TYPING, Some (length (lists s) + length ls), Some (DefStr "Union"))])
            (ls ++ [concat (flat s1 <$> xs)])
        ∧ nodes s2 !! (length (nodes s) + length sh)
          = Some (mkTypeHintNode TYPING (Some (length (lists s) + length ls))
                    (Some (DefStr "Union")) None).
Proof.
  intros Hg Hi Hne Hxs. unfold union_of.
  assert (lists s1 !! (length (lists s) + i) = Some xs) as Hl
    by (destruct Hg as (_ & -> & _); by rewrite lookup_app_plus).
  rewrite (bind_Ok _ _ _ _ _ (get_list_Ok _ _ _ Hl)).
  destruct xs as [|x xs']; [done|]. cbn [length Nat.eqb].
  destruct (grown_new_list _ _ _ _ Hg) as (s1' & R1 & Hg1).
  rewrite (bind_Ok _ _ _ _ _ R1).
  assert (s1' = set_lists (λ ls, ls ++ [[]]) s1) as Hs1'
    by (unfold new_list in R1; by simplify_eq).
  destruct (grown_flatten s s1' sh (ls ++ [[]]) (length ls) [] (x :: xs') Hg1)
    as (s2 & R2 & Hg2).
  { by apply list_lookup_middle. }
  { done. }
  { subst s1'. eapply Forall_impl; [done|]. intros y Hy.
    by destruct (flattenable_new_list _ _ _ Hy). }
  rewrite (bind_Ok _ _ _ _ _ R2).
  destruct (grown_new_node _ _ _ _
    (mkTypeHintNode TYPING (Some (length (lists s) + length ls)) (Some (DefStr "Union")) None)
    Hg2) as (s3 & R3 & Hg3 & Hn3).
  rewrite (bind_Ok _ _ _ _ _ R3). exists s3. split; [done|]. split; [|done].
  rewrite insert_last in Hg3. simpl in Hg3.
  assert (fmap (M := list) (flat s1') (x :: xs') = fmap (flat s1) (x :: xs')) as Heq.
  { apply Forall_fmap_ext_1. subst s1'. eapply Forall_impl; [done|]. intros y Hy.
    by destruct (flattenable_new_list _ _ _ Hy). }
  simpl in Heq. injection Heq as Heq1 Heq2. rewrite Heq1, Heq2 in Hg3. exact Hg3.
Qed.

Lemma flat_valid_closed s c :
  heap_closed s → valid_node s c → Forall (valid_node s) (flat s c).
Proof.
  intros Hc Hv.
  destruct (grown_flat_old s s [] [] (length (lists s)) c Hc (grown_refl s) Hv) as [Hf _];
    [lia|].
  by eapply flat_valid.
Qed.

Lemma mapM_ext_Forall {A B} (f g : A → option B) (P : A → Prop) l :
  (∀ x, P x → f x = g x) → Forall P l → mapM f l = mapM g l.
Proof.
  intros H Hl. induction Hl as [|x l Hx Hl IH]; simpl; [done|].
  by rewrite (H _ Hx), IH.
Qed.

(** The tree below a node of a closed store stays the same when the store
    grows. *)
Lemma tree_of_grown f s s' sh ls r :
  heap_closed s → grown s s' sh ls → valid_node s r → tree_of f s' r = tree_of f s r.
Proof.
  intros Hc Hg. revert r. induction f as [|f IH]; intros r Hr; simpl; [done|].
  destruct (lookup_lt_is_Some_2 _ _ Hr) as [n Hn].
  assert (shapes s' !! r = Some (shape n)) as Hs'.
  { destruct Hg as (-> & _). apply lookup_app_l_Some.
    unfold shapes. by rewrite list_lookup_fmap, Hn. }
  apply shapes_lookup_node in Hs' as (n' & Hn' & Hshape).
  injection Hshape as Hty Hch Hdef.
  rewrite Hn, Hn'. simpl. rewrite Hty, Hch, Hdef.
  destruct (children n) as [cl|] eqn:Hcl; [|done].
  destruct Hc as (Hc1 & Hc2 & Hc3).
  destruct (lookup_lt_is_Some_2 _ _ (Hc1 _ _ _ Hn Hcl)) as [cs Hcs].
  assert (lists s' !! cl = Some cs) as Hcs'
    by (destruct Hg as (_ & -> & _); by apply lookup_app_l_Some).
  rewrite Hcs, Hcs'. simpl.
  by rewrite (mapM_ext_Forall _ _ _ _ IH (Hc2 _ _ Hcs)).
Qed.

Lemma tree_of_union_node f s s' sh ls r l kids :
  heap_closed s → grown s s' sh ls →
  nodes s' !! r = Some (mkTypeHintNode TYPING (Some l) (Some (DefStr "Union")) None) →
  lists s' !! l = Some kids → Forall (valid_node s) kids →
  tree_of (S f) s' r
  = (ts ← mapM (tree_of f s) kids; Some (TreeNode TYPING (Some (DefStr "Union")) (Some ts))).
Proof.
  intros Hc Hg Hr Hl Hkids. simpl. rewrite Hr. simpl. rewrite Hl. simpl.
  rewrite (mapM_ext_Forall _ (tree_of f s) _ _
             (λ x, tree_of_grown f s s' sh ls x Hc Hg) Hkids).
  done.
Qed.

(** Runs the first computation of a sequence, given its outcome [R]. *)
Ltac run_step R :=
  repeat rewrite bind_assoc;
  rewrite (bind_Ok _ _ _ _ _ R); cbv beta;
  rewrite ?bind_ret_l.

Section Flattening.

Context (env : Collaborators) (spec : Specification).

Lemma nested_union_trace a b c fuel out s :
  parse_node_given env spec (nested_parts a b c) (S (S (S fuel))) out
    "Union[Union[A,B],C]" 0 None s
  = (let* outer := new_list in
     (let* u := (let* inner := new_list in
                 (_append_child inner a >> _append_child inner b >> ret tt) >>
                 union_of inner) in
      append_parsed outer u >> _append_child outer c >> ret tt) >>
     union_of outer) s.
Proof. vm_compute. reflexivity. Qed.

Lemma plain_union_trace a b c fuel out s :
  parse_node_given env spec (plain_parts a b c) (S (S fuel)) out "Union[A,B,C]" 0 None s
  = (let* children := new_list in
     (_append_child children a >> _append_child children b
      >> _append_child children c >> ret tt) >>
     union_of children) s.
Proof. vm_compute. reflexivity. Qed.

Lemma nested_union_run a b c fuel out s :
  heap_closed s → valid_node s a → valid_node s b → valid_node s c →
  ∃ s1 sh ls,
    parse_node_given env spec (nested_parts a b c) (S (S (S fuel))) out
      "Union[Union[A,B],C]" 0 None s
    = (s1, Ok (Some (length (nodes s) + 1)))
    ∧ grown s s1 sh ls
    ∧ nodes s1 !! (length (nodes s) + 1)
      = Some (mkTypeHintNode TYPING (Some (length (lists s) + 3))
                (Some (DefStr "Union")) None)
    ∧ lists s1 !! (length (lists s) + 3) = Some (flat s a ++ flat s b ++ flat s c).
Proof.
  intros Hc Ha Hb Hcv. rewrite nested_union_trace.
  pose proof (grown_refl s) as g0.
  destruct (grown_new_list _ _ _ _ g0) as (s1 & R1 & g1). simpl in R1, g1.
  run_step R1.
  destruct (grown_new_list _ _ _ _ g1) as (s2 & R2 & g2). simpl in R2, g2.
  run_step R2.
  destruct (grown_append_child s s2 [] _ 1 [] a g2 eq_refl) as (s3 & R3 & g3); [done|].
  simpl in g3. run_step R3.
  destruct (grown_append_child s s3 [] _ 1 [a] b g3 eq_refl) as (s4 & R4 & g4).
  { apply Forall_singleton. unfold valid_node in Ha. simpl. lia. }
  simpl in g4. run_step R4.
  destruct (grown_flat_old s s4 _ _ (length (lists s) + 2) a Hc g4 Ha) as [Fa Ea]; [lia|].
  destruct (grown_flat_old s s4 _ _ (length (lists s) + 2) b Hc g4 Hb) as [Fb Eb]; [lia|].
  destruct (grown_union_of s s4 [] _ 1 [a; b] g4 eq_refl) as (s5 & R5 & g5 & _); [done | |].
  { by repeat constructor. }
  simpl in R5, g5. rewrite Ea, Eb, app_nil_r in g5.
  run_step R5. unfold append_parsed.
  destruct (grown_append_child s s5 _ _ 0 [] (length (nodes s) + 0) g5 eq_refl)
    as (s6 & R6 & g6); [done|].
  simpl in g6. run_step R6.
  destruct (grown_append_child s s6 _ _ 0 [length (nodes s) + 0] c g6 eq_refl)
    as (s7 & R7 & g7).
  { apply Forall_singleton. simpl. lia. }
  simpl in g7. run_step R7.
  assert (Forall (λ y, y < length (nodes s) + 1) (flat s a ++ flat s b)) as Hab.
  { apply Forall_app. split; (eapply Forall_impl; [by apply flat_valid_closed|]);
      unfold valid_node; intros; lia. }
  destruct (grown_flat_new s s7 _ _ (length (lists s) + 3) 0 2 (flat s a ++ flat s b)
              g7 eq_refl eq_refl Hab) as [Fu Eu]; [lia|].
  destruct (grown_flat_old s s7 _ _ (length (lists s) + 3) c Hc g7 Hcv) as [Fc Ec]; [lia|].
  destruct (grown_union_of s s7 _ _ 0 [length (nodes s) + 0; c] g7 eq_refl)
    as (s8 & R8 & g8 & Hn8); [done | |].
  { by repeat constructor. }
  simpl in R8, g8, Hn8. rewrite Eu, Ec, app_nil_r, <- app_assoc in g8.
  rewrite R8. eexists _, _, _. split; [done|]. split; [exact g8|]. split; [exact Hn8|].
  destruct g8 as (_ & -> & _). by rewrite lookup_app_plus.
Qed.

Lemma plain_union_run a b c fuel out s :
  heap_closed s → valid_node s a → valid_node s b → valid_node s c →
  ∃ s2 sh ls,
    parse_node_given env spec (plain_parts a b c) (S (S fuel)) out "Union[A,B,C]" 0 None s
    = (s2, Ok (Some (length (nodes s) + 0)))
    ∧ grown s s2 sh ls
    ∧ nodes s2 !! (length (nodes s) + 0)
      = Some (mkTypeHintNode TYPING (Some (length (lists s) + 1))
                (Some (DefStr "Union")) None)
    ∧ lists s2 !! (length (lists s) + 1) = Some (flat s a ++ flat s b ++ flat s c).
Proof.
  intros Hc Ha Hb Hcv. rewrite plain_union_trace.
  pose proof (grown_refl s) as g0.
  destruct (grown_new_list _ _ _ _ g0) as (s1 & R1 & g1). simpl in R1, g1.
  run_step R1.
  destruct (grown_append_child s s1 [] _ 0 [] a g1 eq_refl) as (s2 & R2 & g2); [done|].
  simpl in g2. run_step R2.
  destruct (grown_append_child s s2 [] _ 0 [a] b g2 eq_refl) as (s3 & R3 & g3).
  { apply Forall_singleton. unfold valid_node in Ha. simpl. lia. }
  simpl in g3. run_step R3.
  destruct (grown_append_child s s3 [] _ 0 [a; b] c g3 eq_refl) as (s4 & R4 & g4).
  { unfold valid_node in *. repeat constructor; simpl; lia. }
  simpl in g4. run_step R4.
  destruct (grown_flat_old s s4 _ _ (length (lists s) + 1) a Hc g4 Ha) as [Fa Ea]; [lia|].
  destruct (grown_flat_old s s4 _ _ (length (lists s) + 1) b Hc g4 Hb) as [Fb Eb]; [lia|].
  destruct (grown_flat_old s s4 _ _ (length (lists s) + 1) c Hc g4 Hcv) as [Fc Ec]; [lia|].
  destruct (grown_union_of s s4 [] _ 0 [a; b; c] g4 eq_refl) as (s5 & R5 & g5 & Hn5);
    [done | |].
  { by repeat constructor. }
  simpl in R5, g5, Hn5. rewrite Ea, Eb, Ec, app_nil_r in g5.
  rewrite R5. eexists _, _, _. split; [done|]. split; [exact g5|]. split; [exact Hn5|].
  destruct g5 as (_ & -> & _). by rewrite lookup_app_plus.
Qed.

(** C1. With the arguments [A], [B] and [C] parsed already to any three
    nodes of a closed store, parsing [Union[Union[A,B],C]] and parsing
    [Union[A,B,C]] both give one union node; its children are, in both
    cases, the flattened arguments in the order [A], [B], [C] (the three
    nodes themselves when none of them is a union), and the two trees are
    the same. *)
Theorem union_of_union_flattens (a b c : node_ref) (fuel : nat) (out : bool) (s : State) :
  heap_closed s → valid_node s a → valid_node s b → valid_node s c →
  ∃ s1 s2 r1 r2 l1 l2,
    parse_node_given env spec (nested_parts a b c) (S (S (S fuel))) out
      "Union[Union[A,B],C]" 0 None s = (s1, Ok (Some r1))
    ∧ parse_node_given env spec (plain_parts a b c) (S (S fuel)) out
        "Union[A,B,C]" 0 None s = (s2, Ok (Some r2))
    ∧ nodes s1 !! r1 = Some (mkTypeHintNode TYPING (Some l1) (Some (DefStr "Union")) None)
    ∧ nodes s2 !! r2 = Some (mkTypeHintNode TYPING (Some l2) (Some (DefStr "Union")) None)
    ∧ lists s1 !! l1 = Some (flat s a ++ flat s b ++ flat s c)
    ∧ lists s2 !! l2 = Some (flat s a ++ flat s b ++ flat s c)
    ∧ (Forall (λ x, ∃ n, nodes s !! x = Some n ∧ is_union n = false) [a; b; c] →
       flat s a ++ flat s b ++ flat s c = [a; b; c])
    ∧ ∀ f, tree_of f s1 r1 = tree_of f s2 r2.
Proof.
  intros Hc Ha Hb Hcv.
  destruct (nested_union_run a b c fuel out s Hc Ha Hb Hcv)
    as (s1 & sh1 & ls1 & Hrun1 & Hg1 & Hn1 & Hl1).
  destruct (plain_union_run a b c fuel out s Hc Ha Hb Hcv)
    as (s2 & sh2 & ls2 & Hrun2 & Hg2 & Hn2 & Hl2).
  eexists s1, s2, _, _, _, _. repeat split; try done.
  - intros H. apply Forall_cons in H as [(na & Hna & Hua) H].
    apply Forall_cons in H as [(nb & Hnb & Hub) H].
    apply Forall_cons in H as [(nc & Hnc & Huc) _].
    unfold flat. by rewrite Hna, Hnb, Hnc, Hua, Hub, Huc.
  - intros [|f]; [done|].
    assert (Forall (valid_node s) (flat s a ++ flat s b ++ flat s c)) as Hkids
      by (rewrite !Forall_app; repeat split; by apply flat_valid_closed).
    rewrite (tree_of_union_node f s s1 sh1 ls1 _ _ _ Hc Hg1 Hn1 Hl1 Hkids).
    by rewrite (tree_of_union_node f s s2 sh2 ls2 _ _ _ Hc Hg2 Hn2 Hl2 Hkids).
Qed.

End Flattening.

(** ** The first render of a hint: [Any] (C2), [Union[]] (C3) *)

Section Hints.

Context (env : Collaborators) (spec : Specification).

(** The first parse of a managed hint, when [_parse_node] returns. *)
Lemma _parse_run fuel key out s m s2 r :
  managed s !! key = Some m → parse_state m = REQUIRED →
  _parse_node env spec fuel out (text (type_hint m)) 0 None
    (set_managed (λ ms, <[key := with_parse_state PARSING m]> ms) s) = (s2, Ok r) →
  ∃ s3 m3,
    _parse env spec fuel key out s = (s3, Ok tt)
    ∧ nodes s3 = nodes s2 ∧ lists s3 = lists s2
    ∧ managed s3 !! key = Some m3
    ∧ type_hint m3 = type_hint m ∧ parse_state m3 = PARSED ∧ root m3 = r.
Proof.
  intros Hm Hreq Hnode. unfold _parse, parse_with.
  rewrite (bind_Ok _ _ _ _ _ (get_managed_Ok _ _ _ Hm)).
  rewrite bool_decide_eq_true_2 by done.
  rewrite (bind_Ok _ _ _ _ _ (update_managed_Ok _ _ _ _ Hm)).
  rewrite (bind_Ok _ _ _ _ _ Hnode).
  pose proof (_parse_node_extending env spec fuel out (text (type_hint m)) 0 None
    (set_managed (λ ms, <[key := with_parse_state PARSING m]> ms) s)) as Hext.
  rewrite Hnode in Hext. simpl in Hext.
  destruct (ext_managed _ _ Hext key (with_parse_state PARSING m))
    as (m2 & Hm2 & Hty & _ & _); [apply lookup_insert_eq|].
  rewrite (bind_Ok _ _ _ _ _ (update_managed_Ok _ _ _ _ Hm2)).
  erewrite update_managed_Ok; [|simpl; apply lookup_insert_eq].
  eexists _, _. split; [done|]. simpl.
  split; [done|]. split; [done|]. split; [apply lookup_insert_eq|]. by simpl.
Qed.

(** The first render of a managed hint, when [_parse_node] returns. *)
Lemma _render_run fuel key out pep484 rr module defined s m s2 r :
  managed s !! key = Some m → parse_state m = REQUIRED →
  _parse_node env spec fuel out (text (type_hint m)) 0 None
    (set_managed (λ ms, <[key := with_parse_state PARSING m]> ms) s) = (s2, Ok r) →
  ∃ s3, nodes s3 = nodes s2 ∧ lists s3 = lists s2
    ∧ _render env spec fuel key out pep484 rr module defined s
      = match r with
        | Some r' => _render_node env spec fuel r' out pep484 rr module defined s3
        | None => (s3, Ok (_maybe_any_object (text (type_hint m)) pep484))
        end.
Proof.
  intros Hm Hreq Hnode.
  destruct (_parse_run fuel key out s m s2 r Hm Hreq Hnode)
    as (s3 & m3 & Hparse & Hn & Hl & Hm3 & Hty & Hp & Hr).
  exists s3. repeat split; try done. unfold _render.
  rewrite (bind_Ok _ _ _ _ _ Hparse).
  rewrite (bind_Ok _ _ _ _ _ (get_managed_Ok _ _ _ Hm3)).
  rewrite Hr, Hty. by destruct r.
Qed.

(** Walking a node of the typing module, by its shape. *)
Lemma _render_node_typing fuel r out pep484 rr module defined s ch def :
  shapes s !! r = Some (TYPING, ch, def) →
  _render_node env spec (S fuel) r out pep484 rr module defined s
  = (let* str :=
       match def with
       | None => ret ""
       | Some (DefStr d) => ret (if pep484 then "typing." +:+ d else d)
       | Some _ => raise TypeError
       end in
     match ch with
     | Some cl =>
         let* cs := get_list cl in
         let* rendered :=
           map_M (λ c, _render_node env spec fuel c out pep484 rr module defined) cs in
         ret (str +:+ "[" +:+ Py.join ", " rendered +:+ "]")
     | None => ret str
     end) s.
Proof.
  intros Hs. apply shapes_lookup_node in Hs as (n & Hn & Hshape).
  injection Hshape as Hty Hch Hdef. cbn [_render_node].
  rewrite (bind_Ok _ _ _ _ _ (get_node_Ok _ _ _ Hn)).
  by rewrite Hty, Hch, Hdef.
Qed.

Lemma shapes_of_nodes s s' : nodes s' = nodes s → shapes s' = shapes s.
Proof. unfold shapes. by intros ->. Qed.


End Hints.

(** A node allocated since [s] that is not a union. *)
Lemma grown_flat_plain s s1 sh ls l j shp :
  grown s s1 sh ls → sh !! j = Some shp →
  (∀ n, shape n = shp → is_union n = false) →
  flattenable s1 l (length (nodes s) + j) ∧ flat s1 (length (nodes s) + j) = [length (nodes s) + j].
Proof.
  intros Hg Hj Hplain.
  assert (shapes s1 !! (length (nodes s) + j) = Some shp) as Hs1.
  { destruct Hg as (-> & _). by rewrite <- shapes_length_nodes, lookup_app_plus. }
  apply shapes_lookup_node in Hs1 as (n & Hn & Hshape).
  pose proof (Hplain n Hshape) as Hun. split.
  - exists n. split; [done|]. by rewrite Hun.
  - unfold flat. by rewrite Hn, Hun.
Qed.

Lemma tree_of_shape f s r ty ch def :
  shapes s !! r = Some (ty, ch, def) →
  tree_of (S f) s r
  = match ch with
    | None => Some (TreeNode ty def None)
    | Some cl =>
        cs ← lists s !! cl;
        kids ← mapM (tree_of f s) cs;
        Some (TreeNode ty def (Some kids))
    end.
Proof.
  intros Hs. apply shapes_lookup_node in Hs as (n & Hn & Hshape).
  injection Hshape as Hty Hch Hdef. simpl. rewrite Hn. simpl.
  by rewrite Hty, Hch, Hdef.
Qed.

Section EmptyUnion.

Context (env : Collaborators) (spec : Specification).

Lemma empty_union_trace fuel out s :
  _parse_node env spec (S (S fuel)) out "Union[]" 0 None s
  = (let* children := new_list in
     ((let* c := new_node anonymous_node in _append_child children c) >> ret tt) >>
     union_of children) s.
Proof. vm_compute. reflexivity. Qed.

Lemma empty_union_run fuel out s :
  ∃ s1,
    _parse_node env spec (S (S fuel)) out "Union[]" 0 None s
    = (s1, Ok (Some (length (nodes s) + 1)))
    ∧ grown s s1
        [(TYPING, None, None); (TYPING, Some (length (lists s) + 1), Some (DefStr "Union"))]
        [[length (nodes s) + 0]; [length (nodes s) + 0]].
Proof.
  rewrite empty_union_trace.
  pose proof (grown_refl s) as g0.
  destruct (grown_new_list _ _ _ _ g0) as (s1 & R1 & g1). simpl in R1, g1.
  run_step R1.
  destruct (grown_new_node _ _ _ _ anonymous_node g1) as (s2 & R2 & g2 & _).
  simpl in R2, g2. run_step R2.
  destruct (grown_append_child s s2 _ _ 0 [] (length (nodes s) + 0) g2 eq_refl)
    as (s3 & R3 & g3); [done|].
  simpl in g3. run_step R3.
  destruct (grown_flat_plain s s3 _ _ (length (lists s) + 1) 0 _ g3 eq_refl) as [Fc Ec].
  { intros n Hn. unfold is_union. injection Hn as _ _ ->. by rewrite andb_false_r. }
  destruct (grown_union_of s s3 _ _ 0 [length (nodes s) + 0] g3 eq_refl)
    as (s4 & R4 & g4 & _); [done | by repeat constructor |].
  simpl in R4, g4. rewrite Ec in g4. simpl in g4.
  rewrite R4. by exists s4.
Qed.

(** C3. On the code the empty argument of [Union[]] is parsed to an
    anonymous node without children, so the union has one child and
    [Union[]] is parsed to a tree and not to no type; the hint renders from
    that tree, as [Union[]] in qualified and cross-reference mode and as
    [typing.Union[]] in annotation mode.  A hint that has been parsed to
    no tree does render as its text, with [Any] replaced. *)
Theorem empty_union_parses_to_a_tree (fuel : nat) (out : bool) (s : State)
    (m : ManagedTypeHint) :
  managed s !! "Union[]" = Some m → text (type_hint m) = "Union[]" →
  parse_state m = REQUIRED →
  (∃ s' m' r,
     _parse env spec (S (S fuel)) "Union[]" out s = (s', Ok tt)
     ∧ managed s' !! "Union[]" = Some m' ∧ root m' = Some r
     ∧ tree_of 2 s' r
       = Some (TreeNode TYPING (Some (DefStr "Union")) (Some [TreeNode TYPING None None])))
  ∧ (∀ rr module defined,
       (_render env spec (S (S fuel)) "Union[]" out false rr module defined s).2
       = Ok "Union[]"
       ∧ (_render env spec (S (S fuel)) "Union[]" out true rr module defined s).2
         = Ok "typing.Union[]")
  ∧ (∀ fuel' key out' pep484 rr module defined s' m',
       managed s' !! key = Some m' → parse_state m' ≠ REQUIRED → root m' = None →
       _render env spec fuel' key out' pep484 rr module defined s'
       = (s', Ok (_maybe_any_object (text (type_hint m')) pep484))).
Proof.
  intros Hm Htxt Hreq.
  destruct (empty_union_run fuel out
    (set_managed (λ ms, <[("Union[]" : string) := with_parse_state PARSING m]> ms) s))
    as (s2 & Hnode & Hg).
  rewrite <- Htxt in Hnode at 1. cbn [nodes lists set_managed] in Hnode, Hg.
  assert (∀ s3, nodes s3 = nodes s2 → lists s3 = lists s2 →
            shapes s3 !! (length (nodes s) + 1)
              = Some (TYPING, Some (length (lists s) + 1), Some (DefStr "Union"))
            ∧ lists s3 !! (length (lists s) + 1) = Some [length (nodes s) + 0]
            ∧ shapes s3 !! (length (nodes s) + 0) = Some (TYPING, None, None)) as Hfacts.
  { intros s3 Hn Hl. rewrite (shapes_of_nodes _ _ Hn), Hl.
    destruct Hg as (-> & -> & _). simpl.
    rewrite <- !shapes_length_nodes. unfold shapes at 2 4; simpl.
    by rewrite !lookup_app_plus. }
  split; [|split].
  - destruct (_parse_run env spec (S (S fuel)) "Union[]" out s m _ _ Hm Hreq Hnode)
      as (s3 & m3 & Hparse & Hn & Hl & Hm3 & _ & _ & Hr).
    destruct (Hfacts s3 Hn Hl) as (H1 & H2 & H3).
    exists s3, m3, (length (nodes s) + 1). repeat split; try done.
    rewrite (tree_of_shape 1 _ _ _ _ _ H1), H2. cbn [mbind option_bind mapM].
    by rewrite (tree_of_shape 0 _ _ _ _ _ H3).
  - intros rr module defined. split.
    + destruct (_render_run env spec (S (S fuel)) "Union[]" out false rr module defined
                  s m _ _ Hm Hreq Hnode) as (s3 & Hn & Hl & ->).
      destruct (Hfacts s3 Hn Hl) as (H1 & H2 & H3).
      rewrite (_render_node_typing env spec _ _ out false rr module defined s3 _ _ H1).
      rewrite bind_ret_l. rewrite (bind_Ok _ _ _ _ _ (get_list_Ok _ _ _ H2)).
      cbn [map_M].
      rewrite (bind_Ok _ _ s3 s3 [""]); [done|].
      by rewrite (bind_Ok _ _ _ _ _
           (_render_node_typing env spec _ _ out false rr module defined s3 _ _ H3)).
    + destruct (_render_run env spec (S (S fuel)) "Union[]" out true rr module defined
                  s m _ _ Hm Hreq Hnode) as (s3 & Hn & Hl & ->).
      destruct (Hfacts s3 Hn Hl) as (H1 & H2 & H3).
      rewrite (_render_node_typing env spec _ _ out true rr module defined s3 _ _ H1).
      rewrite bind_ret_l. rewrite (bind_Ok _ _ _ _ _ (get_list_Ok _ _ _ H2)).
      cbn [map_M].
      rewrite (bind_Ok _ _ s3 s3 [""]); [done|].
      by rewrite (bind_Ok _ _ _ _ _
           (_render_node_typing env spec _ _ out true rr module defined s3 _ _ H3)).
  - intros fuel' key out' pep484 rr module defined s' m' Hm' Hp Hr.
    rewrite (_render_parsed env spec fuel' key out' pep484 rr module defined s' m' Hm' Hp).
    by rewrite Hr.
Qed.

End EmptyUnion.

(** ** Structural errors (C6, C7) and sibling links (C8) *)

Section Errors.

Context (env : Collaborators) (spec : Specification).

(** C6, as the code has it. A top-level hint whose text, spaces at both
    ends aside, has an opening bracket and does not end with a closing
    bracket is refused with a [UserException]; its message holds the whole
    text of the hint and the position just after the last character that
    is not a space, where the closing bracket is missed. *)
Theorem missing_bracket_is_reported_at_end (fuel : nat) (out : bool) (txt : string)
    (s : State) (i : nat) :
  let start := _strip_leading txt 0 (Py.len txt) in
  let end_ := _strip_trailing txt start (Py.len txt) in
  Py.find "[" (Py.slice txt start end_) = Some i →
  Py.char_at_is txt (end_ - 1) "]" = false →
  _parse_node env spec (S fuel) out txt 0 None s
  = (set_lists (λ ls, ls ++ [[]]) s,
     Raise (UserException
              ("type hint '" +:+ txt +:+ "': ']' expected at position "
               +:+ Py.str_of_nat end_))).
Proof.
  intros start end_ Hfind Hlast. cbn [_parse_node]. unfold parse_node_body.
  fold start. fold end_. rewrite Hfind.
  unfold bind, new_list. by rewrite Hlast.
Qed.

Lemma nameless_trace fuel out s :
  _parse_node env spec (S (S fuel)) out "[]" 0 None s
  = (let* children := new_list in
     ((let* c := new_node anonymous_node in _append_child children c) >> ret tt) >>
     let* no_children := (let* xs := get_list children in ret (length xs =? 0)) in
     if no_children then raise (UserException (non_empty_brackets_msg "[]"))
     else
       let* node := new_node (mkTypeHintNode TYPING (Some children) None None) in
       ret (Some node)) s.
Proof. vm_compute. reflexivity. Qed.

(** C7. The code does not refuse the top-level text [[]]: its empty
    argument is parsed to an anonymous node without children, so the list
    of children is not empty and the hint is parsed to an anonymous node
    with that one child.  A top-level text without a name and without
    brackets is refused as the claim says. *)
Theorem empty_brackets_are_accepted (fuel : nat) (out : bool) (s : State) :
  (∃ s' r,
     _parse_node env spec (S (S fuel)) out "[]" 0 None s = (s', Ok (Some r))
     ∧ tree_of 2 s' r = Some (TreeNode TYPING None (Some [TreeNode TYPING None None])))
  ∧ (∀ txt,
       _strip_trailing txt (_strip_leading txt 0 (Py.len txt)) (Py.len txt)
         = _strip_leading txt 0 (Py.len txt) →
       _parse_node env spec (S fuel) out txt 0 None s
       = (s, Raise (UserException (non_empty_brackets_msg txt)))).
Proof.
  split.
  - rewrite nameless_trace.
    pose proof (grown_refl s) as g0.
    destruct (grown_new_list _ _ _ _ g0) as (s1 & R1 & g1). simpl in R1, g1.
    run_step R1.
    destruct (grown_new_node _ _ _ _ anonymous_node g1) as (s2 & R2 & g2 & _).
    simpl in R2, g2. run_step R2.
    destruct (grown_append_child s s2 _ _ 0 [] (length (nodes s) + 0) g2 eq_refl)
      as (s3 & R3 & g3); [done|].
    simpl in g3. run_step R3.
    assert (lists s3 !! (length (lists s) + 0) = Some [length (nodes s) + 0]) as Hl
      by (destruct g3 as (_ & -> & _); by rewrite lookup_app_plus).
    run_step (get_list_Ok _ _ _ Hl). cbn [length Nat.eqb].
    destruct (grown_new_node _ _ _ _
      (mkTypeHintNode TYPING (Some (length (lists s) + 0)) None None) g3)
      as (s4 & R4 & g4 & _).
    simpl in R4, g4. run_step R4.
    eexists _, _. split; [done|].
    destruct g4 as (Hs & Hls & _).
    rewrite (tree_of_shape 1 s4 _ TYPING (Some (length (lists s) + 0)) None).
    + rewrite Hls, lookup_app_plus. cbn [mbind option_bind mapM lookup list_lookup].
      rewrite (tree_of_shape 0 s4 _ TYPING None None); [done|].
      by rewrite Hs, <- shapes_length_nodes, lookup_app_plus.
    + by rewrite Hs, <- shapes_length_nodes, lookup_app_plus.
  - intros txt Hstrip. cbn [_parse_node]. unfold parse_node_body.
    rewrite Hstrip. unfold Py.slice at 1. rewrite Nat.sub_diag, substring_none.
    cbn [Py.find]. unfold make_node.
    by rewrite bool_decide_eq_false_2 by (intros H; by apply H).
Qed.

(** C8. [_append_child] links the last child to the new one only when the
    list has more than one child: the first child of a list is never
    linked to the second, its [next] stays as it is ([None] for a node
    just parsed); from the second child on, the link is set. *)
Theorem first_child_is_not_linked (s : State) (l : list_ref) (c1 c2 : node_ref)
    (n1 : TypeHintNode) :
  lists s !! l = Some [c1] → nodes s !! c1 = Some n1 →
  (∃ s', _append_child l c2 s = (s', Ok tt)
         ∧ lists s' !! l = Some [c1; c2]
         ∧ nodes s' !! c1 = Some n1)
  ∧ (∀ c3 n2, nodes s !! c2 = Some n2 → c1 ≠ c2 →
       ∃ s' s'', _append_child l c2 s = (s', Ok tt)
         ∧ _append_child l c3 s' = (s'', Ok tt)
         ∧ lists s'' !! l = Some [c1; c2; c3]
         ∧ nodes s'' !! c1 = Some n1
         ∧ nodes s'' !! c2
           = Some (mkTypeHintNode (type n2) (children n2) (definition n2) (Some c3))).
Proof.
  intros Hl Hn1.
  assert (_append_child l c2 s
          = (set_lists (λ ls, <[l := [c1; c2]]> ls) s, Ok tt)) as Hrun.
  { unfold _append_child. rewrite (bind_Ok _ _ _ _ _ (get_list_Ok _ _ _ Hl)).
    cbn [length Nat.ltb Nat.leb]. rewrite bind_ret_l.
    unfold list_append. by rewrite Hl. }
  assert (lists (set_lists (λ ls, <[l := [c1; c2]]> ls) s) !! l = Some [c1; c2]) as Hl'
    by (simpl; apply list_lookup_insert_eq; by eapply lookup_lt_Some).
  split.
  - eexists. split; [exact Hrun|]. by split.
  - intros c3 n2 Hn2 Hne. eexists _, _. split; [exact Hrun|].
    unfold _append_child at 1. rewrite (bind_Ok _ _ _ _ _ (get_list_Ok _ _ _ Hl')).
    cbn [length Nat.ltb Nat.leb last].
    unfold bind at 1, set_next. cbn [nodes set_lists]. rewrite Hn2.
    unfold list_append. cbn [lists set_nodes set_lists].
    rewrite list_lookup_insert_eq by (by eapply lookup_lt_Some).
    split; [done|]. cbn [lists nodes set_lists set_nodes].
    rewrite list_insert_insert_eq.
    rewrite list_lookup_insert_eq by (by eapply lookup_lt_Some).
    rewrite list_lookup_insert_ne by done.
    rewrite list_lookup_insert_eq by (by eapply lookup_lt_Some).
    done.
Qed.

End Errors.

(** ** Witnesses, counterexamples and examples on concrete hints *)

Lemma three_names_closed : heap_closed three_names.
Proof.
  repeat split.
  - intros [|[|[|r]]] n cl Hn Hcl; simpl in Hn; by simplify_eq.
  - intros l xs Hl. by destruct l.
  - intros [|[|[|r]]] n Hn Hu; simpl in Hn; by simplify_eq.
Qed.

Lemma union_of_union_flattens_witness :
  ∃ s1 s2 r1 r2,
    parse_node_given sample_env empty_spec (nested_parts 0 1 2) 3 true
      "Union[Union[A,B],C]" 0 None three_names = (s1, Ok (Some r1))
    ∧ parse_node_given sample_env empty_spec (plain_parts 0 1 2) 2 true
        "Union[A,B,C]" 0 None three_names = (s2, Ok (Some r2))
    ∧ children_of s1 r1 = Some [0; 1; 2]
    ∧ children_of s2 r2 = Some [0; 1; 2]
    ∧ tree_of 2 s1 r1 = tree_of 2 s2 r2.
Proof.
  destruct (union_of_union_flattens sample_env empty_spec 0 1 2 0 true three_names
              three_names_closed)
    as (s1 & s2 & r1 & r2 & l1 & l2 & H1 & H2 & Hn1 & Hn2 & Hl1 & Hl2 & _ & Htree);
    [unfold valid_node; simpl; lia ..|].
  exists s1, s2, r1, r2. repeat split; try done.
  - unfold children_of. rewrite Hn1. simpl. by rewrite Hl1.
  - unfold children_of. rewrite Hn2. simpl. by rewrite Hl2.
Defined.

(** The two texts parsed in full by a new manager give the same tree. *)
Example union_of_union_parsed :
  let s := (get_type_hint "Union[A,B,C]"
              (get_type_hint "Union[Union[A,B],C]" new_manager).1).1 in
  let s1 := (_parse sample_env empty_spec 5 "Union[Union[A,B],C]" true s).1 in
  let s2 := (_parse sample_env empty_spec 5 "Union[A,B,C]" true s).1 in
  (r ← managed s1 !! "Union[Union[A,B],C]" ≫= root; tree_of 5 s1 r)
  = Some (TreeNode TYPING (Some (DefStr "Union"))
            (Some [TreeNode OTHER (Some (DefStr "A")) None;
                   TreeNode OTHER (Some (DefStr "B")) None;
                   TreeNode OTHER (Some (DefStr "C")) None]))
  ∧ (r ← managed s2 !! "Union[A,B,C]" ≫= root; tree_of 5 s2 r)
    = (r ← managed s1 !! "Union[Union[A,B],C]" ≫= root; tree_of 5 s1 r).
Proof. vm_compute. done. Qed.



(** [Union[]] on the sample manager: the hint is parsed to a tree, and in
    annotation mode it does not render as its text. *)
Example empty_union_on_sample_manager :
  (managed (_parse sample_env foo_bar_spec 5 "Union[]" true sample_manager).1
     !! "Union[]" ≫= root) = Some 1
  ∧ (_render sample_env foo_bar_spec 5 "Union[]" true true false None None
       sample_manager).2 = Ok "typing.Union[]"
  ∧ _maybe_any_object "Union[]" true = "Union[]".
Proof. vm_compute. done. Qed.

Lemma empty_union_parses_to_a_tree_witness :
  (_render sample_env foo_bar_spec 2 "Union[]" true false false None None
     sample_manager).2 = Ok "Union[]"
  ∧ (_render sample_env foo_bar_spec 2 "Union[]" true true false None None
       sample_manager).2 = Ok "typing.Union[]".
Proof.
  refine (proj1 (proj2 (empty_union_parses_to_a_tree sample_env foo_bar_spec 0 true
    sample_manager (mkManagedTypeHint (mkTypeHint 4 "Union[]") REQUIRED None None)
    _ _ _)) false None None).
  - vm_compute. reflexivity.
  - reflexivity.
  - reflexivity.
Defined.

Lemma Foo_is_bare : bare_name "Foo".
Proof. repeat split; try done. compute_done. Qed.

Lemma self_reference_resolves_to_class_witness :
  ∃ s' c r m',
    _lookup_type sample_env foo_bar_spec 1 "Foo" true sample_manager = (s', Ok (Some c))
    ∧ nodes s' !! c = Some (class_node Foo)
    ∧ managed s' !! "Foo" = Some m'
    ∧ parse_state m' = PARSED ∧ root m' = Some r
    ∧ nodes s' !! r = Some (class_node Foo).
Proof.
  refine (proj2 (self_reference_resolves_to_class sample_env foo_bar_spec "Foo" true Foo
    (mkTypeHint 0 "Foo") sample_manager
    (mkManagedTypeHint (mkTypeHint 0 "Foo") REQUIRED None None)
    Foo_is_bare _ _ _ _ _) _ 0).
  - vm_compute. reflexivity.
  - reflexivity.
  - reflexivity.
  - vm_compute. reflexivity.
  - reflexivity.
  - reflexivity.
Defined.

(** The claim C6 fails on the code: the position in the message for
    [List[int] is 8, the end of the text; the opening bracket is at 4, and
    no 4 is in the message. *)
Lemma missing_bracket_counterexample :
  ∃ msg,
    (_parse_node sample_env foo_bar_spec 5 true "List[int" 0 None sample_manager).2
      = Raise (UserException msg)
    ∧ msg = "type hint 'List[int': ']' expected at position 8"
    ∧ Py.find "[" "List[int" = Some 4
    ∧ contains "List[int" msg = true
    ∧ contains (Py.str_of_nat 4) msg = false.
Proof. eexists. vm_compute. done. Qed.

Lemma missing_bracket_is_reported_at_end_witness :
  _parse_node sample_env foo_bar_spec 1 true "List[int" 0 None sample_manager
  = (set_lists (λ ls, ls ++ [[]]) sample_manager,
     Raise (UserException "type hint 'List[int': ']' expected at position 8")).
Proof.
  apply (missing_bracket_is_reported_at_end sample_env foo_bar_spec 0 true "List[int"
           sample_manager 4); reflexivity.
Defined.

Lemma empty_brackets_are_accepted_witness :
  _parse_node sample_env foo_bar_spec 1 true "  " 0 None sample_manager
  = (sample_manager, Raise (UserException "type hint '  ': must have non-empty brackets")).
Proof.
  apply (proj2 (empty_brackets_are_accepted sample_env foo_bar_spec 0 true sample_manager)).
  reflexivity.
Defined.

(** The hint [[]] rendered by a new manager. *)
Example empty_brackets_rendered :
  (_render sample_env empty_spec 5 "[]" true false false None None
     (get_type_hint "[]" new_manager).1).2 = Ok "[]".
Proof. vm_compute. reflexivity. Qed.

Lemma first_child_is_not_linked_witness :
  ∃ s', _append_child 0 1 one_child = (s', Ok tt)
        ∧ lists s' !! 0 = Some [0; 1]
        ∧ nodes s' !! 0 = Some (mkTypeHintNode OTHER None (Some (DefStr "str")) None).
Proof.
  apply (proj1 (first_child_is_not_linked one_child 0 0 1
           (mkTypeHintNode OTHER None (Some (DefStr "str")) None) eq_refl eq_refl)).
Defined.

(** A union whose only argument is left out, as a mapped type without
    override hints is, is parsed to no tree and renders as its text in
    every mode. *)
Example omitted_union_renders_raw :
  managed (_parse sample_env mapped_spec 5 "Union[MT]" true mapped_manager).1
    !! "Union[MT]" ≫= root = None
  ∧ (_render sample_env mapped_spec 5 "Union[MT]" true true false None None
       mapped_manager).2 = Ok "Union[MT]"
  ∧ (_render sample_env mapped_spec 5 "Union[MT]" true false false None None
       mapped_manager).2 = Ok "Union[MT]".
Proof. vm_compute. done. Qed.

(** [Dict[str, int]] parsed by a new manager: the first of the two
    children has no sibling link. *)
Example two_children_parsed :
  let s := (_parse sample_env empty_spec 5 "Dict[str, int]" true
              (get_type_hint "Dict[str, int]" new_manager).1).1 in
  managed s !! "Dict[str, int]" ≫= root = Some 2
  ∧ children_of s 2 = Some [0; 1]
  ∧ next_of s 0 = Some None
  ∧ next_of s 1 = Some None.
Proof. vm_compute. done. Qed.

(** The claim C9 fails on the code: the copy of the root of
    [Union[A, B, C]] has the list of children of the root itself, so the
    children are shared; and parsing [Union[Bar, D]], which splices these
    children into its own union, sets the sibling link of the last child in
    the tree of [Union[A, B, C]]. *)
Lemma copy_shares_children_counterexample :
  let copied := _copy_type_hint sample_env foo_bar_spec 5 (mkTypeHint 1 "Union[A, B, C]")
                  true bar_parsed in
  let s' := (_parse sample_env foo_bar_spec 5 "Union[Bar, D]" true bar_parsed).1 in
  managed bar_parsed !! "Union[A, B, C]" ≫= root = Some 3
  ∧ copied.2 = Ok (Some 4)
  ∧ children <$> nodes copied.1 !! 3 = Some (Some 1)
  ∧ children <$> nodes copied.1 !! 4 = Some (Some 1)
  ∧ children_of bar_parsed 3 = Some [0; 1; 2]
  ∧ next_of bar_parsed 2 = Some None
  ∧ next_of s' 2 = Some (Some 5)
  ∧ managed s' !! "Union[A, B, C]" ≫= root = Some 3.
Proof. vm_compute. done. Qed.

Lemma copy_type_hint_is_shallow_witness :
  ∃ m r n,
    managed (_copy_type_hint sample_env foo_bar_spec 5 (mkTypeHint 1 "Union[A, B, C]")
               true bar_parsed).1 !! "Union[A, B, C]" = Some m
    ∧ root m = Some r
    ∧ nodes (_copy_type_hint sample_env foo_bar_spec 5 (mkTypeHint 1 "Union[A, B, C]")
               true bar_parsed).1 !! r = Some n
    ∧ nodes bar_parsed !! 4 = None ∧ 4 ≠ r
    ∧ nodes (_copy_type_hint sample_env foo_bar_spec 5 (mkTypeHint 1 "Union[A, B, C]")
               true bar_parsed).1 !! 4
      = Some (mkTypeHintNode (type n) (children n) (definition n) None).
Proof.
  apply (copy_type_hint_is_shallow sample_env foo_bar_spec 5
           (mkTypeHint 1 "Union[A, B, C]") true bar_parsed).
  vm_compute. reflexivity.
Defined.

Lemma later_direction_is_irrelevant_witness :
  _render sample_env foo_bar_spec 5 "Union[Bar, D]" true false false None None
    rendered_twice
  = _render sample_env foo_bar_spec 5 "Union[Bar, D]" false false false None None
      rendered_twice
  ∧ (_render sample_env foo_bar_spec 5 "Union[Bar, D]" true false false None None
       rendered_twice).1 = rendered_twice.
Proof.
  refine (proj1 (proj2 (later_direction_is_irrelevant sample_env foo_bar_spec
    "Union[Bar, D]" sample_manager
    (mkManagedTypeHint (mkTypeHint 2 "Union[Bar, D]") REQUIRED None None)
    5 true false false None None
    [Call_rest_ref 5 (mkTypeHint 2 "Union[Bar, D]") false] _))
    5 true false false false None None).
  vm_compute. reflexivity.
Defined.

(** The direction of the first render decides: [Union[Bar, D]] first
    rendered outgoing has the override hint of [Bar] spliced in, whatever
    the direction of the renders after it. *)
Example first_direction_decides :
  let s1 := (_render sample_env foo_bar_spec 5 "Union[Bar, D]" true false false
               None None sample_manager).1 in
  let s1' := (_render sample_env foo_bar_spec 5 "Union[Bar, D]" false false false
                None None sample_manager).1 in
  (_render sample_env foo_bar_spec 5 "Union[Bar, D]" false false false None None s1).2
    = Ok "Union[A, B, C, D]"
  ∧ (_render sample_env foo_bar_spec 5 "Union[Bar, D]" true false false None None s1').2
    = Ok "Union[Bar, D]".
Proof. vm_compute. done. Qed.

(** ** The helpers that trim a span *)

Lemma strip_leading_loop_spec n text start end_ :
  end_ - start ≤ n → start ≤ end_ →
  start ≤ strip_leading_loop n text start end_ ≤ end_
  ∧ (∀ i, start ≤ i < strip_leading_loop n text start end_ →
       Py.char_at_is text i " " = true)
  ∧ (strip_leading_loop n text start end_ < end_ →
       Py.char_at_is text (strip_leading_loop n text start end_) " " = false).
Proof.
  revert start. induction n as [|n IH]; intros start Hn Hle; simpl.
  - split; [lia|]. split; intros; lia.
  - destruct (start <? end_) eqn:Hlt; simpl.
    + apply Nat.ltb_lt in Hlt.
      destruct (Py.char_at_is text start " ") eqn:Hc.
      * destruct (IH (S start)) as (H1 & H2 & H3); [lia | lia |].
        split; [lia|]. split; [|done].
        intros i Hi. destruct (decide (i = start)) as [->|]; [done|].
        apply H2. lia.
      * split; [lia|]. split; [intros; lia | done].
    + apply Nat.ltb_ge in Hlt. split; [lia|]. split; intros; lia.
Qed.

Lemma strip_trailing_loop_spec n text start end_ :
  end_ - start ≤ n → start ≤ end_ →
  start ≤ strip_trailing_loop n text start end_ ≤ end_
  ∧ (∀ i, strip_trailing_loop n text start end_ ≤ i < end_ →
       Py.char_at_is text i " " = true)
  ∧ (start < strip_trailing_loop n text start end_ →
       Py.char_at_is text (strip_trailing_loop n text start end_ - 1) " " = false).
Proof.
  revert end_. induction n as [|n IH]; intros end_ Hn Hle; simpl.
  - split; [lia|]. split; intros; lia.
  - destruct (start <? end_) eqn:Hlt; simpl.
    + apply Nat.ltb_lt in Hlt.
      destruct (Py.char_at_is text (end_ - 1) " ") eqn:Hc.
      * destruct (IH (end_ - 1)) as (H1 & H2 & H3); [lia | lia |].
        split; [lia|]. split; [|done].
        intros i Hi. destruct (decide (i = end_ - 1)) as [->|]; [done|].
        apply H2. lia.
      * split; [lia|]. split; [intros; lia | done].
    + apply Nat.ltb_ge in Hlt. split; [lia|]. split; intros; lia.
Qed.

(** The loops stop at once on a span that is empty or starts (ends) with
    a character that is not a space. *)
Lemma strip_leading_loop_fix n text start end_ :
  (start < end_ → Py.char_at_is text start " " = false) →
  strip_leading_loop n text start end_ = start.
Proof.
  intros H. destruct n as [|n]; simpl; [done|].
  destruct (start <? end_) eqn:Hlt; simpl; [|done].
  apply Nat.ltb_lt in Hlt. by rewrite H.
Qed.

Lemma strip_trailing_loop_fix n text start end_ :
  (start < end_ → Py.char_at_is text (end_ - 1) " " = false) →
  strip_trailing_loop n text start end_ = end_.
Proof.
  intros H. destruct n as [|n]; simpl; [done|].
  destruct (start <? end_) eqn:Hlt; simpl; [|done].
  apply Nat.ltb_lt in Hlt. by rewrite H.
Qed.

(** X1. [_strip_leading] returns the index of the first character of the
    span from [start] to [end_] that is not a space, or [end_] when the
    span holds spaces only: the result lies in the span, everything before
    it is a space, and the character at it, if it is inside the span, is
    not. *)
Theorem strip_leading_first_non_space (text : string) (start end_ : nat) :
  start ≤ end_ → end_ ≤ Py.len text →
  start ≤ _strip_leading text start end_ ≤ end_
  ∧ (∀ i, start ≤ i < _strip_leading text start end_ → Py.char_at_is text i " " = true)
  ∧ (_strip_leading text start end_ < end_ →
       Py.char_at_is text (_strip_leading text start end_) " " = false).
Proof. intros Hle _. by apply strip_leading_loop_spec. Qed.

Lemma strip_leading_first_non_space_witness :
  0 ≤ _strip_leading "  int " 0 6 ≤ 6
  ∧ (∀ i, 0 ≤ i < _strip_leading "  int " 0 6 → Py.char_at_is "  int " i " " = true)
  ∧ (_strip_leading "  int " 0 6 < 6 →
       Py.char_at_is "  int " (_strip_leading "  int " 0 6) " " = false).
Proof. apply (strip_leading_first_non_space "  int " 0 6); vm_compute; lia. Defined.

(** X2. [_strip_trailing] returns the index after the last character of
    the span from [start] to [end_] that is not a space, or [start] when the
    span holds spaces only: the result lies in the span, everything from it
    on is a space, and the character before it, if it is inside the span,
    is not. *)
Theorem strip_trailing_last_non_space (text : string) (start end_ : nat) :
  start ≤ end_ → end_ ≤ Py.len text →
  start ≤ _strip_trailing text start end_ ≤ end_
  ∧ (∀ i, _strip_trailing text start end_ ≤ i < end_ → Py.char_at_is text i " " = true)
  ∧ (start < _strip_trailing text start end_ →
       Py.char_at_is text (_strip_trailing text start end_ - 1) " " = false).
Proof. intros Hle _. by apply strip_trailing_loop_spec. Qed.

Lemma strip_trailing_last_non_space_witness :
  1 ≤ _strip_trailing " int  " 1 6 ≤ 6
  ∧ (∀ i, _strip_trailing " int  " 1 6 ≤ i < 6 → Py.char_at_is " int  " i " " = true)
  ∧ (1 < _strip_trailing " int  " 1 6 →
       Py.char_at_is " int  " (_strip_trailing " int  " 1 6 - 1) " " = false).
Proof. apply (strip_trailing_last_non_space " int  " 1 6); vm_compute; lia. Defined.

(** X3. The two helpers together, as [_parse_node] calls them, trim the
    span: what is left lies inside the span and, unless it is empty, begins
    and ends with a character that is not a space; trimming it again
    changes nothing. *)
Theorem trimmed_span_is_trimmed (text : string) (start end_ : nat) :
  start ≤ end_ → end_ ≤ Py.len text →
  let start' := _strip_leading text start end_ in
  let end' := _strip_trailing text start' end_ in
  start ≤ start' ∧ start' ≤ end' ∧ end' ≤ end_
  ∧ (start' < end' →
       Py.char_at_is text start' " " = false
       ∧ Py.char_at_is text (end' - 1) " " = false)
  ∧ _strip_leading text start' end' = start'
  ∧ _strip_trailing text start' end' = end'.
Proof.
  intros Hle Hlen start' end'.
  destruct (strip_leading_first_non_space text start end_ Hle Hlen) as (H1 & H2 & H3).
  fold start' in H1, H2, H3.
  destruct (strip_trailing_last_non_space text start' end_) as (H4 & H5 & H6);
    [lia | done |].
  fold end' in H4, H5, H6.
  split; [lia|]. split; [lia|]. split; [lia|].
  split; [|split].
  - intros Hlt. split; [apply H3; lia | by apply H6].
  - apply strip_leading_loop_fix. intros Hlt. apply H3. lia.
  - apply strip_trailing_loop_fix. intros Hlt. by apply H6.
Qed.

Lemma trimmed_span_is_trimmed_witness :
  let start' := _strip_leading "[ int , str]" 1 6 in
  let end' := _strip_trailing "[ int , str]" start' 6 in
  1 ≤ start' ∧ start' ≤ end' ∧ end' ≤ 6
  ∧ (start' < end' →
       Py.char_at_is "[ int , str]" start' " " = false
       ∧ Py.char_at_is "[ int , str]" (end' - 1) " " = false)
  ∧ _strip_leading "[ int , str]" start' end' = start'
  ∧ _strip_trailing "[ int , str]" start' end' = end'.
Proof. apply (trimmed_span_is_trimmed "[ int , str]" 1 6); vm_compute; lia. Defined.

(** ** The loop that finds the end of a part *)

Lemma char_at_is_inj text i c d :
  Py.char_at_is text i c = true → Py.char_at_is text i d = true → c = d.
Proof.
  unfold Py.char_at_is. destruct (String.get i text) as [e|]; [|done].
  intros H1 H2. apply Ascii.eqb_eq in H1, H2. congruence.
Qed.

Lemma find_part_end_spec n text i depth p :
  find_part_end n text i depth = Some p →
  i ≤ p < i + n
  ∧ (Py.char_at_is text p "," = true ∨ Py.char_at_is text p "]" = true)
  ∧ depth + count_char "[" text i (p - i) = count_char "]" text i (p - i).
Proof.
  revert i depth. induction n as [|n IH]; intros i depth; simpl; [done|].
  destruct (Py.char_at_is text i "[") eqn:Hopen.
  { intros H. destruct (IH _ _ H) as (H1 & H2 & H3).
    split; [lia|]. split; [done|].
    replace (p - i) with (S (p - S i)) by lia. simpl. rewrite Hopen.
    destruct (Py.char_at_is text i "]") eqn:Hclose; [|lia].
    by pose proof (char_at_is_inj _ _ _ _ Hopen Hclose). }
  destruct (Py.char_at_is text i "]") eqn:Hclose; simpl.
  - destruct (depth =? 0) eqn:Hd; simpl.
    + rewrite orb_true_r. intros [= <-]. apply Nat.eqb_eq in Hd.
      split; [lia|]. split; [by right|]. rewrite Nat.sub_diag. simpl. lia.
    + apply Nat.eqb_neq in Hd. intros H. destruct (IH _ _ H) as (H1 & H2 & H3).
      split; [lia|]. split; [done|].
      replace (p - i) with (S (p - S i)) by lia. simpl. rewrite Hopen, Hclose. lia.
  - rewrite orb_false_r.
    destruct (Py.char_at_is text i "," && (depth =? 0)) eqn:Hsep.
    + intros [= <-]. apply andb_true_iff in Hsep as [Hc Hd]. apply Nat.eqb_eq in Hd.
      split; [lia|]. split; [by left|]. rewrite Nat.sub_diag. simpl. lia.
    + intros H. destruct (IH _ _ H) as (H1 & H2 & H3).
      split; [lia|]. split; [done|].
      replace (p - i) with (S (p - S i)) by lia. simpl. rewrite Hopen, Hclose. lia.
Qed.

(** X4. The end that the loop [for part_i in range(i, end)] finds for the
    part that starts at [i] lies in the range, holds a comma or a closing
    bracket, and closes a part in which the brackets are matched: the part
    has as many opening as closing brackets. *)
Theorem part_end_closes_a_matched_part (text : string) (i end_ p : nat) :
  find_part_end (end_ - i) text i 0 = Some p →
  i ≤ p < end_
  ∧ (Py.char_at_is text p "," = true ∨ Py.char_at_is text p "]" = true)
  ∧ count_char "[" text i (p - i) = count_char "]" text i (p - i).
Proof.
  intros H. destruct (find_part_end_spec _ _ _ _ _ H) as (H1 & H2 & H3).
  split; [lia|]. split; [done|]. lia.
Qed.

Lemma part_end_closes_a_matched_part_witness :
  5 ≤ 20 < 24
  ∧ (Py.char_at_is "Dict[Tuple[int, str], X]" 20 "," = true
     ∨ Py.char_at_is "Dict[Tuple[int, str], X]" 20 "]" = true)
  ∧ count_char "[" "Dict[Tuple[int, str], X]" 5 (20 - 5)
    = count_char "]" "Dict[Tuple[int, str], X]" 5 (20 - 5).
Proof.
  apply (part_end_closes_a_matched_part "Dict[Tuple[int, str], X]" 5 24 20).
  vm_compute. reflexivity.
Defined.
(** ** The sibling links that [_append_child] sets *)

Lemma append_child_links l x s ys :
  lists s !! l = Some ys → Forall (valid_node s) ys →
  ∃ s', _append_child l x s = (s', Ok tt)
        ∧ appended_to l ys [x] s s'
        ∧ (∀ r, (1 < length ys → last ys ≠ Some r) → nodes s' !! r = nodes s !! r)
        ∧ (1 < length ys → ∀ z, last ys = Some z → next_of s' z = Some (Some x)).
Proof.
  intros Hl Hys. unfold _append_child.
  rewrite (bind_Ok _ _ _ _ _ (get_list_Ok _ _ _ Hl)).
  destruct (1 <? length ys) eqn:Hlen.
  - apply Nat.ltb_lt in Hlen.
    destruct (last ys) as [z|] eqn:Hlast;
      [|apply last_None in Hlast; subst; simpl in Hlen; lia].
    assert (valid_node s z) as Hz.
    { rewrite Forall_forall in Hys. apply Hys. by eapply last_Some_elem_of. }
    destruct (lookup_lt_is_Some_2 _ _ Hz) as [n Hn].
    unfold bind at 1, set_next. rewrite Hn.
    unfold list_append. cbn [lists set_nodes]. rewrite Hl.
    eexists. split; [done|]. split; [|split].
    + repeat split; simpl; try done. unfold shapes at 1; simpl.
      by apply shapes_set_next.
    + intros r Hr. simpl. apply list_lookup_insert_ne. intros ->. by apply Hr.
    + intros _ z' [= <-]. unfold next_of. simpl.
      rewrite list_lookup_insert_eq by (by eapply lookup_lt_Some). done.
  - apply Nat.ltb_ge in Hlen. rewrite bind_ret_l.
    unfold list_append. rewrite Hl. eexists. split; [done|]. split; [|split].
    + by repeat split.
    + done.
    + intros. lia.
Qed.

(** X5. Appending the nodes [xs], one after the other, to a list that
    holds [ys] (all of them different nodes of the store) leaves the list
    with [ys ++ xs] and links every node to the one appended after it, from
    the second node of the list on: a node at an index [i >= 1] that has
    been followed by an appended node has that node as its [next].  Every
    other node of the store, the first of the list among them, is as it
    was; no node changes its type, children or definition. *)
Theorem appended_children_are_linked (l : list_ref) (xs ys : list node_ref) (s : State) :
  lists s !! l = Some ys → Forall (valid_node s) (ys ++ xs) → NoDup (ys ++ xs) →
  ∃ s', append_children l xs s = (s', Ok tt)
        ∧ appended_to l ys xs s s'
        ∧ (∀ i x y, 1 ≤ i → length ys ≤ S i →
             (ys ++ xs) !! i = Some x → (ys ++ xs) !! S i = Some y →
             next_of s' x = Some (Some y))
        ∧ (∀ r, (∀ i, 1 ≤ i → length ys ≤ S i → S i < length (ys ++ xs) →
                   (ys ++ xs) !! i ≠ Some r) →
             nodes s' !! r = nodes s !! r).
Proof.
  revert s ys. induction xs as [|x xs IH]; intros s ys Hl Hv Hnd.
  - exists s. split; [done|]. split; [by apply appended_to_nil|].
    rewrite app_nil_r. split; [|done].
    intros i x y _ Hi _ Hy. apply lookup_lt_Some in Hy. lia.
  - apply Forall_app in Hv as Hv'. destruct Hv' as [Hys Hxs].
    destruct (append_child_links l x s ys Hl Hys) as (s1 & Hrun & Happ & Hsame & Hlink).
    simpl. rewrite (bind_Ok _ _ _ _ _ Hrun).
    assert (ys ++ x :: xs = (ys ++ [x]) ++ xs) as Heq by (by rewrite <- app_assoc).
    destruct (IH s1 (ys ++ [x])) as (s2 & Hrun2 & Happ2 & Hlinks & Hrest).
    { by eapply appended_to_lookup. }
    { rewrite <- Heq. eapply Forall_impl; [done|].
      intros; by eapply appended_to_valid. }
    { by rewrite <- Heq. }
    exists s2. split; [done|]. split.
    { change (x :: xs) with ([x] ++ xs). by eapply appended_to_trans. }
    rewrite <- Heq in Hlinks, Hrest. rewrite !length_app in Hlinks, Hrest.
    simpl in Hlinks, Hrest. split.
    + intros i a b Hi Hlen Ha Hb.
      destruct (decide (S i = length ys)) as [Hlast|Hlater].
      * assert (last ys = Some a) as Hla.
        { rewrite last_lookup. rewrite lookup_app_l in Ha by lia.
          rewrite <- Ha. f_equal. lia. }
        assert (b = x) as ->.
        { rewrite Hlast in Hb. rewrite lookup_app_r in Hb by lia.
          rewrite Nat.sub_diag in Hb. simpl in Hb. congruence. }
        unfold next_of. rewrite Hrest.
        -- apply (Hlink ltac:(lia) a Hla).
        -- intros j _ Hj _ Hja.
           assert (i = j); [|lia].
           eapply NoDup_lookup; [exact Hnd | exact Ha | exact Hja].
      * apply (Hlinks i a b); [lia | lia | done | done].
    + intros r Hr. transitivity (nodes s1 !! r).
      * apply Hrest. intros j Hj1 Hj2 Hj3. apply Hr; [lia | lia | done].
      * apply Hsame. intros Hlen Hla. apply (Hr (length ys - 1)); [lia | lia | |].
        -- rewrite length_app. simpl. lia.
        -- rewrite lookup_app_l by lia.
           replace (length ys - 1) with (pred (length ys)) by lia.
           by rewrite <- last_lookup.
Qed.

Lemma appended_children_are_linked_witness :
  ∃ s', append_children 0 [1; 2; 3] one_child_more = (s', Ok tt)
        ∧ appended_to 0 [0] [1; 2; 3] one_child_more s'
        ∧ (∀ i x y, 1 ≤ i → length [0] ≤ S i →
             ([0] ++ [1; 2; 3]) !! i = Some x → ([0] ++ [1; 2; 3]) !! S i = Some y →
             next_of s' x = Some (Some y))
        ∧ (∀ r, (∀ i, 1 ≤ i → length [0] ≤ S i → S i < length ([0] ++ [1; 2; 3]) →
                   ([0] ++ [1; 2; 3]) !! i ≠ Some r) →
             nodes s' !! r = nodes one_child_more !! r).
Proof.
  apply (appended_children_are_linked 0 [1; 2; 3] [0] one_child_more).
  - reflexivity.
  - repeat constructor; unfold valid_node; simpl; lia.
  - apply NoDup_ListNoDup. repeat constructor; simpl; intuition lia.
Defined.

(** ** The stores that the manager builds are well formed *)

Lemma grows_refl b s : grows b s s.
Proof. by repeat split. Qed.

Lemma grows_trans b s1 s2 s3 : grows b s1 s2 → grows b s2 s3 → grows b s1 s3.
Proof. intros (H1 & H2 & H3) (H4 & H5 & H6). split; [lia|]. split; [lia|]. eauto. Qed.

Lemma grows_base b b' s s' : b ≤ b' → grows b' s s' → grows b s s'.
Proof.
  intros Hb (H1 & H2 & H3). split; [done|]. split; [done|].
  intros l Hl. apply H3. lia.
Qed.

Lemma stable_True b : stable b (λ _, True).
Proof. done. Qed.

Lemma stable_const b (φ : Prop) : stable b (λ _, φ).
Proof. by intros s s' _ H. Qed.

Lemma stable_and b P Q : stable b P → stable b Q → stable b (λ s, P s ∧ Q s).
Proof. intros HP HQ s s' Hs [H1 H2]. split; eauto. Qed.

Lemma stable_valid_node b x : stable b (λ s, valid_node s x).
Proof. intros s s' (H1 & H2 & _) H. unfold valid_node in *. lia. Qed.

Lemma stable_valid_list b l : stable b (λ s, valid_list s l).
Proof. intros s s' (H1 & H2 & _) H. unfold valid_list in *. lia. Qed.

Lemma stable_valid_nodes b xs : stable b (λ s, Forall (valid_node s) xs).
Proof.
  intros s s' Hs H. eapply Forall_impl; [done|].
  intros x. by apply (stable_valid_node b).
Qed.

Lemma stable_valid_result b r : stable b (valid_result r).
Proof. destruct r; [apply stable_valid_node | done]. Qed.

Lemma stable_valid_loop_result b r : stable b (valid_loop_result r).
Proof. destruct r; [apply stable_valid_result | done]. Qed.

Lemma stable_children_opt b (ch : option list_ref) :
  stable b (λ s, ∀ cl, ch = Some cl → valid_list s cl).
Proof. intros s s' Hs H cl Hcl. eapply stable_valid_list; eauto. Qed.

Lemma stable_children_base b b' (ch : option list_ref) :
  stable b (λ s, ∀ cl, ch = Some cl → valid_list s cl ∧ b' ≤ cl).
Proof.
  intros s s' Hs H cl Hcl. destruct (H cl Hcl). split; [|done].
  by eapply stable_valid_list.
Qed.

Lemma stable_unheld b l : l < b → stable b (λ s, unheld s l).
Proof. intros Hl s s' (_ & _ & H). by apply H. Qed.

Ltac stable_tac :=
  repeat first
    [ apply stable_and | apply stable_True | apply stable_valid_node
    | apply stable_valid_list | apply stable_valid_nodes | apply stable_valid_result
    | apply stable_valid_loop_result | apply stable_children_opt
    | apply stable_children_base
    | apply stable_unheld; lia | apply stable_const ].

Section Hoare.

Context (spec : Specification).

Lemma sound_ret {A} b P (a : A) (Q : A → State → Prop) :
  (∀ s, store_ok spec s → P s → Q a s) → sound spec b P (ret a) Q.
Proof.
  intros HQ s Hok Hb HP. simpl. split; [done|]. split; [apply grows_refl | auto].
Qed.

Lemma sound_raise {A} b P e (Q : A → State → Prop) :
  e ≠ InvalidRef → sound spec b P (raise e) Q.
Proof.
  intros He s Hok Hb HP. simpl. split; [done|]. split; [apply grows_refl | done].
Qed.

(** The rule of sequence; [P0] is the part of the precondition that is
    handed on to what follows. *)
Lemma sound_bind_frame {A B} b P P0 (c : M A) (k : A → M B) Q R :
  (∀ s, P s → P0 s) → stable b P0 → sound spec b P c Q →
  (∀ a, sound spec b (λ s, Q a s ∧ P0 s) (k a) R) →
  sound spec b P (bind c k) R.
Proof.
  intros HP0 Hst Hc Hk s Hok Hb HPs. unfold bind.
  destruct (Hc s Hok Hb HPs) as (Hok1 & Hs1 & HQ).
  destruct (c s) as [s1 [a|e]]; simpl in *; [|done].
  destruct (Hk a s1 Hok1) as (Hok2 & Hs2 & HR).
  { destruct Hs1 as (_ & ? & _). lia. }
  { split; [done|]. eapply Hst; eauto. }
  split; [done|]. split; [by eapply grows_trans | done].
Qed.

Lemma sound_bind {A B} b P (c : M A) (k : A → M B) Q R :
  stable b P → sound spec b P c Q → (∀ a, sound spec b (λ s, Q a s ∧ P s) (k a) R) →
  sound spec b P (bind c k) R.
Proof. intros. by eapply (sound_bind_frame b P P). Qed.

Lemma sound_pre {A} b (P P' : State → Prop) (c : M A) Q :
  (∀ s, store_ok spec s → P' s → P s) → sound spec b P c Q → sound spec b P' c Q.
Proof. intros HP Hc s Hok Hb HPs. apply Hc; auto. Qed.

Lemma sound_post {A} b P (c : M A) (Q Q' : A → State → Prop) :
  (∀ a s, Q a s → Q' a s) → sound spec b P c Q → sound spec b P c Q'.
Proof.
  intros HQ Hc s Hok Hb HPs. destruct (Hc s Hok Hb HPs) as (H1 & H2 & H3).
  split; [done|]. split; [done|]. destruct (c s).2; auto.
Qed.

(** What the precondition says whatever the store can be assumed. *)
Lemma sound_assume {A} b (φ : Prop) P (c : M A) Q :
  (∀ s, store_ok spec s → P s → φ) → (φ → sound spec b P c Q) → sound spec b P c Q.
Proof. intros Hφ Hc s Hok Hb HP. by apply (Hc (Hφ s Hok HP)). Qed.

(** A computation that is sound above [b'] is sound above any smaller
    base, in a store that has [b'] lists. *)
Lemma sound_base {A} b b' P (c : M A) Q :
  b ≤ b' → sound spec b' P c Q →
  sound spec b (λ s, P s ∧ b' ≤ length (lists s)) c Q.
Proof.
  intros Hb Hc s Hok _ [HP Hb']. destruct (Hc s Hok Hb' HP) as (H1 & H2 & H3).
  split; [done|]. split; [by eapply grows_base | done].
Qed.

Lemma typed_node_shape n n' : shape n' = shape n → typed_node spec n → typed_node spec n'.
Proof.
  unfold shape, typed_node. intros [= Hty Hch Hdef]. by rewrite Hty, Hch, Hdef.
Qed.

Lemma shapes_back s s' r n' :
  shapes s' = shapes s → nodes s' !! r = Some n' →
  ∃ n, nodes s !! r = Some n ∧ shape n = shape n'.
Proof.
  intros Hsh Hn'. destruct (shapes_lookup s' s r n' (eq_sym Hsh) Hn') as (n & Hn & E).
  by exists n.
Qed.

Lemma unheld_shapes s s' l : shapes s' = shapes s → unheld s l → unheld s' l.
Proof.
  intros Hsh Hu r n' Hn' Hch. destruct (shapes_back _ _ _ _ Hsh Hn') as (n & Hn & E).
  apply (Hu r n Hn). injection E as _ E _. congruence.
Qed.

(** Well-formedness is about the shapes of the nodes, the lists and the
    dict. *)
Lemma store_ok_shapes s s' :
  shapes s' = shapes s → lists s' = lists s → managed s' = managed s →
  hint_count s' = hint_count s → store_ok spec s → store_ok spec s'.
Proof.
  intros Hsh Hl Hm Hc ((H1 & H2 & H3) & Hr & Hty & Hord & Hreg).
  assert (length (nodes s') = length (nodes s)) as Hlen by (by apply shapes_length).
  split; [repeat split|split; [|split; [|split]]].
  - intros r n' cl Hn' Hcl. destruct (shapes_back _ _ _ _ Hsh Hn') as (n & Hn & E).
    rewrite Hl. eapply H1; [done|]. injection E as _ Hch _. congruence.
  - intros l xs Hxs. rewrite Hl in Hxs. eapply Forall_impl; [by eapply H2|].
    intros x. unfold valid_node. by rewrite Hlen.
  - intros r n' Hn' Hu. destruct (shapes_back _ _ _ _ Hsh Hn') as (n & Hn & E).
    rewrite <- (is_union_shape _ _ E) in Hu.
    destruct (H3 _ _ Hn Hu) as [cl Hcl]. exists cl.
    injection E as _ Hch _. congruence.
  - intros key m r Hk Hroot. unfold valid_node. rewrite Hlen. rewrite Hm in Hk.
    by eapply Hr.
  - intros r n' Hn'. destruct (shapes_back _ _ _ _ Hsh Hn') as (n & Hn & E).
    eapply typed_node_shape; [symmetry; exact E|]. by eapply Hty.
  - intros r n' cl xs Hn' Hcl Hxs. destruct (shapes_back _ _ _ _ Hsh Hn') as (n & Hn & E).
    rewrite Hl in Hxs. eapply Hord; [exact Hn| |exact Hxs].
    injection E as _ Hch _. congruence.
  - unfold registry_ok. by rewrite Hm, Hc.
Qed.

Lemma sound_get_node b P r :
  (∀ s, store_ok spec s → P s → valid_node s r) →
  sound spec b P (get_node r) (λ n s, nodes s !! r = Some n).
Proof.
  intros Hr s Hok Hb HP. unfold get_node.
  destruct (lookup_lt_is_Some_2 _ _ (Hr s Hok HP)) as [n Hn]. rewrite Hn. simpl.
  split; [done|]. split; [apply grows_refl | done].
Qed.

Lemma sound_get_list b P l :
  (∀ s, store_ok spec s → P s → valid_list s l) →
  sound spec b P (get_list l) (λ xs s, Forall (valid_node s) xs).
Proof.
  intros Hl s Hok Hb HP. unfold get_list.
  destruct (lookup_lt_is_Some_2 _ _ (Hl s Hok HP)) as [xs Hxs]. rewrite Hxs. simpl.
  split; [done|]. split; [apply grows_refl|].
  destruct Hok as [(_ & H2 & _) _]. by eapply H2.
Qed.

Lemma sound_get_managed b P key :
  sound spec b P (get_managed key) (λ m s, managed s !! key = Some m).
Proof.
  intros s Hok Hb HP. unfold get_managed.
  destruct (managed s !! key) as [m|] eqn:E; simpl.
  - split; [done|]. split; [apply grows_refl | done].
  - split; [done|]. split; [apply grows_refl | done].
Qed.

Lemma sound_new_list b P :
  sound spec b P new_list
    (λ l s, valid_list s l ∧ unheld s l ∧ b ≤ l ∧ lists s !! l = Some []).
Proof.
  intros s ((H1 & H2 & H3) & Hr & Hty & Hord & Hreg) Hb HP. simpl.
  split; [split; [repeat split|split; [|split; [|split]]]|split; [repeat split|]]; simpl.
  - intros r n cl Hn Hcl. rewrite length_app. specialize (H1 _ _ _ Hn Hcl). lia.
  - intros l xs Hxs. apply lookup_app_Some in Hxs as [Hxs|[_ Hxs]].
    + by eapply H2.
    + destruct (l - length (lists s)); simpl in Hxs; by simplify_eq.
  - done.
  - done.
  - done.
  - intros r n cl xs Hn Hcl Hxs. apply lookup_app_Some in Hxs as [Hxs|[Hge Hxs]].
    + by eapply Hord.
    + specialize (H1 _ _ _ Hn Hcl). lia.
  - done.
  - lia.
  - rewrite length_app. lia.
  - done.
  - repeat split.
    + unfold valid_list. simpl. rewrite length_app. simpl. lia.
    + intros r n Hn Hcl. specialize (H1 _ _ _ Hn Hcl). lia.
    + done.
    + rewrite lookup_app_r by done. by rewrite Nat.sub_diag.
Qed.

Lemma sound_new_node b P n :
  (∀ s, store_ok spec s → P s →
     (∀ cl, children n = Some cl → valid_list s cl ∧ (b ≤ cl ∨ ¬ unheld s cl))
     ∧ (is_union n = true → is_Some (children n))
     ∧ typed_node spec n) →
  sound spec b P (new_node n) (λ r s, valid_node s r).
Proof.
  intros Hn s Hok Hb HP. destruct (Hn s Hok HP) as (Hch & Hun & Htn).
  destruct Hok as ((H1 & H2 & H3) & Hr & Hty & Hord & Hreg). simpl.
  split; [split; [repeat split|split; [|split; [|split]]]|split; [repeat split|]]; simpl.
  - intros r n' cl Hn' Hcl. apply lookup_app_Some in Hn' as [Hn'|[_ Hn']].
    + by eapply H1.
    + destruct (r - length (nodes s)); simpl in Hn'; simplify_eq. by eapply Hch.
  - intros l xs Hxs. eapply Forall_impl; [by eapply H2|].
    intros x. unfold valid_node. simpl. rewrite length_app. lia.
  - intros r n' Hn' Hu. apply lookup_app_Some in Hn' as [Hn'|[_ Hn']].
    + by eapply H3.
    + destruct (r - length (nodes s)); simpl in Hn'; simplify_eq. auto.
  - intros key m r Hm Hroot. unfold valid_node. simpl. rewrite length_app.
    specialize (Hr _ _ _ Hm Hroot). unfold valid_node in Hr. lia.
  - intros r n' Hn'. apply lookup_app_Some in Hn' as [Hn'|[_ Hn']].
    + by eapply Hty.
    + destruct (r - length (nodes s)); simpl in Hn'; by simplify_eq.
  - intros r n' cl xs Hn' Hcl Hxs. apply lookup_app_Some in Hn' as [Hn'|[Hge Hn']].
    + by eapply Hord.
    + destruct (r - length (nodes s)) eqn:E; simpl in Hn'; simplify_eq.
      eapply Forall_impl; [by eapply H2|]. unfold valid_node. intros x Hx. simpl in *. lia.
  - done.
  - rewrite length_app. lia.
  - done.
  - intros l Hl Hu r n' Hn' Hcl. apply lookup_app_Some in Hn' as [Hn'|[_ Hn']].
    + by eapply Hu.
    + destruct (r - length (nodes s)); simpl in Hn'; simplify_eq.
      destruct (Hch _ Hcl) as [_ [Hge|Hheld]]; [lia | done].
  - unfold valid_node. simpl. rewrite length_app. simpl. lia.
Qed.

Lemma sound_set_next b P r nx :
  (∀ s, store_ok spec s → P s → valid_node s r) →
  sound spec b P (set_next r nx) (λ _ _, True).
Proof.
  intros Hr s Hok Hb HP. unfold set_next.
  destruct (lookup_lt_is_Some_2 _ _ (Hr s Hok HP)) as [n Hn]. rewrite Hn. simpl.
  assert (shapes (set_nodes
            (λ ns, <[r := mkTypeHintNode (type n) (children n) (definition n) nx]> ns) s)
          = shapes s) as Hsh by (by apply shapes_set_next).
  split; [|split; [|done]].
  - by eapply store_ok_shapes; [exact Hsh | | | |].
  - split; [simpl; by rewrite length_insert|]. split; [done|].
    intros l _. by apply unheld_shapes.
Qed.

Lemma sound_list_append b P l x :
  (∀ s, store_ok spec s → P s → valid_list s l ∧ valid_node s x ∧ unheld s l) →
  sound spec b P (list_append l x) (λ _ _, True).
Proof.
  intros Hlx s Hok Hb HP. destruct (Hlx s Hok HP) as (Hl & Hx & Hu). unfold list_append.
  destruct (lookup_lt_is_Some_2 _ _ Hl) as [xs Hxs]. rewrite Hxs. simpl.
  destruct Hok as ((H1 & H2 & H3) & Hr & Hty & Hord & Hreg).
  split; [split; [repeat split|split; [|split; [|split]]]|split; [repeat split|]];
    simpl; try done.
  - intros r n cl Hn Hcl. rewrite length_insert. by eapply H1.
  - intros l' ys Hys. destruct (decide (l = l')) as [->|Hne].
    + rewrite list_lookup_insert_eq in Hys by done. simplify_eq.
      apply Forall_app. split; [by eapply H2 | by apply Forall_singleton].
    + rewrite list_lookup_insert_ne in Hys by done. by eapply H2.
  - intros r n cl ys Hn Hcl Hys. simpl in Hn, Hys.
    destruct (decide (l = cl)) as [->|Hne].
    + by destruct (Hu r n Hn).
    + rewrite list_lookup_insert_ne in Hys by done. by eapply Hord.
  - by rewrite length_insert.
Qed.

Lemma sound_update_managed b P key f :
  (∀ m, type_hint (f m) = type_hint m) →
  (∀ s m, store_ok spec s → P s → managed s !! key = Some m → valid_result (root (f m)) s) →
  sound spec b P (update_managed key f) (λ _ _, True).
Proof.
  intros Hth Hf s Hok Hb HP. unfold update_managed.
  destruct (managed s !! key) as [m|] eqn:E; simpl.
  - split; [|split; [by repeat split | done]].
    specialize (Hf s m Hok HP E).
    destruct Hok as (Hc & Hr & Hty & Hord & Hreg).
    split; [done|]. split; [|split; [done|split; [done|]]]; simpl.
    + intros key' m' r Hm' Hroot. destruct (decide (key = key')) as [->|Hne].
      * rewrite lookup_insert_eq in Hm'. simplify_eq. by rewrite Hroot in Hf.
      * rewrite lookup_insert_ne in Hm' by done. by eapply Hr.
    + destruct Hreg as [Hk Hinj]. unfold registry_ok. simpl. split.
      * intros key' m' Hm'. destruct (decide (key = key')) as [->|Hne].
        -- rewrite lookup_insert_eq in Hm'. simplify_eq. rewrite Hth. by apply Hk.
        -- rewrite lookup_insert_ne in Hm' by done. by apply Hk.
      * assert (∀ k m', <[key:=f m]> (managed s) !! k = Some m' →
                  ∃ m0, managed s !! k = Some m0 ∧ type_hint m' = type_hint m0) as Hold.
        { intros k m' Hm'. destruct (decide (key = k)) as [->|Hne].
          - rewrite lookup_insert_eq in Hm'. simplify_eq. by exists m.
          - rewrite lookup_insert_ne in Hm' by done. by exists m'. }
        intros k1 k2 m1 m2 Hm1 Hm2 Hid.
        destruct (Hold _ _ Hm1) as (m1' & Hm1' & E1).
        destruct (Hold _ _ Hm2) as (m2' & Hm2' & E2).
        eapply Hinj; [exact Hm1' | exact Hm2' | congruence].
  - split; [done|]. split; [apply grows_refl | done].
Qed.

(** An update of a managed hint that leaves its root as it is. *)
Lemma sound_update_managed_same_root b P key f :
  (∀ m, type_hint (f m) = type_hint m) → (∀ m, root (f m) = root m) →
  sound spec b P (update_managed key f) (λ _ _, True).
Proof.
  intros Hth Hf. apply sound_update_managed; [done|].
  intros s m (_ & Hr & _) _ Hm. rewrite Hf.
  destruct (root m) as [r|] eqn:E; simpl; [by eapply Hr | done].
Qed.

End Hoare.

Ltac sound_bind_tac :=
  eapply sound_bind; [ solve [stable_tac] | | intros ?; cbv beta ].

Ltac sound_bind_with post :=
  eapply (sound_bind _ _ _ _ _ post); [ solve [stable_tac] | | intros ?; cbv beta ].

Ltac sound_bind_frame frame :=
  eapply (sound_bind_frame _ _ _ frame);
    [ | solve [stable_tac] | | intros ?; cbv beta ].

Lemma find_elem_of {A} (f : A → bool) (l : list A) x :
  List.find f l = Some x → x ∈ l ∧ f x = true.
Proof. intros H. apply find_some in H as [H1 H2]. by rewrite list_elem_of_In. Qed.

Section Sound.

Context (env : Collaborators) (spec : Specification).

Lemma sound_append_child b l x :
  l < b →
  sound spec b (λ s, valid_list s l ∧ valid_node s x ∧ unheld s l)
    (_append_child l x) (λ _ _, True).
Proof.
  intros Hlb. unfold _append_child.
  sound_bind_tac; [apply sound_get_list; by intros s _ []|].
  sound_bind_with (λ (_ : unit) (_ : State), True).
  - destruct (1 <? length a) eqn:Hlen; [|by apply sound_ret].
    destruct (last a) as [z|] eqn:Hlast.
    + apply sound_set_next. intros s _ [Hxs _].
      rewrite Forall_forall in Hxs. apply Hxs. by eapply last_Some_elem_of.
    + apply last_None in Hlast. by subst a.
  - apply sound_list_append. by intros s _ (_ & _ & H).
Qed.

Section Body.

Variable parse_node_rec : bool → string → nat → option nat → M (option node_ref).
Hypothesis rec_sound : ∀ b out text start end_,
  sound spec b (λ _, True) (parse_node_rec out text start end_) valid_result.

Lemma sound_parse_with b key out :
  sound spec b (λ _, True) (parse_with parse_node_rec key out) (λ _ _, True).
Proof.
  unfold parse_with. sound_bind_frame (λ _ : State, True); [done|apply sound_get_managed|].
  destruct (bool_decide (parse_state a = REQUIRED)); [|by apply sound_ret].
  sound_bind_frame (λ _ : State, True);
    [done|by apply sound_update_managed_same_root|].
  sound_bind_tac; [eapply sound_pre; [|apply rec_sound]; done|].
  sound_bind_tac.
  - apply sound_update_managed; [done|]. by intros s m _ (Hr & _) _.
  - by apply sound_update_managed_same_root.
Qed.

Lemma sound_copy_type_hint_with b th out :
  sound spec b (λ _, True) (copy_type_hint_with parse_node_rec th out) valid_result.
Proof.
  unfold copy_type_hint_with.
  sound_bind_frame (λ _ : State, True); [done|apply sound_get_managed|].
  sound_bind_frame (λ _ : State, True);
    [done|eapply sound_pre; [|apply sound_parse_with]; done|].
  sound_bind_frame (λ _ : State, True); [done|apply sound_get_managed|].
  destruct (root a1) as [r|] eqn:Hr; [|by apply sound_ret].
  sound_bind_frame (λ _ : State, True); [done| |].
  { apply sound_get_node. intros s (_ & Hroots & _) (Hm & _). by eapply Hroots. }
  sound_bind_frame (λ _ : State, True); [done| |].
  { apply sound_new_node.
    intros s ((H1 & _ & H3) & _ & Hty & _) (Hn & _). split; [|split].
    - intros cl Hcl. simpl in Hcl. split; [by eapply H1|].
      right. intros Hu. by apply (Hu _ _ Hn).
    - intros Hu. simpl. eapply H3; [exact Hn | exact Hu].
    - eapply typed_node_shape; [|by eapply Hty]. done. }
  apply sound_ret. by intros s _ (H & _).
Qed.

Lemma sound_substitute_with b ths out :
  sound spec b (λ _, True) (substitute_with parse_node_rec ths out) valid_loop_result.
Proof.
  unfold substitute_with. destruct (override_hint ths out) as [th|]; [|by apply sound_ret].
  sound_bind_frame (λ _ : State, True); [done|apply sound_get_managed|].
  destruct (bool_decide (parse_state a ≠ PARSING)); [|by apply sound_ret].
  sound_bind_frame (λ _ : State, True);
    [done|eapply sound_pre; [|apply sound_copy_type_hint_with]; done|].
  apply sound_ret. by intros s _ (H & _).
Qed.

Lemma sound_lookup_parts b len part_i parts out sk sm :
  sound spec b (λ _, True) (lookup_parts spec parse_node_rec len part_i parts out sk sm)
    valid_loop_result.
Proof.
  revert part_i sk sm. induction parts as [|part parts IH]; intros part_i sk sm; simpl.
  - by apply sound_ret.
  - destruct (_lookup_enum spec part _) as [enum|] eqn:Henum.
    { destruct (part_i + 1 =? len); [|by apply sound_ret].
      sound_bind_tac.
      { apply sound_new_node. intros s _ _. split; [done|]. split; [done|].
        apply find_elem_of in Henum as [Hin _]. by split. }
      apply sound_ret. by intros s _ (H & _). }
    destruct sm; [by apply sound_ret|].
    destruct (match sk with None => _ | Some _ => None end) as [mapped_type|].
    { destruct (part_i + 1 =? len); [|apply IH].
      sound_bind_tac; [apply sound_substitute_with|].
      destruct a; apply sound_ret; by intros s _ (H & _). }
    destruct (_lookup_class spec part sk) as [klass|] eqn:Hklass; [|by apply sound_ret].
    destruct (part_i + 1 =? len); [|apply IH].
    sound_bind_tac; [apply sound_substitute_with|].
    destruct a; [apply sound_ret; by intros s _ (H & _)|].
    sound_bind_tac.
    { apply sound_new_node. intros s _ _. split; [done|]. split; [done|].
      apply find_elem_of in Hklass as [Hin Hf].
      apply andb_true_iff in Hf as [Hf _]. apply andb_true_iff in Hf as [_ Hf].
      apply negb_true_iff in Hf. by repeat split. }
    apply sound_ret. by intros s _ (H & _).
Qed.

Lemma sound_lookup_type_with b name out :
  name ∉ _TYPING_MODULE →
  sound spec b (λ _, True) (lookup_type_with env spec parse_node_rec name out) valid_result.
Proof.
  intros Hname. unfold lookup_type_with. sound_bind_tac; [apply sound_lookup_parts|].
  destruct a; [apply sound_ret; by intros s _ (H & _)|].
  sound_bind_tac; [apply sound_new_node; by intros s _ _|].
  apply sound_ret. by intros s _ (H & _).
Qed.

Lemma sound_parse_parts b n out text end_ children i :
  children < b →
  sound spec b (λ s, valid_list s children ∧ unheld s children)
    (parse_parts parse_node_rec n out text end_ children i) (λ _ _, True).
Proof.
  intros Hb. revert i. induction n as [|n IH]; intros i; simpl.
  - by apply sound_raise.
  - destruct (find_part_end _ _ _ _) as [part_i|]; [|by apply sound_ret].
    sound_bind_tac; [eapply sound_pre; [|apply rec_sound]; done|].
    sound_bind_with (λ (_ : unit) (_ : State), True).
    + destruct a as [c|]; [|by apply sound_ret].
      eapply sound_pre; [|by apply sound_append_child]. by intros s _ (H1 & H2 & H3).
    + eapply sound_pre; [|apply IH]. by intros s _ (_ & _ & H).
Qed.

Lemma sound_append_children b flattened grandchildren :
  flattened < b →
  sound spec b
    (λ s, (valid_list s flattened ∧ unheld s flattened)
          ∧ Forall (valid_node s) grandchildren)
    (append_children flattened grandchildren) (λ _ _, True).
Proof.
  intros Hb. induction grandchildren as [|g gs IH]; simpl.
  - by apply sound_ret.
  - sound_bind_tac.
    + eapply sound_pre; [|by apply sound_append_child].
      intros s _ [[H1 H2] H3]. apply Forall_cons in H3 as []. done.
    + eapply sound_pre; [|apply IH].
      intros s _ (_ & H1 & H2). split; [done|]. by apply Forall_cons in H2 as [].
Qed.

Lemma sound_flatten_unions b flattened child_refs :
  flattened < b →
  sound spec b
    (λ s, (valid_list s flattened ∧ unheld s flattened)
          ∧ Forall (valid_node s) child_refs)
    (flatten_unions flattened child_refs) (λ _ _, True).
Proof.
  intros Hb. induction child_refs as [|c cs IH]; simpl.
  - by apply sound_ret.
  - sound_bind_tac.
    { apply sound_get_node. intros s _ [_ H]. by apply Forall_cons in H as []. }
    eapply (sound_bind_frame spec b _
              (λ s, (valid_list s flattened ∧ unheld s flattened)
                    ∧ Forall (valid_node s) (c :: cs)) _ _ (λ _ _, True));
      [by intros s [_ H] | solve [stable_tac] | | intros _; cbv beta].
    + destruct (is_union a) eqn:Hun.
      * destruct (children a) as [gl|] eqn:Hgl; [|by apply sound_raise].
        sound_bind_frame (λ s, valid_list s flattened ∧ unheld s flattened).
        { by intros s (_ & H & _). }
        { apply sound_get_list. intros s ((H1 & _) & _) (Hn & _). by eapply H1. }
        eapply sound_pre; [|by apply sound_append_children].
        by intros s _ (H1 & H2).
      * eapply sound_pre; [|by apply sound_append_child].
        intros s _ (_ & (H1 & H2) & H3). apply Forall_cons in H3 as []. done.
    + eapply sound_pre; [|apply IH].
      intros s _ (_ & H1 & H2). split; [done|]. by apply Forall_cons in H2 as [].
Qed.

Lemma sound_make_node b out text top_level name_start name_end children :
  sound spec b (λ s, ∀ cl, children = Some cl → valid_list s cl ∧ b ≤ cl)
    (make_node env spec parse_node_rec out text top_level name_start name_end children)
    valid_result.
Proof.
  unfold make_node. destruct (bool_decide (name_start ≠ name_end)).
  - destruct (bool_decide (_ ∈ _TYPING_MODULE)) eqn:Htyping.
    + apply bool_decide_eq_true in Htyping.
      destruct (bool_decide (_ = "Union")) eqn:Hname.
      * destruct children as [ch|]; [|by apply sound_raise].
        sound_bind_frame (λ _ : State, True); [done| |].
        { apply sound_get_list. intros s _ Hs. by apply Hs. }
        destruct (length a =? 0); [by apply sound_ret|].
        sound_bind_tac; [apply sound_new_list|].
        apply (sound_assume spec b (b ≤ a0)); [by intros s _ ((_ & _ & H & _) & _)|].
        intros Hba0.
        sound_bind_frame (λ s, valid_list s a0 ∧ b ≤ a0).
        { intros s ((H1 & _ & H2 & _) & _). by split. }
        { eapply sound_pre;
            [|apply (sound_base spec b (S a0)); [|apply sound_flatten_unions; lia]].
          - intros s _ ((H1 & H2 & H3 & _) & H4 & _). done.
          - lia. }
        sound_bind_tac.
        { apply sound_new_node. intros s _ (_ & H1 & H2).
          split; [|split; [by eauto | done]].
          intros cl Hcl. simpl in Hcl. simplify_eq. split; [done | by left]. }
        apply sound_ret. by intros s _ (H1 & _).
      * sound_bind_tac.
        { apply sound_new_node. intros s _ Hs. split; [|split; [|done]].
          - intros cl Hcl. destruct (Hs cl Hcl). split; [done | by left].
          - intros Hun. apply andb_true_iff in Hun as [_ Hun].
            cbn [definition] in Hun. congruence. }
        apply sound_ret. by intros s _ (H1 & _).
    + apply bool_decide_eq_false in Htyping.
      destruct children; [by apply sound_raise|].
      eapply sound_pre; [|by apply sound_lookup_type_with]. done.
  - sound_bind_with (λ (_ : bool) (_ : State), True).
    + destruct top_level; [|by apply sound_ret].
      destruct children as [ch|]; [|by apply sound_ret].
      sound_bind_tac; [apply sound_get_list; intros s _ Hs; by apply Hs|].
      by apply sound_ret.
    + destruct a; [by apply sound_raise|].
      sound_bind_tac.
      { apply sound_new_node. intros s _ (_ & Hs). split; [|split; [|done]].
        - intros cl Hcl. destruct (Hs cl Hcl). split; [done | by left].
        - intros Hun. by vm_compute in Hun. }
      apply sound_ret. by intros s _ (H1 & _).
Qed.

Lemma sound_parse_node_body b out text start end_ :
  sound spec b (λ _, True) (parse_node_body env spec parse_node_rec out text start end_)
    valid_result.
Proof.
  unfold parse_node_body. destruct (match end_ with None => _ | Some e => _ end) as [e top].
  destruct (Py.find _ _) as [i|].
  - sound_bind_tac; [apply sound_new_list|].
    destruct (negb _); [by apply sound_raise|].
    apply (sound_assume spec b (b ≤ a)); [by intros s _ ((_ & _ & H & _) & _)|].
    intros Hba.
    sound_bind_frame (λ s, valid_list s a ∧ b ≤ a).
    + intros s ((H1 & _ & H2 & _) & _). by split.
    + eapply sound_pre;
        [|apply (sound_base spec b (S a)); [|apply sound_parse_parts; lia]].
      * by intros s _ ((H1 & H2 & _) & _).
      * lia.
    + eapply sound_pre; [|apply sound_make_node].
      intros s _ (_ & H1) cl Hcl. by simplify_eq.
  - eapply sound_pre; [|apply sound_make_node]. done.
Qed.

End Body.

Lemma sound_parse_node b fuel out text start end_ :
  sound spec b (λ _, True) (_parse_node env spec fuel out text start end_) valid_result.
Proof.
  revert b out text start end_. induction fuel as [|fuel IH]; intros; simpl.
  - by apply sound_raise.
  - by apply sound_parse_node_body.
Qed.

Lemma sound_map_M {B} b (f : node_ref → M B) l :
  (∀ x, sound spec b (λ s, valid_node s x) (f x) (λ _ _, True)) →
  sound spec b (λ s, Forall (valid_node s) l) (map_M f l) (λ _ _, True).
Proof.
  intros Hf. induction l as [|x l IH]; simpl.
  - by apply sound_ret.
  - sound_bind_tac.
    { eapply sound_pre; [|apply Hf]. intros s _ Hs. by apply Forall_cons in Hs as []. }
    sound_bind_tac.
    { eapply sound_pre; [|apply IH]. intros s _ (_ & Hs). by apply Forall_cons in Hs as []. }
    by apply sound_ret.
Qed.

Lemma sound_render_node b fuel r out pep484 rest_ref module defined :
  sound spec b (λ s, valid_node s r)
    (_render_node env spec fuel r out pep484 rest_ref module defined) (λ _ _, True).
Proof.
  revert r. induction fuel as [|fuel IH]; intros r; simpl.
  - by apply sound_raise.
  - sound_bind_frame (λ _ : State, True); [done|by apply sound_get_node|].
    apply (sound_pre spec b (λ s, ∀ cl, children a = Some cl → valid_list s cl)).
    { intros s ((H1 & _) & _) (Hn & _) cl Hcl. by eapply H1. }
    destruct (type a).
    + sound_bind_with (λ (_ : string) (_ : State), True).
      { destruct (definition a) as [[]|]; by first [apply sound_ret | apply sound_raise]. }
      destruct (children a) as [cl|] eqn:Hcl; [|by apply sound_ret].
      sound_bind_tac.
      { apply sound_get_list. intros s _ (_ & Hs). by apply Hs. }
      sound_bind_tac.
      { eapply sound_pre; [|apply sound_map_M, IH]. by intros s _ (Hs & _). }
      by apply sound_ret.
    + destruct (definition a) as [[]|]; by first [apply sound_ret | apply sound_raise].
    + destruct (definition a) as [[]|]; by first [apply sound_ret | apply sound_raise].
    + destruct (definition a) as [[]|]; by first [apply sound_ret | apply sound_raise].
Qed.

End Sound.

Section SoundCalls.

Context (env : Collaborators) (spec : Specification).

Lemma sound_parse b fuel key out :
  sound spec b (λ _, True) (_parse env spec fuel key out) (λ _ _, True).
Proof. apply sound_parse_with. intros. apply sound_parse_node. Qed.

Lemma sound_render b fuel key out pep484 rest_ref module defined :
  sound spec b (λ _, True) (_render env spec fuel key out pep484 rest_ref module defined)
    (λ _ _, True).
Proof.
  unfold _render. sound_bind_tac; [apply sound_parse|].
  sound_bind_frame (λ _ : State, True); [done|apply sound_get_managed|].
  destruct (root a0) as [r|] eqn:Hr; [|by apply sound_ret].
  eapply sound_pre; [|apply sound_render_node].
  intros s (_ & Hroots & _) (Hm & _). by eapply Hroots.
Qed.

Lemma sound_manager_rest_ref b fuel th out :
  sound spec b (λ _, True) (manager_rest_ref env spec fuel th out) (λ _ _, True).
Proof.
  unfold manager_rest_ref.
  sound_bind_frame (λ _ : State, True); [done|apply sound_get_managed|].
  destruct (rest_ref a); [by apply sound_ret|].
  sound_bind_frame (λ _ : State, True);
    [done|eapply sound_pre; [|apply sound_render]; done|].
  sound_bind_tac; [by apply sound_update_managed_same_root|].
  by apply sound_ret.
Qed.

Lemma sound_get_type_hint b txt :
  sound spec b (λ _, True) (get_type_hint txt) (λ _ _, True).
Proof.
  intros s Hok _ _. unfold get_type_hint.
  destruct (managed s !! txt) as [m|] eqn:E; simpl.
  - split; [done|]. split; [apply grows_refl | done].
  - split; [|split; [by repeat split | done]].
    destruct Hok as (Hc & Hr & Hty & Hord & Hk & Hinj).
    split; [done|]. split; [|split; [done|split; [done|]]]; simpl.
    + intros key m r Hm Hroot. destruct (decide (txt = key)) as [<-|Hne].
      * rewrite lookup_insert_eq in Hm. by simplify_eq.
      * rewrite lookup_insert_ne in Hm by done. by eapply Hr.
    + unfold registry_ok. simpl. split.
      * intros key m Hm. destruct (decide (txt = key)) as [<-|Hne].
        -- rewrite lookup_insert_eq in Hm. simplify_eq. simpl. split; [done | lia].
        -- rewrite lookup_insert_ne in Hm by done. destruct (Hk _ _ Hm). split; [done | lia].
      * intros k1 k2 m1 m2 Hm1 Hm2 Hid.
        destruct (decide (txt = k1)) as [<-|Hne1];
          destruct (decide (txt = k2)) as [<-|Hne2]; [done| | |].
        -- rewrite lookup_insert_eq in Hm1. rewrite lookup_insert_ne in Hm2 by done.
           simplify_eq. simpl in Hid. destruct (Hk _ _ Hm2). lia.
        -- rewrite lookup_insert_eq in Hm2. rewrite lookup_insert_ne in Hm1 by done.
           simplify_eq. simpl in Hid. destruct (Hk _ _ Hm1). lia.
        -- rewrite lookup_insert_ne in Hm1, Hm2 by done. by eapply Hinj.
Qed.

Lemma store_ok_new_manager : store_ok spec new_manager.
Proof.
  unfold store_ok, heap_closed, typed, ordered, registry_ok. simpl.
  split; [split; [|split]|split; [|split; [|split; [|split]]]].
  - intros r n cl Hn. by rewrite lookup_nil in Hn.
  - intros l xs Hxs. by rewrite lookup_nil in Hxs.
  - intros r n Hn. by rewrite lookup_nil in Hn.
  - intros key m r Hm. by rewrite lookup_empty in Hm.
  - intros r n Hn. by rewrite lookup_nil in Hn.
  - intros r n cl xs Hn. by rewrite lookup_nil in Hn.
  - intros key m Hm. by rewrite lookup_empty in Hm.
  - intros k1 k2 m1 m2 Hm. by rewrite lookup_empty in Hm.
Qed.

Lemma store_ok_run_call c s : store_ok spec s → store_ok spec (run_call env spec c s).
Proof.
  intros Hok. destruct c; simpl.
  - apply (sound_get_type_hint 0); [done | lia | done].
  - apply (sound_manager_rest_ref 0); [done | lia | done].
  - apply (sound_render 0); [done | lia | done].
Qed.

Lemma store_ok_run_calls cs s : store_ok spec s → store_ok spec (run_calls env spec cs s).
Proof.
  revert s. induction cs as [|c cs IH]; intros s Hok; simpl; [done|].
  by apply IH, store_ok_run_call.
Qed.

Lemma store_ok_reachable cs : store_ok spec (run_calls env spec cs new_manager).
Proof. apply store_ok_run_calls, store_ok_new_manager. Qed.

(** X6. Every store that the manager reaches from its creation by calls
    of its methods is closed: the list of children of a node is a list of
    the store, the items of a list are nodes of the store, and a [Union]
    node of the typing module always has a list of children, so that the
    flattening never iterates over [None]. *)
Theorem reachable_stores_are_closed (cs : list (Call env)) :
  heap_closed (run_calls env spec cs new_manager).
Proof. apply store_ok_reachable. Qed.

(** X7. In every store that the manager reaches, a node holds what its
    type says: a [TYPING] node a name of the typing module or nothing, a
    [CLASS] node a class of the symbol table that is not external, an
    [ENUM] node an enum of the symbol table, and an [OTHER] node a name
    that is not of the typing module (so never [Any]); only [TYPING] nodes
    have children. *)
Theorem reachable_nodes_are_typed (cs : list (Call env)) (r : node_ref)
    (n : TypeHintNode) :
  nodes (run_calls env spec cs new_manager) !! r = Some n →
  match type n, definition n with
  | TYPING, None => True
  | TYPING, Some (DefStr d) => d ∈ _TYPING_MODULE
  | CLASS, Some (DefClass k) => children n = None ∧ k ∈ classes spec ∧ external k = false
  | ENUM, Some (DefEnum e) => children n = None ∧ e ∈ enums spec
  | OTHER, Some (DefStr d) => children n = None ∧ d ∉ _TYPING_MODULE
  | _, _ => False
  end.
Proof.
  intros Hn. destruct (store_ok_reachable cs) as (_ & _ & Hty & _).
  apply (Hty r n Hn).
Qed.

(** X8. In every store that the manager reaches, the children of a node
    were all made before the node: no node is among its own descendants,
    and the trees are finite. *)
Theorem children_precede_parents (cs : list (Call env)) (r : node_ref)
    (n : TypeHintNode) (cl : list_ref) (xs : list node_ref) :
  nodes (run_calls env spec cs new_manager) !! r = Some n →
  children n = Some cl →
  lists (run_calls env spec cs new_manager) !! cl = Some xs →
  Forall (λ x, x < r) xs.
Proof.
  intros Hn Hcl Hxs. destruct (store_ok_reachable cs) as (_ & _ & _ & Hord & _).
  by eapply Hord.
Qed.

(** X9. In every store that the manager reaches, [get_type_hint] returns
    a hint that has the text asked for, and two calls return the same
    [TypeHint] object exactly when they are given the same text. *)
Theorem one_hint_per_text (cs : list (Call env)) (text1 text2 : string) :
  let s := run_calls env spec cs new_manager in
  ∃ th1 th2 s1 s2,
    get_type_hint text1 s = (s1, Ok th1)
    ∧ get_type_hint text2 s1 = (s2, Ok th2)
    ∧ text th1 = text1 ∧ text th2 = text2
    ∧ (hint_id th1 = hint_id th2 ↔ text1 = text2).
Proof.
  intros s.
  assert (store_ok spec s) as Hok by apply store_ok_reachable.
  assert (∀ t s0, store_ok spec s0 →
            ∃ th m, get_type_hint t s0 = ((get_type_hint t s0).1, Ok th)
                    ∧ managed (get_type_hint t s0).1 !! t = Some m
                    ∧ type_hint m = th
                    ∧ store_ok spec (get_type_hint t s0).1
                    ∧ (∀ k m0, managed s0 !! k = Some m0 →
                         managed (get_type_hint t s0).1 !! k = Some m0)) as Hget.
  { intros t s0 Hok0.
    assert (store_ok spec (get_type_hint t s0).1) as Hok1
      by (apply (sound_get_type_hint 0); [done | lia | done]).
    revert Hok1. unfold get_type_hint.
    destruct (managed s0 !! t) as [m|] eqn:E; simpl; intros Hok1.
    - by exists (type_hint m), m.
    - eexists _, _. split; [done|]. split; [apply lookup_insert_eq|].
      split; [done|]. split; [done|].
      intros k m0 Hm0. rewrite lookup_insert_ne; [done|]. intros ->. congruence. }
  destruct (Hget text1 s Hok) as (th1 & m1 & Hrun1 & Hm1 & Hth1 & Hok1 & Hkeep1).
  destruct (Hget text2 _ Hok1) as (th2 & m2 & Hrun2 & Hm2 & Hth2 & Hok2 & Hkeep2).
  exists th1, th2, (get_type_hint text1 s).1,
    (get_type_hint text2 (get_type_hint text1 s).1).1.
  split; [done|]. split; [done|].
  destruct Hok2 as (_ & _ & _ & _ & Hk & Hinj).
  pose proof (Hkeep2 _ _ Hm1) as Hm1'.
  split; [|split].
  - rewrite <- Hth1. by apply (Hk _ _ Hm1').
  - rewrite <- Hth2. by apply (Hk _ _ Hm2).
  - split.
    + intros Hid. eapply Hinj; [exact Hm1' | exact Hm2 | congruence].
    + intros ->. congruence.
Qed.

(** X18. No call of the manager follows a reference that is not there:
    in every store that the manager reaches, a render and a
    cross-reference find every node, every list of children and every
    child that they look for. *)
Theorem calls_never_dangle (cs : list (Call env)) (fuel : nat) (key : string)
    (th : TypeHint) (out pep484 rr : bool) (module : option (module_t env))
    (defined : option (defined_t env)) :
  (_render env spec fuel key out pep484 rr module defined
     (run_calls env spec cs new_manager)).2 ≠ Raise InvalidRef
  ∧ (manager_rest_ref env spec fuel th out (run_calls env spec cs new_manager)).2
    ≠ Raise InvalidRef.
Proof.
  pose proof (store_ok_reachable cs) as Hok. split.
  - destruct (sound_render 0 fuel key out pep484 rr module defined _ Hok) as (_ & _ & H);
      [lia | done |].
    intros E. rewrite E in H. by apply H.
  - destruct (sound_manager_rest_ref 0 fuel th out _ Hok) as (_ & _ & H); [lia | done |].
    intros E. rewrite E in H. by apply H.
Qed.

End SoundCalls.

Lemma reachable_nodes_are_typed_witness :
  children (class_node Foo) = None ∧ Foo ∈ classes foo_bar_spec ∧ external Foo = false.
Proof.
  apply (reachable_nodes_are_typed sample_env foo_bar_spec
           [Call_get_type_hint "Foo"; Call_render 5 "Foo" true false false None None]
           0 (class_node Foo)).
  vm_compute. reflexivity.
Defined.

Lemma children_precede_parents_witness : Forall (λ x, x < 1) [0].
Proof.
  apply (children_precede_parents sample_env empty_spec
           [Call_get_type_hint "List[int]";
            Call_render 5 "List[int]" true true false None None]
           1 (mkTypeHintNode TYPING (Some 0) (Some (DefStr "List")) None) 0 [0]).
  - vm_compute. reflexivity.
  - reflexivity.
  - vm_compute. reflexivity.
Defined.

(** ** A parsed hint can always be rendered *)

Lemma map_M_total {A B} (f : A → M B) l s :
  (∀ x, x ∈ l → ∃ y, f x s = (s, Ok y)) → ∃ ys, map_M f l s = (s, Ok ys).
Proof.
  induction l as [|x l IH]; intros Hf; simpl.
  - by eexists.
  - destruct (Hf x) as [y Hy]; [by left|].
    destruct IH as [ys Hys]; [intros z Hz; apply Hf; by right|].
    rewrite (bind_Ok _ _ _ _ _ Hy), (bind_Ok _ _ _ _ _ Hys). by eexists.
Qed.

Section Total.

Context (env : Collaborators) (spec : Specification).

Lemma _render_node_total s fuel r out pep484 rr module defined :
  store_ok spec s → r < fuel → valid_node s r →
  ∃ str, _render_node env spec fuel r out pep484 rr module defined s = (s, Ok str).
Proof.
  intros ((H1 & H2 & _) & _ & Hty & Hord & _). revert r.
  induction fuel as [|fuel IH]; intros r Hlt Hr; [lia|].
  destruct (lookup_lt_is_Some_2 _ _ Hr) as [n Hn].
  simpl. rewrite (bind_Ok _ _ _ _ _ (get_node_Ok _ _ _ Hn)).
  pose proof (Hty r n Hn) as Htn. unfold typed_node in Htn.
  assert (∀ str0, ∃ str,
            match children n with
            | Some cl =>
                let* cs := get_list cl in
                let* rendered :=
                  map_M (λ c, _render_node env spec fuel c out pep484 rr module defined) cs in
                ret (str0 +:+ "[" +:+ Py.join ", " rendered +:+ "]")
            | None => ret str0
            end s = (s, Ok str)) as Hkids.
  { intros str0. destruct (children n) as [cl|] eqn:Hcl; [|by eexists].
    destruct (lookup_lt_is_Some_2 (lists s) cl) as [cs Hcs]; [by eapply H1|].
    rewrite (bind_Ok _ _ _ _ _ (get_list_Ok _ _ _ Hcs)).
    destruct (map_M_total
                (λ c, _render_node env spec fuel c out pep484 rr module defined) cs s)
      as [ys Hys].
    { intros c Hc. apply IH.
      - pose proof (Hord r n cl cs Hn Hcl Hcs) as Hlt'.
        rewrite Forall_forall in Hlt'. specialize (Hlt' c Hc). lia.
      - pose proof (H2 cl cs Hcs) as Hv. rewrite Forall_forall in Hv. by apply Hv. }
    rewrite (bind_Ok _ _ _ _ _ Hys). by eexists. }
  destruct (type n); destruct (definition n) as [[d|k|e]|]; try done;
    try (by eexists).
  - rewrite bind_ret_l. apply Hkids.
  - rewrite bind_ret_l. apply Hkids.
Qed.

(** X10. In every store that the manager reaches, a hint that has been
    parsed to a tree is rendered without an exception, in each mode and
    for each direction, and the store stays as it is: the walk ends within
    as many nested calls as the store has nodes. *)
Theorem parsed_hint_is_rendered (cs : list (Call env)) (key : string)
    (m : ManagedTypeHint) (r : node_ref) (fuel : nat) (out pep484 rr : bool)
    (module : option (module_t env)) (defined : option (defined_t env)) :
  managed (run_calls env spec cs new_manager) !! key = Some m →
  parse_state m = PARSED → root m = Some r →
  length (nodes (run_calls env spec cs new_manager)) ≤ fuel →
  ∃ str, _render env spec fuel key out pep484 rr module defined
           (run_calls env spec cs new_manager)
         = (run_calls env spec cs new_manager, Ok str).
Proof.
  intros Hm Hp Hroot Hfuel.
  pose proof (store_ok_reachable env spec cs) as Hok.
  rewrite (_render_parsed env spec fuel key out pep484 rr module defined _ m Hm)
    by (rewrite Hp; done).
  rewrite Hroot.
  assert (valid_node (run_calls env spec cs new_manager) r) as Hr.
  { destruct Hok as (_ & Hroots & _). by eapply Hroots. }
  apply _render_node_total; [done | | done]. unfold valid_node in Hr. lia.
Qed.

End Total.

Lemma parsed_hint_is_rendered_witness :
  ∃ str, _render sample_env empty_spec 3 "List[int]" false false true None None
           (run_calls sample_env empty_spec
              [Call_get_type_hint "List[int]";
               Call_render 5 "List[int]" true true false None None] new_manager)
         = (run_calls sample_env empty_spec
              [Call_get_type_hint "List[int]";
               Call_render 5 "List[int]" true true false None None] new_manager,
            Ok str).
Proof.
  apply (parsed_hint_is_rendered sample_env empty_spec
           [Call_get_type_hint "List[int]";
            Call_render 5 "List[int]" true true false None None]
           "List[int]"
           (mkManagedTypeHint (mkTypeHint 0 "List[int]") PARSED None (Some 1)) 1 3
           false false true None None).
  - vm_compute. reflexivity.
  - reflexivity.
  - reflexivity.
  - vm_compute. lia.
Defined.

(** ** A parse that fails is not tried again *)

Section Failure.

Context (env : Collaborators) (spec : Specification).

(** X11. When the parse of a hint that has not been parsed yet raises
    an exception, the render that asked for it raises it too, and the hint
    is left marked as being parsed, without a tree: every later render of
    the hint, in any mode, does not parse again and returns the text of
    the hint as it is ([Any] apart), without an exception. *)
Theorem failed_parse_is_not_retried (fuel : nat) (key : string) (out : bool)
    (s : State) (m : ManagedTypeHint) (e : Exception) :
  managed s !! key = Some m → parse_state m = REQUIRED → root m = None →
  (_parse env spec fuel key out s).2 = Raise e →
  let s' := (_parse env spec fuel key out s).1 in
  (∃ m', managed s' !! key = Some m'
         ∧ type_hint m' = type_hint m ∧ parse_state m' = PARSING ∧ root m' = None)
  ∧ (∀ pep484 rr module defined,
       _render env spec fuel key out pep484 rr module defined s = (s', Raise e))
  ∧ (∀ fuel' out' pep484 rr module defined,
       _render env spec fuel' key out' pep484 rr module defined s'
       = (s', Ok (_maybe_any_object (text (type_hint m)) pep484))).
Proof.
  intros Hm Hreq Hroot Hraise s'.
  set (s1 := set_managed (λ ms, <[key := with_parse_state PARSING m]> ms) s).
  assert (managed s1 !! key = Some (with_parse_state PARSING m)) as Hm1
    by (simpl; apply lookup_insert_eq).
  pose proof (_parse_node_extending env spec fuel out (text (type_hint m)) 0 None s1) as Hext.
  destruct (_parse_node env spec fuel out (text (type_hint m)) 0 None s1)
    as [s2 [r|e']] eqn:Hnode.
  { destruct (_parse_run env spec fuel key out s m s2 r Hm Hreq Hnode)
      as (s3 & m3 & Hparse & _).
    rewrite Hparse in Hraise. done. }
  assert (_parse env spec fuel key out s = (s2, Raise e')) as Hparse.
  { unfold _parse, parse_with.
    rewrite (bind_Ok _ _ _ _ _ (get_managed_Ok _ _ _ Hm)).
    rewrite bool_decide_eq_true_2 by done.
    rewrite (bind_Ok _ _ _ _ _ (update_managed_Ok _ _ _ _ Hm)).
    by rewrite (bind_Raise _ _ _ _ _ Hnode). }
  assert (e' = e) as -> by (rewrite Hparse in Hraise; simpl in Hraise; congruence).
  assert (s' = s2) as -> by (unfold s'; by rewrite Hparse).
  simpl in Hext.
  destruct (ext_managed _ _ Hext _ _ Hm1) as (m2 & Hm2 & Hth & _ & Hkeep).
  destruct Hkeep as [Hp2 Hr2]; [done|]. simpl in Hth, Hp2, Hr2.
  split; [|split].
  - exists m2. repeat split; [done | done | done | congruence].
  - intros pep484 rr module defined. unfold _render.
    by rewrite (bind_Raise _ _ _ _ _ Hparse).
  - intros fuel' out' pep484 rr module defined.
    rewrite (_render_parsed env spec fuel' key out' pep484 rr module defined s2 m2 Hm2)
      by (rewrite Hp2; done).
    by rewrite Hr2, Hroot, Hth.
Qed.

End Failure.

Lemma failed_parse_is_not_retried_witness :
  let s' := (_parse sample_env foo_bar_spec 5 "List[int" true sample_manager).1 in
  (∃ m', managed s' !! "List[int" = Some m'
         ∧ type_hint m' = mkTypeHint 5 "List[int"
         ∧ parse_state m' = PARSING ∧ root m' = None)
  ∧ (∀ pep484 rr module defined,
       _render sample_env foo_bar_spec 5 "List[int" true pep484 rr module defined
         sample_manager
       = (s', Raise (UserException "type hint 'List[int': ']' expected at position 8")))
  ∧ (∀ fuel' out' pep484 rr module defined,
       _render sample_env foo_bar_spec fuel' "List[int" out' pep484 rr module defined s'
       = (s', Ok (_maybe_any_object "List[int" pep484))).
Proof.
  apply (failed_parse_is_not_retried sample_env foo_bar_spec 5 "List[int" true
           sample_manager (mkManagedTypeHint (mkTypeHint 5 "List[int") REQUIRED None None)
           (UserException "type hint 'List[int': ']' expected at position 8")).
  - vm_compute. reflexivity.
  - reflexivity.
  - reflexivity.
  - vm_compute. reflexivity.
Defined.

(** ** The direction matters through the override hints only *)

Section Direction.

Context (env : Collaborators) (spec : Specification).
Hypothesis overrides : same_overrides spec = true.

Lemma same_class_overrides klass :
  klass ∈ classes spec →
  override_hint (class_type_hints klass) true = override_hint (class_type_hints klass) false.
Proof.
  intros Hin. apply andb_true_iff in overrides as [H _].
  rewrite forallb_forall in H. apply list_elem_of_In in Hin.
  specialize (H _ Hin). by apply bool_decide_eq_true in H.
Qed.

Lemma same_mapped_type_overrides mapped_type :
  mapped_type ∈ mapped_types spec →
  override_hint (mapped_type_hints mapped_type) true
  = override_hint (mapped_type_hints mapped_type) false.
Proof.
  intros Hin. apply andb_true_iff in overrides as [_ H].
  rewrite forallb_forall in H. apply list_elem_of_In in Hin.
  specialize (H _ Hin). by apply bool_decide_eq_true in H.
Qed.

Section Body.

Variable parse_node_rec : bool → string → nat → option nat → M (option node_ref).
Hypothesis rec_direction : ∀ text start end_ s,
  parse_node_rec true text start end_ s = parse_node_rec false text start end_ s.

Lemma parse_with_direction key s :
  parse_with parse_node_rec key true s = parse_with parse_node_rec key false s.
Proof.
  unfold parse_with. apply bind_ext_r; intros m s1.
  destruct (bool_decide _); [|done].
  apply bind_ext_r; intros _ s2. apply bind_ext_l. apply rec_direction.
Qed.

Lemma copy_type_hint_with_direction th s :
  copy_type_hint_with parse_node_rec th true s
  = copy_type_hint_with parse_node_rec th false s.
Proof.
  unfold copy_type_hint_with. apply bind_ext_r; intros _ s1.
  apply bind_ext_l. apply parse_with_direction.
Qed.

Lemma substitute_with_direction ths s :
  override_hint ths true = override_hint ths false →
  substitute_with parse_node_rec ths true s = substitute_with parse_node_rec ths false s.
Proof.
  intros H. unfold substitute_with. rewrite H.
  destruct (override_hint ths false) as [th|]; [|done].
  apply bind_ext_r; intros m s1. destruct (bool_decide _); [|done].
  apply bind_ext_l. apply copy_type_hint_with_direction.
Qed.

Lemma lookup_parts_direction len part_i parts sk sm s :
  lookup_parts spec parse_node_rec len part_i parts true sk sm s
  = lookup_parts spec parse_node_rec len part_i parts false sk sm s.
Proof.
  revert part_i sk sm s. induction parts as [|part parts IH]; intros part_i sk sm s;
    simpl; [done|].
  destruct (_lookup_enum spec part _); [done|].
  destruct sm; [done|].
  destruct (match sk with None => _ | Some _ => None end) as [mapped_type|] eqn:Hmt.
  { destruct (part_i + 1 =? len); [|apply IH].
    apply bind_ext_l. apply substitute_with_direction, same_mapped_type_overrides.
    destruct sk; [done|]. by apply find_elem_of in Hmt as []. }
  destruct (_lookup_class spec part sk) as [klass|] eqn:Hklass; [|done].
  destruct (part_i + 1 =? len); [|apply IH].
  apply bind_ext_l. apply substitute_with_direction, same_class_overrides.
  by apply find_elem_of in Hklass as [].
Qed.

Lemma lookup_type_with_direction name s :
  lookup_type_with env spec parse_node_rec name true s
  = lookup_type_with env spec parse_node_rec name false s.
Proof. unfold lookup_type_with. apply bind_ext_l. apply lookup_parts_direction. Qed.

Lemma parse_parts_direction n text end_ children i s :
  parse_parts parse_node_rec n true text end_ children i s
  = parse_parts parse_node_rec n false text end_ children i s.
Proof.
  revert i s. induction n as [|n IH]; intros i s; simpl; [done|].
  destruct (find_part_end _ _ _ _); [|done].
  apply bind_ext_l'; [apply rec_direction|]. intros c s1.
  apply bind_ext_r; intros _ s2. apply IH.
Qed.

Lemma make_node_direction text top_level name_start name_end children s :
  make_node env spec parse_node_rec true text top_level name_start name_end children s
  = make_node env spec parse_node_rec false text top_level name_start name_end children s.
Proof.
  unfold make_node. destruct (bool_decide (name_start ≠ name_end)); [|done].
  destruct (bool_decide (_ ∈ _TYPING_MODULE)); [done|].
  destruct children; [done|]. apply lookup_type_with_direction.
Qed.

Lemma parse_node_body_direction text start end_ s :
  parse_node_body env spec parse_node_rec true text start end_ s
  = parse_node_body env spec parse_node_rec false text start end_ s.
Proof.
  unfold parse_node_body.
  destruct (match end_ with None => _ | Some e => _ end) as [e top].
  destruct (Py.find _ _); [|apply make_node_direction].
  apply bind_ext_r; intros l s1. destruct (negb _); [done|].
  apply bind_ext_l'; [apply parse_parts_direction|].
  intros _ s2. apply make_node_direction.
Qed.

End Body.

Lemma _parse_node_direction fuel text start end_ s :
  _parse_node env spec fuel true text start end_ s
  = _parse_node env spec fuel false text start end_ s.
Proof.
  revert text start end_ s. induction fuel as [|fuel IH]; intros; simpl; [done|].
  by apply parse_node_body_direction.
Qed.

Lemma _render_direction fuel key pep484 rr module defined s :
  _render env spec fuel key true pep484 rr module defined s
  = _render env spec fuel key false pep484 rr module defined s.
Proof.
  unfold _render. apply bind_ext_l'.
  - apply parse_with_direction. intros. apply _parse_node_direction.
  - intros _ s1. apply bind_ext_r; intros m s2. destruct (root m); [|done].
    apply _render_node_direction.
Qed.

End Direction.

(** X12. The direction of a hint is read for the choice of an override
    hint and for nothing else: with a symbol table in which every class and
    mapped type has the same override hint (or none) for both directions,
    a render and a cross-reference give the same result and leave the same
    store for the incoming as for the outgoing direction. *)
Theorem direction_matters_through_overrides_only (env : Collaborators)
    (spec : Specification) (fuel : nat) (key : string) (th : TypeHint)
    (pep484 rr : bool) (module : option (module_t env))
    (defined : option (defined_t env)) (s : State) :
  same_overrides spec = true →
  _render env spec fuel key true pep484 rr module defined s
  = _render env spec fuel key false pep484 rr module defined s
  ∧ manager_rest_ref env spec fuel th true s = manager_rest_ref env spec fuel th false s.
Proof.
  intros H. split; [by apply _render_direction|].
  unfold manager_rest_ref. apply bind_ext_r; intros m s1.
  destruct (rest_ref m); [done|]. apply bind_ext_l. by apply _render_direction.
Qed.

Lemma direction_matters_through_overrides_only_witness :
  _render sample_env baz_spec 5 "Dict[str, Baz]" true true false None None baz_manager
  = _render sample_env baz_spec 5 "Dict[str, Baz]" false true false None None baz_manager
  ∧ manager_rest_ref sample_env baz_spec 5 (mkTypeHint 1 "Dict[str, Baz]") true baz_manager
    = manager_rest_ref sample_env baz_spec 5 (mkTypeHint 1 "Dict[str, Baz]") false
        baz_manager.
Proof.
  apply (direction_matters_through_overrides_only sample_env baz_spec 5 "Dict[str, Baz]"
           (mkTypeHint 1 "Dict[str, Baz]") true false None None baz_manager).
  vm_compute. reflexivity.
Defined.

(** ** The parser ends *)

Lemma pending_update s key m m' :
  managed s !! key = Some m →
  pending (set_managed (λ ms, <[key := m']> ms) s) + pending_weight m
  = pending s + pending_weight m'.
Proof.
  intros Hm. unfold pending. simpl.
  rewrite (map_fold_delete_L _ _ key m (managed s)); [|intros; lia|done].
  rewrite <- (insert_delete_eq (managed s)).
  rewrite map_fold_insert_L; [lia | intros; lia | apply lookup_delete_eq].
Qed.

Lemma bounded_ret {A} B (a : A) : bounded B (ret a).
Proof. by intros s Hs. Qed.

Lemma bounded_raise {A} B e : e ≠ OutOfFuel → bounded B (raise (A := A) e).
Proof. intros He s Hs. split; [done|]. simpl. congruence. Qed.

Lemma bounded_bind {A C} B (c : M A) (k : A → M C) :
  bounded B c → (∀ a, bounded B (k a)) → bounded B (bind c k).
Proof.
  intros Hc Hk s Hs. unfold bind. destruct (Hc s Hs) as [H1 H2].
  destruct (c s) as [s1 [a|e]]; simpl in *; [by apply Hk|].
  split; [done|]. intros [= ->]. by apply H2.
Qed.

(** A computation that leaves the dict alone and does not use fuel. *)
Lemma bounded_same {A} B (c : M A) :
  (∀ s, managed (c s).1 = managed s) → (∀ s, (c s).2 ≠ Raise OutOfFuel) →
  bounded B c.
Proof.
  intros Hm He s Hs. split; [|done]. unfold pending. by rewrite Hm.
Qed.

Lemma bounded_get_node B r : bounded B (get_node r).
Proof. apply bounded_same; intros s; unfold get_node; by destruct (nodes s !! r). Qed.

Lemma bounded_get_list B l : bounded B (get_list l).
Proof. apply bounded_same; intros s; unfold get_list; by destruct (lists s !! l). Qed.

Lemma bounded_get_managed B key : bounded B (get_managed key).
Proof. apply bounded_same; intros s; unfold get_managed; by destruct (managed s !! key). Qed.

Lemma bounded_new_node B n : bounded B (new_node n).
Proof. by apply bounded_same. Qed.

Lemma bounded_new_list B : bounded B new_list.
Proof. by apply bounded_same. Qed.

Lemma bounded_set_next B r nx : bounded B (set_next r nx).
Proof. apply bounded_same; intros s; unfold set_next; by destruct (nodes s !! r). Qed.

Lemma bounded_list_append B l x : bounded B (list_append l x).
Proof. apply bounded_same; intros s; unfold list_append; by destruct (lists s !! l). Qed.

Lemma bounded_update_managed B key f :
  (∀ m, pending_weight (f m) ≤ pending_weight m) → bounded B (update_managed key f).
Proof.
  intros Hf s Hs. unfold update_managed.
  destruct (managed s !! key) as [m|] eqn:Hm; simpl; [|done].
  split; [|done]. pose proof (pending_update s key m (f m) Hm). specialize (Hf m). lia.
Qed.

Ltac bounded_step :=
  first
    [ apply bounded_ret | apply bounded_raise; done
    | apply bounded_get_node | apply bounded_get_list | apply bounded_get_managed
    | apply bounded_new_node | apply bounded_new_list | apply bounded_set_next
    | apply bounded_list_append
    | apply bounded_bind; [|intros ?] ].

Lemma bounded_append_child B l x : bounded B (_append_child l x).
Proof.
  unfold _append_child. bounded_step; [bounded_step|].
  bounded_step; [|bounded_step].
  destruct (1 <? length a); [|bounded_step]. destruct (last a); bounded_step.
Qed.

Lemma bounded_append_children B l xs : bounded B (append_children l xs).
Proof.
  induction xs as [|x xs IH]; simpl; [bounded_step|].
  bounded_step; [apply bounded_append_child | apply IH].
Qed.

Lemma bounded_flatten_unions B l cs : bounded B (flatten_unions l cs).
Proof.
  induction cs as [|c cs IH]; simpl; [bounded_step|].
  bounded_step; [bounded_step|]. bounded_step; [|apply IH].
  destruct (is_union a); [|apply bounded_append_child].
  destruct (children a); [|bounded_step].
  bounded_step; [bounded_step | apply bounded_append_children].
Qed.

Lemma strip_leading_loop_ge n text start end_ :
  start ≤ strip_leading_loop n text start end_.
Proof.
  revert start. induction n as [|n IH]; intros start; simpl; [done|].
  destruct (_ && _); [|done]. specialize (IH (S start)). lia.
Qed.

Lemma strip_trailing_loop_le n text start end_ :
  strip_trailing_loop n text start end_ ≤ end_.
Proof.
  revert end_. induction n as [|n IH]; intros end_; simpl; [done|].
  destruct (_ && _); [|done]. specialize (IH (end_ - 1)). lia.
Qed.

Section Depth.

Context (env : Collaborators) (spec : Specification).

Section Body.

Variable parse_node_rec : bool → string → nat → option nat → M (option node_ref).
Variable F : nat.
Hypothesis rec_bounded : ∀ B out text start end_,
  span text start end_ + B < F → bounded B (parse_node_rec out text start end_).

Lemma bounded_parse_with B key out :
  B ≤ F + 1 → bounded B (parse_with parse_node_rec key out).
Proof.
  intros HB s Hs. unfold parse_with.
  destruct (managed s !! key) as [m|] eqn:Hm.
  2: { assert (get_managed key s = (s, Raise (KeyError key))) as Hg
         by (unfold get_managed; by rewrite Hm).
       rewrite (bind_Raise _ _ _ _ _ Hg). by split. }
  rewrite (bind_Ok _ _ _ _ _ (get_managed_Ok _ _ _ Hm)).
  destruct (bool_decide (parse_state m = REQUIRED)) eqn:Hreq; [|by split].
  rewrite (bind_Ok _ _ _ _ _ (update_managed_Ok _ _ _ _ Hm)).
  set (s1 := set_managed _ s).
  pose proof (pending_update s key m (with_parse_state PARSING m) Hm) as Hup.
  fold s1 in Hup. unfold pending_weight in Hup at 1 2. simpl in Hup. rewrite Hreq in Hup.
  set (B1 := B - S (S (Py.len (text (type_hint m))))).
  assert (bounded B1 (parse_node_rec out (text (type_hint m)) 0 None)) as Hrec.
  { apply rec_bounded. unfold span, B1. simpl. lia. }
  destruct (Hrec s1) as [Hp2 Hne]; [unfold B1; lia|].
  destruct (parse_node_rec out (text (type_hint m)) 0 None s1) as [s2 [r|e]] eqn:Hrun;
    simpl in Hp2, Hne.
  2: { rewrite (bind_Raise _ _ _ _ _ Hrun). split; [simpl; unfold B1 in Hp2; lia|].
       simpl. congruence. }
  rewrite (bind_Ok _ _ _ _ _ Hrun).
  assert (bounded B1 (update_managed key (with_root r) >>
                      update_managed key (with_parse_state PARSED))) as Hrest.
  { apply bounded_bind; [|intros _]; apply bounded_update_managed; intros m0.
    - done.
    - unfold pending_weight. simpl. destruct (bool_decide _); lia. }
  destruct (Hrest s2 Hp2) as [Hp3 Hne3]. split; [unfold B1 in Hp3; lia | done].
Qed.

Lemma bounded_copy_type_hint_with B th out :
  B ≤ F + 1 → bounded B (copy_type_hint_with parse_node_rec th out).
Proof.
  intros HB. unfold copy_type_hint_with. bounded_step; [bounded_step|].
  bounded_step; [by apply bounded_parse_with|]. bounded_step; [bounded_step|].
  destruct (root a1); [|bounded_step].
  bounded_step; [bounded_step|]. bounded_step; bounded_step.
Qed.

Lemma bounded_substitute_with B ths out :
  B ≤ F + 1 → bounded B (substitute_with parse_node_rec ths out).
Proof.
  intros HB. unfold substitute_with. destruct (override_hint ths out); [|bounded_step].
  bounded_step; [bounded_step|]. destruct (bool_decide _); [|bounded_step].
  bounded_step; [by apply bounded_copy_type_hint_with | bounded_step].
Qed.

Lemma bounded_lookup_parts B len part_i parts out sk sm :
  B ≤ F + 1 → bounded B (lookup_parts spec parse_node_rec len part_i parts out sk sm).
Proof.
  intros HB. revert part_i sk sm.
  induction parts as [|part parts IH]; intros part_i sk sm; simpl; [bounded_step|].
  destruct (_lookup_enum spec part _).
  { destruct (part_i + 1 =? len); [|bounded_step]. bounded_step; bounded_step. }
  destruct sm; [bounded_step|].
  destruct (match sk with None => _ | Some _ => None end).
  { destruct (part_i + 1 =? len); [|apply IH].
    bounded_step; [by apply bounded_substitute_with|]. destruct a; bounded_step. }
  destruct (_lookup_class spec part sk); [|bounded_step].
  destruct (part_i + 1 =? len); [|apply IH].
  bounded_step; [by apply bounded_substitute_with|].
  destruct a; [bounded_step|]. bounded_step; bounded_step.
Qed.

Lemma bounded_lookup_type_with B name out :
  B ≤ F + 1 → bounded B (lookup_type_with env spec parse_node_rec name out).
Proof.
  intros HB. unfold lookup_type_with. bounded_step; [by apply bounded_lookup_parts|].
  destruct a; [bounded_step|]. bounded_step; bounded_step.
Qed.

Lemma bounded_parse_parts B n out text end_ children i :
  end_ - i < n → (end_ - i) + B ≤ F + 1 →
  bounded B (parse_parts parse_node_rec n out text end_ children i).
Proof.
  revert i. induction n as [|n IH]; intros i Hn HB; [lia|]. simpl.
  destruct (find_part_end _ _ _ _) as [p|] eqn:Hp; [|bounded_step].
  apply find_part_end_spec in Hp as (Hp & _).
  bounded_step.
  { apply rec_bounded. unfold span. simpl. lia. }
  bounded_step.
  - destruct a; [apply bounded_append_child | bounded_step].
  - apply IH; lia.
Qed.

Lemma bounded_make_node B out text top_level name_start name_end children :
  B ≤ F + 1 →
  bounded B
    (make_node env spec parse_node_rec out text top_level name_start name_end children).
Proof.
  intros HB. unfold make_node. destruct (bool_decide (name_start ≠ name_end)).
  - destruct (bool_decide (_ ∈ _TYPING_MODULE)).
    + destruct (bool_decide (_ = "Union")); [|bounded_step; bounded_step].
      destruct children; [|bounded_step]. bounded_step; [bounded_step|].
      destruct (length a =? 0); [bounded_step|]. bounded_step; [bounded_step|].
      bounded_step; [apply bounded_flatten_unions|]. bounded_step; bounded_step.
    + destruct children; [bounded_step|]. by apply bounded_lookup_type_with.
  - bounded_step.
    + destruct top_level; [|bounded_step]. destruct children; [|bounded_step].
      bounded_step; bounded_step.
    + destruct a; [bounded_step|]. bounded_step; bounded_step.
Qed.

Lemma bounded_parse_node_body B out text start end_ :
  span text start end_ + B ≤ F →
  bounded B (parse_node_body env spec parse_node_rec out text start end_).
Proof.
  intros HB. unfold parse_node_body, span in *.
  assert (∃ e top, match end_ with
                   | None => (Py.len text, true)
                   | Some e => (e, false)
                   end = (e, top) ∧ e = default (Py.len text) end_) as (e & top & -> & He).
  { destruct end_; by eexists _, _. }
  destruct (Py.find _ _) as [i|]; [|apply bounded_make_node; lia].
  bounded_step; [bounded_step|]. destruct (negb _); [bounded_step|].
  bounded_step; [|apply bounded_make_node; lia].
  pose proof (strip_leading_loop_ge (e - start) text start e) as Hge.
  pose proof (strip_trailing_loop_le (e - _strip_leading text start e) text
                (_strip_leading text start e) e) as Hle.
  fold (_strip_leading text start e) in Hge.
  fold (_strip_trailing text (_strip_leading text start e) e) in Hle.
  apply bounded_parse_parts; lia.
Qed.

End Body.

Lemma bounded_parse_node fuel B out text start end_ :
  span text start end_ + B < fuel →
  bounded B (_parse_node env spec fuel out text start end_).
Proof.
  revert B out text start end_. induction fuel as [|fuel IH]; intros B out text start end_ H;
    [lia|]. simpl. apply (bounded_parse_node_body _ fuel); [|lia].
  intros. by apply IH.
Qed.

(** X13. The parser ends: a call of [_parse_node] does not nest calls of
    itself deeper than the length of its span plus, for every managed hint
    that has not been parsed yet, the length of its text and two more.  An
    override hint is parsed inside the parse that meets it, but once only,
    so that override hints that refer to one another do not make the parser
    recurse without end. *)
Theorem parser_recursion_is_bounded (fuel : nat) (out : bool) (text : string)
    (start : nat) (end_ : option nat) (s : State) :
  span text start end_ + pending s < fuel →
  (_parse_node env spec fuel out text start end_ s).2 ≠ Raise OutOfFuel.
Proof. intros H. by apply (bounded_parse_node fuel (pending s)). Qed.

(** X14. [_parse] ends for every managed hint: the texts of the hints
    that have not been parsed yet, with two more for each, bound the depth
    of the calls that it needs, whatever the symbol table and the
    direction. *)
Theorem parse_of_a_hint_ends (fuel : nat) (key : string) (out : bool) (s : State) :
  pending s ≤ fuel + 1 →
  (_parse env spec fuel key out s).2 ≠ Raise OutOfFuel.
Proof.
  intros H.
  assert (bounded (pending s) (_parse env spec fuel key out)) as Hb.
  { apply (bounded_parse_with (_parse_node env spec fuel) fuel); [|done].
    intros. by apply bounded_parse_node. }
  by apply Hb.
Qed.

End Depth.

Lemma parser_recursion_is_bounded_witness :
  (_parse_node sample_env foo_bar_spec 75 true "Union[Bar, D]" 0 None sample_manager).2
  ≠ Raise OutOfFuel.
Proof.
  apply (parser_recursion_is_bounded sample_env foo_bar_spec 75 true "Union[Bar, D]" 0 None
           sample_manager).
  vm_compute. lia.
Defined.

Lemma parse_of_a_hint_ends_witness :
  (_parse sample_env foo_bar_spec 60 "Union[Bar, D]" true sample_manager).2
  ≠ Raise OutOfFuel.
Proof.
  apply (parse_of_a_hint_ends sample_env foo_bar_spec 60 "Union[Bar, D]" true
           sample_manager).
  vm_compute. lia.
Defined.

(** ** Strings *)

Lemma string_app_cons c (u v : string) : String c u +:+ v = String c (u +:+ v).
Proof. reflexivity. Qed.

Lemma string_app_nil_l (v : string) : "" +:+ v = v.
Proof. reflexivity. Qed.

Lemma string_app_assoc (u v w : string) : (u +:+ v) +:+ w = u +:+ (v +:+ w).
Proof.
  induction u as [|c u IH]; [done|]. rewrite !string_app_cons. by f_equal.
Qed.

Lemma string_app_length (u v : string) :
  String.length (u +:+ v) = String.length u + String.length v.
Proof.
  induction u as [|c u IH]; [done|]. rewrite string_app_cons. simpl. by rewrite IH.
Qed.

Lemma string_app_nil_r (u : string) : u +:+ "" = u.
Proof. induction u as [|c u IH]; [done|]. rewrite string_app_cons. by f_equal. Qed.

Lemma get_Some_lt i w c : String.get i w = Some c → i < String.length w.
Proof.
  revert i. induction w as [|d w IH]; intros i; simpl; [done|].
  destruct i as [|i]; [lia|]. intros H. apply IH in H. lia.
Qed.

Lemma get_lt_Some i w : i < String.length w → ∃ c, String.get i w = Some c.
Proof.
  revert i. induction w as [|d w IH]; intros i; simpl; [lia|].
  destruct i as [|i]; [by eexists|]. intros H. apply IH. lia.
Qed.

Lemma get_ge_None i w : String.length w ≤ i → String.get i w = None.
Proof.
  revert i. induction w as [|d w IH]; intros i; simpl; [done|].
  destruct i as [|i]; [lia|]. intros H. apply IH. lia.
Qed.

Lemma occurs_nil text a : occurs text a "".
Proof. by intros i c H. Qed.

Lemma occurs_cons text a c w :
  occurs text a (String c w) ↔ String.get a text = Some c ∧ occurs text (S a) w.
Proof.
  split.
  - intros H. split.
    + specialize (H 0 c eq_refl). by rewrite Nat.add_0_r in H.
    + intros i d Hd. specialize (H (S i) d Hd). by rewrite Nat.add_succ_r in H.
  - intros [H0 H] i d Hd. destruct i as [|i]; simpl in Hd.
    + rewrite Nat.add_0_r. congruence.
    + rewrite Nat.add_succ_r. by apply H.
Qed.

Lemma occurs_app text a u v :
  occurs text a (u +:+ v) ↔ occurs text a u ∧ occurs text (a + String.length u) v.
Proof.
  revert a. induction u as [|c u IH]; intros a.
  - rewrite string_app_nil_l. simpl. rewrite Nat.add_0_r.
    split; [intros H; split; [apply occurs_nil | done] | by intros []].
  - rewrite string_app_cons, !occurs_cons, IH. simpl. rewrite Nat.add_succ_r. tauto.
Qed.

Lemma occurs_length text a w : w ≠ "" → occurs text a w → a + String.length w ≤ String.length text.
Proof.
  intros Hw H. destruct (get_lt_Some (String.length w - 1) w) as [c Hc].
  { destruct w; [done | simpl; lia]. }
  apply H, get_Some_lt in Hc. lia.
Qed.

Lemma occurs_substring text a w :
  occurs text a w → String.substring a (String.length w) text = w.
Proof.
  intros H. apply String.get_correct. intros i.
  destruct (decide (i < String.length w)) as [Hlt|Hge].
  - rewrite String.substring_correct1 by done.
    destruct (get_lt_Some i w Hlt) as [c Hc]. rewrite Hc.
    rewrite Nat.add_comm. by apply H.
  - rewrite String.substring_correct2 by lia. symmetry. apply get_ge_None. lia.
Qed.

Lemma occurs_slice text a b w :
  occurs text a w → b = a + String.length w → Py.slice text a b = w.
Proof.
  intros H ->. unfold Py.slice. replace (a + String.length w - a) with (String.length w) by lia.
  by apply occurs_substring.
Qed.

Lemma occurs_char text a i w c :
  occurs text a w → i < String.length w →
  Py.char_at_is text (a + i) c = Py.char_at_is w i c.
Proof.
  intros H Hi. destruct (get_lt_Some i w Hi) as [d Hd].
  unfold Py.char_at_is. by rewrite Hd, (H i d Hd).
Qed.

Lemma occurs_head text a c w x :
  occurs text a (String c w) → Py.char_at_is text a x = Ascii.eqb c x.
Proof.
  intros H. apply occurs_cons in H as [H _]. unfold Py.char_at_is. by rewrite H.
Qed.

(** *** Finding a character *)

Lemma find_app c u v :
  Py.find c u = None →
  Py.find c (u +:+ v) = (λ i, String.length u + i) <$> Py.find c v.
Proof.
  induction u as [|d u IH].
  - intros _. rewrite string_app_nil_l. by destruct (Py.find c v).
  - rewrite string_app_cons. simpl. destruct (Ascii.eqb d c); [done|].
    destruct (Py.find c u) eqn:E; [done|]. intros _. rewrite IH by done.
    by destruct (Py.find c v).
Qed.

Lemma find_app_None c u v :
  Py.find c u = None → Py.find c v = None → Py.find c (u +:+ v) = None.
Proof. intros Hu Hv. by rewrite find_app, Hv. Qed.

Lemma plain_find_open n : plain n = true → Py.find "[" n = None.
Proof.
  induction n as [|c n IH]; simpl; [done|]. intros H.
  repeat (apply andb_true_iff in H as [H ?]). apply negb_true_iff in H.
  rewrite H. by rewrite IH.
Qed.

Lemma plain_app u v : plain (u +:+ v) = plain u && plain v.
Proof.
  induction u as [|c u IH]; [done|]. rewrite string_app_cons. simpl.
  rewrite IH. by rewrite !andb_assoc.
Qed.

(** *** The loops that trim a span, on a span that is known *)

Lemma strip_leading_skip text a b sp :
  (∀ i, a ≤ i < a + sp → Py.char_at_is text i " " = true) →
  a + sp < b → Py.char_at_is text (a + sp) " " = false →
  _strip_leading text a b = a + sp.
Proof.
  intros Hsp Hlt Hc.
  destruct (strip_leading_loop_spec (b - a) text a b) as (H1 & H2 & H3); [lia | lia |].
  fold (_strip_leading text a b) in H1, H2, H3.
  destruct (decide (_strip_leading text a b < a + sp)) as [Hless|Hnot].
  { rewrite Hsp in H3; [by specialize (H3 ltac:(lia)) | lia]. }
  destruct (decide (a + sp < _strip_leading text a b)) as [Hmore|Hnot'].
  { rewrite H2 in Hc; [done | lia]. }
  lia.
Qed.

Lemma strip_trailing_stay text a b :
  (a < b → Py.char_at_is text (b - 1) " " = false) → _strip_trailing text a b = b.
Proof. apply strip_trailing_loop_fix. Qed.

(** *** The names of the typing module *)

Lemma typing_names_good name : name ∈ _TYPING_MODULE → good_name name = true.
Proof.
  assert (Forall (λ n, good_name n = true) _TYPING_MODULE) as H.
  { repeat (constructor; [vm_compute; reflexivity|]). constructor. }
  rewrite Forall_forall in H. apply H.
Qed.

Lemma good_name_inv name :
  good_name name = true →
  name ≠ "" ∧ plain name = true
  ∧ Py.char_at_is name 0 " " = false
  ∧ Py.char_at_is name (String.length name - 1) " " = false.
Proof.
  unfold good_name. intros H.
  apply andb_true_iff in H as [H H4]. apply andb_true_iff in H as [H H3].
  apply andb_true_iff in H as [H1 H2].
  apply negb_true_iff in H1, H3, H4. apply bool_decide_eq_false in H1. done.
Qed.

(** ** A [Union] without brackets *)

Section BareUnion.

Context (env : Collaborators) (spec : Specification).

Lemma slice_empty text a : Py.slice text a a = "".
Proof. unfold Py.slice. rewrite Nat.sub_diag. apply substring_none. Qed.

(** X17. The name [Union] without brackets is not reported as a bad hint:
    a span that is [Union] once the spaces around it are stripped, at the
    top level or as an argument, makes [_parse_node] raise [TypeError]
    (from [len(children)], with [children] still [None]) before any node
    is made; the first render of a hint with such a text raises it too. *)
Theorem bare_union_is_a_type_error (fuel : nat) (out : bool) (txt : string)
    (start : nat) (end_ : option nat) (s : State) :
  let e := match end_ with Some e => e | None => Py.len txt end in
  let a := _strip_leading txt start e in
  let b := _strip_trailing txt a e in
  Py.slice txt a b = "Union" →
  _parse_node env spec (S fuel) out txt start end_ s = (s, Raise TypeError)
  ∧ (start = 0 → end_ = None →
     ∀ m pep484 rr module defined,
       managed s !! txt = Some m → parse_state m = REQUIRED →
       text (type_hint m) = txt →
       (_render env spec (S fuel) txt out pep484 rr module defined s).2
       = Raise TypeError).
Proof.
  intros e a b Hslice.
  assert (∀ s0, _parse_node env spec (S fuel) out txt start end_ s0
                = (s0, Raise TypeError)) as Hnode.
  { intros s0. cbn [_parse_node]. unfold parse_node_body.
    assert (a ≠ b) as Hne.
    { intros E. rewrite <- E, slice_empty in Hslice. done. }
    subst a b e.
    destruct end_ as [e0|]; cbv beta iota zeta;
      rewrite Hslice; cbn [Py.find]; unfold make_node;
      rewrite bool_decide_eq_true_2 by done; cbv zeta; rewrite Hslice; done. }
  split; [apply Hnode|].
  intros -> -> m pep484 rr module defined Hm Hp Htext.
  unfold _render, _parse, parse_with.
  rewrite (bind_assoc), (bind_Ok _ _ _ _ _ (get_managed_Ok _ _ _ Hm)).
  rewrite bool_decide_eq_true_2 by done.
  destruct (update_managed txt (with_parse_state PARSING) s) as [s1 o] eqn:Hupd.
  rewrite (update_managed_Ok _ _ _ _ Hm) in Hupd. injection Hupd as <- <-.
  rewrite Htext.
  match goal with |- (?c ?s0).2 = _ =>
    assert (∃ s', c s0 = (s', Raise TypeError)) as [s' ->]; [|done] end.
  eexists.
  rewrite bind_assoc, (bind_Ok _ _ _ _ _ (update_managed_Ok _ _ _ _ Hm)).
  rewrite bind_assoc. rewrite (bind_Raise _ _ _ _ _ (Hnode _)). done.
Qed.

End BareUnion.

Lemma bare_union_is_a_type_error_witness :
  _parse_node sample_env empty_spec 1 true " Union " 0 None
    (get_type_hint " Union " new_manager).1
  = ((get_type_hint " Union " new_manager).1, Raise TypeError)
  ∧ (0 = 0 → None = (None : option nat) →
     ∀ m pep484 rr module defined,
       managed (get_type_hint " Union " new_manager).1 !! " Union " = Some m →
       parse_state m = REQUIRED →
       text (type_hint m) = " Union " →
       (_render sample_env empty_spec 1 " Union " true pep484 rr module defined
          (get_type_hint " Union " new_manager).1).2
       = Raise TypeError).
Proof.
  apply (bare_union_is_a_type_error sample_env empty_spec 0 true " Union " 0 None
           (get_type_hint " Union " new_manager).1).
  vm_compute. reflexivity.
Defined.

(** ** The text of a hint, read by the loop over a part *)

Lemma concat_cons2 sep (x y : string) l :
  String.concat sep (x :: y :: l) = x +:+ sep +:+ String.concat sep (y :: l).
Proof. reflexivity. Qed.

Lemma parts_text_cons2 (x y : string) l :
  parts_text (x :: y :: l) = x +:+ "," +:+ parts_text (y :: l).
Proof. reflexivity. Qed.

Lemma join_parts_text ws : Py.join "," ws +:+ "]" = parts_text ws.
Proof.
  induction ws as [|w ws IH]; [done|]. destruct ws as [|w' ws]; [done|].
  unfold Py.join in *. rewrite concat_cons2, parts_text_cons2.
  rewrite !string_app_assoc. by rewrite IH.
Qed.

Lemma written_generic l name m args r :
  written (SGeneric l name m args r)
  = spaces l +:+ name +:+ spaces m +:+ "[" +:+ parts_text (map written args) +:+ spaces r.
Proof.
  cbn [written]. rewrite <- join_parts_text. by rewrite !string_app_assoc.
Qed.

Lemma spaces_length n : String.length (spaces n) = n.
Proof. induction n as [|n IH]; simpl; [done | by rewrite IH]. Qed.

Lemma spaces_add n m : spaces (n + m) = spaces n +:+ spaces m.
Proof. induction n as [|n IH]; [done|]. simpl. rewrite string_app_cons. by f_equal. Qed.

Lemma spaces_char n i : i < n → Py.char_at_is (spaces n) i " " = true.
Proof.
  revert i. induction n as [|n IH]; intros i Hi; [lia|].
  destruct i as [|i]; [done|]. unfold Py.char_at_is in *. simpl. apply IH. lia.
Qed.

Lemma find_part_end_open m text p d :
  Py.char_at_is text p "[" = true →
  find_part_end (S m) text p d = find_part_end m text (S p) (d + 1).
Proof. intros H. simpl. by rewrite H. Qed.

Lemma find_part_end_close m text p d :
  Py.char_at_is text p "]" = true → d ≠ 0 →
  find_part_end (S m) text p d = find_part_end m text (S p) (d - 1).
Proof.
  intros H Hd. simpl.
  destruct (Py.char_at_is text p "[") eqn:Ho;
    [by pose proof (char_at_is_inj _ _ _ _ Ho H)|].
  rewrite H. simpl. apply Nat.eqb_neq in Hd. by rewrite Hd.
Qed.

Lemma find_part_end_stop m text p :
  Py.char_at_is text p "[" = false →
  Py.char_at_is text p "," || Py.char_at_is text p "]" = true →
  find_part_end (S m) text p 0 = Some p.
Proof. intros Ho H. simpl. rewrite Ho. simpl. rewrite andb_false_r, H. done. Qed.

Lemma find_part_end_skippable u m text p d :
  skippable d u = true → occurs text p u →
  find_part_end (String.length u + m) text p d
  = find_part_end m text (p + String.length u) d.
Proof.
  revert p. induction u as [|c u IH]; intros p Hs Ho.
  - simpl. by rewrite Nat.add_0_r.
  - simpl in Hs. apply andb_true_iff in Hs as [Hs Hu].
    apply andb_true_iff in Hs as [Hs Hc]. apply andb_true_iff in Hs as [H1 H2].
    apply negb_true_iff in H1, H2.
    pose proof Ho as Ho'. apply occurs_cons in Ho' as [_ Ho'].
    cbn [String.length Nat.add find_part_end].
    rewrite !(occurs_head _ _ _ _ _ Ho), H1, H2. cbn [andb orb]. rewrite orb_false_r.
    assert (Ascii.eqb c "," && (d =? 0) = false) as ->.
    { destruct (Ascii.eqb c ","); [|done]. destruct (d =? 0); [done|done]. }
    rewrite IH by done. f_equal. lia.
Qed.

Lemma plain_skippable d u : plain u = true → skippable d u = true.
Proof.
  induction u as [|c u IH]; simpl; [done|]. intros H.
  apply andb_true_iff in H as [H Hu]. apply andb_true_iff in H as [H H3].
  rewrite H, H3, IH by done. done.
Qed.

Lemma plain_spaces n : plain (spaces n) = true.
Proof. induction n as [|n IH]; [done|]. simpl. by rewrite IH. Qed.

Lemma skippable_spaces d n : skippable d (spaces n) = true.
Proof. apply plain_skippable, plain_spaces. Qed.

(** The loop passes by the arguments and the closing bracket when it
    passes by each argument. *)
Lemma find_part_end_parts ws m text q d :
  Forall (λ w, ∀ m p d, occurs text p w →
            find_part_end (String.length w + m) text p d
            = find_part_end m text (p + String.length w) d) ws →
  occurs text q (parts_text ws) →
  find_part_end (String.length (parts_text ws) + m) text q (d + 1)
  = find_part_end m text (q + String.length (parts_text ws)) d.
Proof.
  revert q. induction ws as [|w ws IH]; intros q Hws Ho.
  - cbn [parts_text String.length Nat.add] in *.
    rewrite find_part_end_close; [|by rewrite (occurs_head _ _ _ _ _ Ho)|lia].
    f_equal; lia.
  - apply Forall_cons in Hws as [Hw Hws]. destruct ws as [|w' ws].
    + change (parts_text [w]) with (w +:+ "]") in *.
      apply occurs_app in Ho as [Hoa Ho].
      rewrite string_app_length, <- Nat.add_assoc, Hw by done.
      cbn [String.length Nat.add].
      rewrite find_part_end_close; [|by rewrite (occurs_head _ _ _ _ _ Ho)|lia].
      f_equal; lia.
    + rewrite parts_text_cons2 in *.
      apply occurs_app in Ho as [Hoa Ho]. apply occurs_app in Ho as [Hsep Ho].
      rewrite !string_app_length, <- !Nat.add_assoc, Hw by done.
      rewrite find_part_end_skippable; [|by rewrite Nat.add_1_r|done].
      rewrite IH by done. f_equal. lia.
Qed.

Section Skipping.

Context (env : Collaborators) (spec : Specification).

Lemma leaf_ok_good out name : leaf_ok env spec out name = true → good_name name = true.
Proof. unfold leaf_ok. intros H. by apply andb_true_iff in H as [H _]. Qed.

Lemma legible_name_plain out name args :
  legible env spec out (HGeneric name args) = true → plain name = true.
Proof.
  simpl. intros H. repeat (apply andb_true_iff in H as [H _]).
  apply orb_true_iff in H as [H|H].
  - apply bool_decide_eq_true in H. by subst.
  - apply bool_decide_eq_true, typing_names_good, good_name_inv in H. tauto.
Qed.

Lemma legible_args out name args :
  legible env spec out (HGeneric name args) = true →
  Forall (λ a, legible env spec out a = true) args.
Proof.
  simpl. intros H. apply andb_true_iff in H as [H _]. apply andb_true_iff in H as [_ H].
  rewrite forallb_forall in H. apply Forall_forall. intros a Ha. apply H.
  by apply list_elem_of_In.
Qed.

Lemma height_args name args a : a ∈ args → height a < height (HGeneric name args).
Proof.
  intros Ha. simpl. apply Nat.lt_succ_r.
  induction args as [|b args IH]; [by apply elem_of_nil in Ha|].
  apply elem_of_cons in Ha as [->|Ha]; simpl; [lia|]. specialize (IH Ha). lia.
Qed.

(** The loop passes by the text of a written hint, at any depth. *)
Lemma find_part_end_written k out h m text p d :
  height (erase h) ≤ k → legible env spec out (erase h) = true →
  occurs text p (written h) →
  find_part_end (String.length (written h) + m) text p d
  = find_part_end m text (p + String.length (written h)) d.
Proof.
  revert h m p d. induction k as [|k IH]; intros h m p d Hk Hc Ho.
  { destruct h; simpl in Hk; lia. }
  destruct h as [l name r|l name mid args r].
  - apply find_part_end_skippable; [|done]. apply plain_skippable.
    cbn [written erase legible] in *. apply leaf_ok_good, good_name_inv in Hc.
    rewrite !plain_app, !plain_spaces. simpl. rewrite andb_true_r. tauto.
  - rewrite written_generic in *. cbn [erase] in Hk, Hc.
    pose proof (legible_name_plain _ _ _ Hc) as Hplain.
    pose proof (legible_args _ _ _ Hc) as Hargs.
    assert (Forall (λ a, height a ≤ k) (map erase args)) as Hh.
    { apply Forall_forall. intros a Ha. pose proof (height_args name _ a Ha). lia. }
    clear Hc Hk.
    apply occurs_app in Ho as [Hl Ho]. apply occurs_app in Ho as [Hn Ho].
    apply occurs_app in Ho as [Hm Ho]. apply occurs_app in Ho as [Hb Ho].
    apply occurs_app in Ho as [Hp Hr].
    rewrite !string_app_length. rewrite <- !Nat.add_assoc.
    rewrite find_part_end_skippable by (by try apply skippable_spaces).
    rewrite find_part_end_skippable by (by try apply plain_skippable).
    rewrite find_part_end_skippable by (by try apply skippable_spaces).
    change (String.length "[") with 1 in *. cbn [Nat.add].
    rewrite find_part_end_open by (by rewrite (occurs_head _ _ _ _ _ Hb)).
    rewrite <- (Nat.add_1_r (_ + String.length (spaces mid))).
    rewrite find_part_end_parts; [|clear Hp|done].
    + rewrite find_part_end_skippable by (by try apply skippable_spaces).
      f_equal. lia.
    + apply Forall_fmap, Forall_forall. intros a Ha m' p' d' Ho'.
      rewrite Forall_fmap, Forall_forall in Hargs, Hh.
      apply IH; [apply (Hh a Ha) | apply (Hargs a Ha) | done].
Qed.

End Skipping.

(** ** A written hint is parsed to its tree, and the tree is rendered *)

Lemma frame_refl lb s : frame lb s s.
Proof. by split. Qed.

Lemma frame_trans lb s1 s2 s3 : frame lb s1 s2 → frame lb s2 s3 → frame lb s1 s3.
Proof. intros [H1 H2] [H3 H4]. split; [by etrans | eauto]. Qed.

Lemma frame_mono lb lb' s s' : lb ≤ lb' → frame lb s s' → frame lb' s s'.
Proof. intros Hle [H1 H2]. split; [done|]. intros l xs Hl. apply H2. lia. Qed.

Lemma frame_but_refl l s : frame_but l s s.
Proof. by split. Qed.

Lemma frame_but_trans l s1 s2 s3 :
  frame_but l s1 s2 → frame_but l s2 s3 → frame_but l s1 s3.
Proof. intros [H1 H2] [H3 H4]. split; [by etrans | eauto]. Qed.

Lemma frame_but_frame l lb s s' : l < lb → frame_but l s s' → frame lb s s'.
Proof. intros Hl [H1 H2]. split; [done|]. intros l' xs Hl'. apply H2. lia. Qed.

Lemma extends_frame_but l s s' : extends s s' → frame_but l s s'.
Proof. intros [H1 H2 _ _]. split; [done|]. intros l' xs _. apply H2. Qed.

Lemma extends_frame lb s s' : extends s s' → frame lb s s'.
Proof. intros [H1 H2 _ _]. split; [done|]. intros l' xs _. apply H2. Qed.

Lemma appended_to_frame_but l ys xs s s' : appended_to l ys xs s s' → frame_but l s s'.
Proof.
  intros (H1 & H2 & H3 & _). split; [by rewrite H3|].
  intros l' zs Hne Hzs. rewrite H2. by rewrite list_lookup_insert_ne.
Qed.

Lemma frame_valid lb s s' x : frame lb s s' → valid_node s x → valid_node s' x.
Proof.
  intros [H _] Hx. unfold valid_node in *. apply prefix_length in H.
  rewrite !shapes_length_nodes in H. lia.
Qed.

Lemma frame_node lb s s' r n :
  frame lb s s' → nodes s !! r = Some n →
  ∃ n', nodes s' !! r = Some n' ∧ shape n' = shape n.
Proof.
  intros [H _] Hn.
  assert (shapes s' !! r = Some (shape n)) as H'.
  { eapply prefix_lookup_Some; [|done]. unfold shapes. by rewrite list_lookup_fmap, Hn. }
  unfold shapes in H'. rewrite list_lookup_fmap in H'.
  destruct (nodes s' !! r) as [n'|]; simplify_eq/=.
  exists n'. split; [done|]. unfold shape. congruence.
Qed.

Lemma frame_shape lb s s' r x :
  frame lb s s' → shapes s !! r = Some x → shapes s' !! r = Some x.
Proof. intros [H _] Hx. by eapply prefix_lookup_Some. Qed.

Section RoundTrip.

Context (env : Collaborators) (spec : Specification).

Lemma renders_as_frame lb s s' r h :
  frame lb s s' → renders_as env spec lb s r h → renders_as env spec lb s' r h.
Proof.
  intros Hf Hr s'' fuel out p rr md df Hf' Hh. apply Hr; [|done]. by eapply frame_trans.
Qed.

Lemma renders_as_mono lb lb' s r h :
  lb ≤ lb' → renders_as env spec lb' s r h → renders_as env spec lb s r h.
Proof.
  intros Hle Hr s' fuel out p rr md df Hf Hh. apply Hr; [|done]. by eapply frame_mono.
Qed.

Lemma parsed_as_frame lb s s' r h :
  frame lb s s' → parsed_as env spec lb s r h → parsed_as env spec lb s' r h.
Proof.
  intros Hf [(n & Hn & Hu) Hr]. split; [|by eapply renders_as_frame].
  destruct (frame_node _ _ _ _ _ Hf Hn) as (n' & Hn' & Hshape).
  exists n'. split; [done|]. by rewrite (is_union_shape _ _ Hshape).
Qed.

Lemma parsed_as_mono lb lb' s r h :
  lb ≤ lb' → parsed_as env spec lb' s r h → parsed_as env spec lb s r h.
Proof. intros Hle [Hn Hr]. split; [done | by eapply renders_as_mono]. Qed.

Lemma parsed_as_valid lb s r h : parsed_as env spec lb s r h → valid_node s r.
Proof.
  intros [(n & Hn & _) _]. by apply lookup_lt_Some in Hn.
Qed.

End RoundTrip.

(** *** What the text of a hint begins and ends with *)

Lemma show_false_name name : show_name false name = name.
Proof. done. Qed.

Lemma parts_text_last ws : ∃ u, parts_text ws = u +:+ "]".
Proof.
  induction ws as [|w ws [u IH]]; [by exists ""|].
  destruct ws as [|w' ws]; [by exists w|].
  rewrite parts_text_cons2, IH. exists (w +:+ "," +:+ u).
  by rewrite !string_app_assoc.
Qed.

Lemma char_at_is_app_l u v i c :
  i < String.length u → Py.char_at_is (u +:+ v) i c = Py.char_at_is u i c.
Proof. intros H. unfold Py.char_at_is. by rewrite <- String.append_correct1. Qed.

Lemma char_at_is_app_r u v i c :
  Py.char_at_is (u +:+ v) (String.length u + i) c = Py.char_at_is v i c.
Proof.
  unfold Py.char_at_is. by rewrite (String.append_correct2 u v i), (Nat.add_comm i).
Qed.

Lemma strip_trailing_skip text a e b :
  a ≤ e → e ≤ b →
  (∀ i, e ≤ i < b → Py.char_at_is text i " " = true) →
  (a < e → Py.char_at_is text (e - 1) " " = false) →
  _strip_trailing text a b = e.
Proof.
  intros Hae Heb Hsp Hc.
  destruct (strip_trailing_loop_spec (b - a) text a b) as (H1 & H2 & H3); [lia | lia |].
  fold (_strip_trailing text a b) in H1, H2, H3.
  destruct (decide (e < _strip_trailing text a b)) as [Hmore|Hnot].
  { rewrite Hsp in H3; [by specialize (H3 ltac:(lia)) | lia]. }
  destruct (decide (_strip_trailing text a b < e)) as [Hless|Hnot'].
  { rewrite H2 in Hc; [by specialize (Hc ltac:(lia)) | lia]. }
  lia.
Qed.

(** The span of a text with spaces before and after it is trimmed to the
    text. *)
Lemma occurs_trim text a l w r b :
  w ≠ "" → Py.char_at_is w 0 " " = false →
  Py.char_at_is w (String.length w - 1) " " = false →
  occurs text a (spaces l +:+ w +:+ spaces r) →
  b = a + l + String.length w + r →
  _strip_leading text a b = a + l
  ∧ _strip_trailing text (a + l) b = a + l + String.length w
  ∧ occurs text (a + l) w.
Proof.
  intros Hne H0 Hlast Ho ->.
  apply occurs_app in Ho as [Hl Ho]. apply occurs_app in Ho as [Hw Hr].
  rewrite spaces_length in Hw, Hr.
  assert (0 < String.length w) as Hlen by (destruct w; [done | simpl; lia]).
  split; [|split; [|done]].
  - apply strip_leading_skip; [| lia |].
    + intros i Hi. replace i with (a + (i - a)) by lia.
      rewrite (occurs_char _ _ _ _ _ Hl) by (rewrite spaces_length; lia).
      apply spaces_char. lia.
    + rewrite <- (Nat.add_0_r (a + l)). by rewrite (occurs_char _ _ _ _ _ Hw).
  - apply strip_trailing_skip; [lia | lia | |].
    + intros i Hi. replace i with (a + l + String.length w + (i - (a + l + String.length w)))
        by lia.
      rewrite (occurs_char _ _ _ _ _ Hr) by (rewrite spaces_length; lia).
      apply spaces_char. lia.
    + intros _. replace (a + l + String.length w - 1)
        with (a + l + (String.length w - 1)) by lia.
      rewrite (occurs_char _ _ _ _ _ Hw) by lia. done.
Qed.

(** A name, an opening bracket and what follows up to a closing bracket. *)
Lemma bracket_text_ends name u :
  name = "" ∨ good_name name = true →
  name +:+ u +:+ "]" ≠ ""
  ∧ (Py.char_at_is (name +:+ u) 0 " " = false →
     Py.char_at_is (name +:+ u +:+ "]") 0 " " = false)
  ∧ Py.char_at_is (name +:+ u +:+ "]")
      (String.length (name +:+ u +:+ "]") - 1) " " = false.
Proof.
  intros Hname. split; [|split].
  - destruct name; [by destruct u | done].
  - intros H. destruct name as [|c name]; [|done].
    rewrite string_app_nil_l in *. destruct u; [done|done].
  - rewrite <- !string_app_assoc.
    rewrite string_app_length. simpl.
    replace (String.length (name +:+ u) + 1 - 1)
      with (String.length (name +:+ u) + 0) by lia.
    by rewrite char_at_is_app_r.
Qed.

Section Parsing.

Context (env : Collaborators) (spec : Specification).

(** The loop of [_lookup_type] is the search [find_parts] followed by
    what is done with the entity that is found. *)
Lemma lookup_parts_found rec parts : ∀ len part_i out scope_klass scope_mapped_type s,
  part_i + length parts = len →
  lookup_parts spec rec len part_i parts out scope_klass scope_mapped_type s
  = match find_parts spec parts scope_klass scope_mapped_type with
    | FoundEnum enum =>
        (let* n := new_node (mkTypeHintNode ENUM None (Some (DefEnum enum)) None) in
         ret (Returned (Some n))) s
    | FoundMappedType mapped_type =>
        (let* r := substitute_with rec (mapped_type_hints mapped_type) out in
         match r with
         | Returned c => ret (Returned c)
         | Left => ret (Returned None)
         end) s
    | FoundClass klass =>
        (let* r := substitute_with rec (class_type_hints klass) out in
         match r with
         | Returned c => ret (Returned c)
         | Left =>
             let* n := new_node (mkTypeHintNode CLASS None (Some (DefClass klass)) None) in
             ret (Returned (Some n))
         end) s
    | FoundNothing => (s, Ok Left)
    end.
Proof.
  induction parts as [|part parts IH]; intros len part_i out sk sm s Hlen; [done|].
  cbn [lookup_parts find_parts].
  assert ((part_i + 1 =? len) = match parts with [] => true | _ :: _ => false end) as ->.
  { destruct parts; simpl in Hlen; [apply Nat.eqb_eq | apply Nat.eqb_neq]; lia. }
  destruct (_lookup_enum spec part _) as [enum|].
  { by destruct parts. }
  destruct sm as [mt|]; [done|].
  destruct (match sk with None => _lookup_mapped_type spec part | Some _ => None end)
    as [mt|].
  { destruct parts as [|part' parts]; [done|]. apply IH. simpl in *. lia. }
  destruct (_lookup_class spec part sk) as [k|]; [|done].
  destruct parts as [|part' parts]; [done|]. apply IH. simpl in *. lia.
Qed.

Lemma lookup_type_found rec name out s :
  lookup_type_with env spec rec name out s
  = match find_type env spec name with
    | FoundEnum enum =>
        (let* n := new_node (mkTypeHintNode ENUM None (Some (DefEnum enum)) None) in
         ret (Some n)) s
    | FoundMappedType mapped_type =>
        (let* r := substitute_with rec (mapped_type_hints mapped_type) out in
         match r with
         | Returned c => ret c
         | Left => ret None
         end) s
    | FoundClass klass =>
        (let* r := substitute_with rec (class_type_hints klass) out in
         match r with
         | Returned c => ret c
         | Left =>
             let* n := new_node (mkTypeHintNode CLASS None (Some (DefClass klass)) None) in
             ret (Some n)
         end) s
    | FoundNothing =>
        (let* n := new_node (mkTypeHintNode OTHER None (Some (DefStr name)) None) in
         ret (Some n)) s
    end.
Proof.
  unfold lookup_type_with, find_type. cbv zeta.
  unfold bind at 1. rewrite (lookup_parts_found rec _ _ 0 out None None s) by done.
  destruct (find_parts spec _ None None) as [e|mt|k|]; try done.
  - unfold bind.
    destruct (substitute_with rec (mapped_type_hints mt) out s) as [s1 [[c|]|e]]; done.
  - unfold bind.
    destruct (substitute_with rec (class_type_hints k) out s) as [s1 [[c|]|e]]; done.
Qed.

Lemma unknown_name_found name :
  unknown_name env spec name = true → find_type env spec name = FoundNothing.
Proof.
  unfold unknown_name, find_type.
  destruct (ScopedName_parse env (Py.replace_dot name)) as [|part parts]; [done|].
  cbn [find_parts fmap option_fmap option_map].
  destruct (_lookup_enum spec part (None, None)); [done|].
  destruct (_lookup_mapped_type spec part); [done|].
  destruct (_lookup_class spec part None); [done|]. done.
Qed.

Lemma shapes_new_node s n :
  shapes (set_nodes (λ ns, ns ++ [n]) s) = shapes s ++ [shape n].
Proof. unfold shapes. simpl. by rewrite fmap_app. Qed.

Lemma shapes_new_node_lookup s n :
  shapes (set_nodes (λ ns, ns ++ [n]) s) !! length (nodes s) = Some (shape n).
Proof.
  rewrite shapes_new_node, lookup_app_r by (by rewrite shapes_length_nodes).
  by rewrite shapes_length_nodes, Nat.sub_diag.
Qed.

Lemma nodes_new_node_lookup s n :
  nodes (set_nodes (λ ns, ns ++ [n]) s) !! length (nodes s) = Some n.
Proof. simpl. rewrite lookup_app_r by done. by rewrite Nat.sub_diag. Qed.

Lemma new_list_run s :
  new_list s = (set_lists (λ ls, ls ++ [[]]) s, Ok (length (lists s))).
Proof. done. Qed.

Lemma new_node_run n s :
  new_node n s = (set_nodes (λ ns, ns ++ [n]) s, Ok (length (nodes s))).
Proof. done. Qed.

Lemma frame_new_node lb s n : frame lb s (set_nodes (λ ns, ns ++ [n]) s).
Proof. split; [rewrite shapes_new_node; by apply prefix_app_r | done]. Qed.

(** *** The nodes without children, rendered *)

Lemma render_other fuel r out pep484 rr module defined s name ch :
  shapes s !! r = Some (OTHER, ch, Some (DefStr name)) →
  _render_node env spec (S fuel) r out pep484 rr module defined s
  = (s, Ok (_maybe_any_object name pep484)).
Proof.
  intros Hs. apply shapes_lookup_node in Hs as (n & Hn & Hshape).
  injection Hshape as Hty Hch Hdef. cbn [_render_node].
  rewrite (bind_Ok _ _ _ _ _ (get_node_Ok _ _ _ Hn)).
  by rewrite Hty, Hdef.
Qed.

Lemma render_class fuel r out pep484 rr module defined s klass ch :
  shapes s !! r = Some (CLASS, ch, Some (DefClass klass)) →
  _render_node env spec (S fuel) r out pep484 rr module defined s
  = (s, Ok (if rr then class_rest_ref env spec klass
            else if pep484 then class_type_hint env spec klass module defined
            else class_fq_py_name env spec klass)).
Proof.
  intros Hs. apply shapes_lookup_node in Hs as (n & Hn & Hshape).
  injection Hshape as Hty Hch Hdef. cbn [_render_node].
  rewrite (bind_Ok _ _ _ _ _ (get_node_Ok _ _ _ Hn)).
  by rewrite Hty, Hdef.
Qed.

Lemma render_enum fuel r out pep484 rr module defined s enum ch :
  shapes s !! r = Some (ENUM, ch, Some (DefEnum enum)) →
  _render_node env spec (S fuel) r out pep484 rr module defined s
  = (s, Ok (if rr then enum_rest_ref env spec enum
            else if pep484 then enum_type_hint env spec enum module defined
            else enum_fq_py_name env spec enum)).
Proof.
  intros Hs. apply shapes_lookup_node in Hs as (n & Hn & Hshape).
  injection Hshape as Hty Hch Hdef. cbn [_render_node].
  rewrite (bind_Ok _ _ _ _ _ (get_node_Ok _ _ _ Hn)).
  by rewrite Hty, Hdef.
Qed.

(** *** A name that stands alone *)

Lemma parse_leaf rec out text top start b name s :
  leaf_ok env spec out name = true → occurs text start name →
  b = start + String.length name →
  ∃ s' r, make_node env spec rec out text top start b None s = (s', Ok (Some r))
          ∧ parsed_as env spec (length (lists s)) s' r (HName name).
Proof.
  intros Hc Ho Hb. unfold leaf_ok in Hc. apply andb_true_iff in Hc as [Hg Hk].
  apply good_name_inv in Hg as (Hne & Hplain & _).
  assert (0 < String.length name) as Hlen by (destruct name; [done | simpl; lia]).
  unfold make_node. rewrite bool_decide_eq_true_2 by lia. cbv zeta.
  rewrite (occurs_slice text start b name Ho Hb).
  unfold parsed_as, renders_as. cbn [rendered is_union_hint]. unfold leaf_text.
  destruct (bool_decide (name ∈ _TYPING_MODULE)) eqn:Hty.
  - apply negb_true_iff in Hk. rewrite Hk.
    eexists _, _. split; [reflexivity|]. split.
    + eexists. split; [apply nodes_new_node_lookup|]. unfold is_union. simpl.
      by rewrite Hk.
    + intros s' fuel out' p rr md df Hf Hh. destruct fuel as [|fuel]; [simpl in Hh; lia|].
      rewrite (_render_node_typing env spec fuel _ _ _ _ _ _ _ None (Some (DefStr name)))
        by (eapply frame_shape; [done|]; apply shapes_new_node_lookup).
      rewrite bind_ret_l. unfold show_name. rewrite Hty.
      by destruct p.
  - rewrite lookup_type_found.
    destruct (find_type env spec name) as [e|mt|k|] eqn:Hfound; [| done | |].
    + eexists _, _. split; [reflexivity|]. split.
      * eexists. split; [apply nodes_new_node_lookup | done].
      * intros s' fuel out' p rr md df Hf Hh.
        destruct fuel as [|fuel]; [simpl in Hh; lia|].
        apply (render_enum fuel _ _ _ _ _ _ _ e None).
        eapply frame_shape; [done|]. apply shapes_new_node_lookup.
    + destruct (override_hint (class_type_hints k) out) eqn:Hov; [done|].
      unfold substitute_with. rewrite Hov.
      eexists _, _. split; [reflexivity|]. split.
      * eexists. split; [apply nodes_new_node_lookup | done].
      * intros s' fuel out' p rr md df Hf Hh.
        destruct fuel as [|fuel]; [simpl in Hh; lia|].
        apply (render_class fuel _ _ _ _ _ _ _ k None).
        eapply frame_shape; [done|]. apply shapes_new_node_lookup.
    + eexists _, _. split; [reflexivity|]. split.
      * eexists. split; [apply nodes_new_node_lookup | done].
      * intros s' fuel out' p rr md df Hf Hh.
        destruct fuel as [|fuel]; [simpl in Hh; lia|].
        rewrite (render_other fuel _ _ _ _ _ _ _ name None)
          by (eapply frame_shape; [done|]; apply shapes_new_node_lookup).
        unfold _maybe_any_object. rewrite bool_decide_eq_true_2; [done|].
        intros ->. by vm_compute in Hty.
Qed.

End Parsing.

Section Parsing2.

Context (env : Collaborators) (spec : Specification).

(** The end of the part that a written hint is. *)
Lemma find_part_end_hint text i out h tail m :
  legible env spec out (erase h) = true →
  occurs text i (written h +:+ tail) →
  Py.char_at_is tail 0 "," || Py.char_at_is tail 0 "]" = true →
  find_part_end (String.length (written h) + S m) text i 0
  = Some (i + String.length (written h)).
Proof.
  intros Hc Ho Hsep.
  apply occurs_app in Ho as [Hshow Ho].
  rewrite (find_part_end_written env spec (height (erase h)) out) by done.
  destruct tail as [|c tail]; [done|].
  unfold Py.char_at_is in Hsep. cbn [String.get] in Hsep.
  apply find_part_end_stop; rewrite !(occurs_head _ _ _ _ _ Ho).
  - apply orb_true_iff in Hsep as [H|H]; apply Ascii.eqb_eq in H; by subst.
  - done.
Qed.

Section Loop.

Variable k : nat.
Hypothesis IHk : ∀ h out text a b s,
  legible env spec out (erase h) = true → height (erase h) ≤ k →
  occurs text a (written h) →
  b = a + String.length (written h) →
  ∃ s' r, _parse_node env spec k out text a (Some b) s = (s', Ok (Some r))
          ∧ parsed_as env spec (length (lists s)) s' r (erase h).

(** The loop [while True] over the written arguments [hs]: every one of
    them is parsed and appended to the list of children. *)
Lemma parse_parts_hints hs : ∀ n out text end_ l i s cs0,
  hs ≠ [] →
  Forall (λ h, legible env spec out (erase h) = true) hs →
  Forall (λ h, height (erase h) ≤ k) hs →
  occurs text (S i) (parts_text (map written hs)) →
  end_ = S i + String.length (parts_text (map written hs)) →
  lists s !! l = Some cs0 → Forall (valid_node s) cs0 →
  end_ - i < n →
  ∃ s' cs,
    parse_parts (_parse_node env spec k) n out text end_ l i s = (s', Ok tt)
    ∧ lists s' !! l = Some (cs0 ++ cs)
    ∧ Forall2 (parsed_as env spec (S l) s') cs (map erase hs)
    ∧ frame_but l s s'.
Proof.
  induction hs as [|h hs IH]; intros n out text end_ l i s cs0 Hne Hc Hh Ho Hend Hl Hv Hn;
    [done|].
  apply Forall_cons in Hc as [Hch Hc]. apply Forall_cons in Hh as [Hhh Hh].
  destruct n as [|n]; [lia|]. cbn [parse_parts]. rewrite Nat.add_1_r.
  set (p := S i + String.length (written h)).
  set (tail := match map written hs with
               | [] => "]"
               | _ :: _ => "," +:+ parts_text (map written hs)
               end).
  assert (parts_text (map written (h :: hs)) = written h +:+ tail) as Htext by done.
  rewrite Htext in Ho, Hend. rewrite string_app_length in Hend.
  assert (tail ≠ "" ∧ (Py.char_at_is tail 0 "," || Py.char_at_is tail 0 "]" = true))
    as [Htail Hsep] by (unfold tail; by destruct (map written hs)).
  assert (0 < String.length tail) as Htlen by (destruct tail; [done | simpl; lia]).
  assert (find_part_end (end_ - S i) text (S i) 0 = Some p) as ->.
  { replace (end_ - S i)
      with (String.length (written h) + S (String.length tail - 1)) by lia.
    by apply find_part_end_hint with (out := out) (tail := tail). }
  pose proof Ho as Ho'.
  apply occurs_app in Ho' as [Hoh Hot].
  destruct (IHk h out text (S i) p s Hch Hhh Hoh eq_refl) as (s1 & c & Hrun & Hpc).
  rewrite (bind_Ok _ _ _ _ _ Hrun).
  pose proof (_parse_node_extending env spec k out text (S i) (Some p) s) as Hext.
  rewrite Hrun in Hext. simpl in Hext.
  assert (lists s1 !! l = Some cs0) as Hl1 by (by apply (ext_lists _ _ Hext)).
  assert (Forall (valid_node s1) cs0) as Hv1.
  { eapply Forall_impl; [done|]. intros x Hx.
    pose proof (extends_nodes_length _ _ Hext). unfold valid_node in *. lia. }
  destruct (_append_child_run l c s1 cs0 Hl1 Hv1) as (s2 & Hrun2 & Happ).
  rewrite (bind_Ok _ _ _ _ _ Hrun2).
  assert (frame_but l s s2) as Hf2.
  { eapply frame_but_trans; [by apply extends_frame_but | by eapply appended_to_frame_but]. }
  assert (l < length (lists s)) as Hllen by (by eapply lookup_lt_Some).
  assert (parsed_as env spec (S l) s2 c (erase h)) as Hpc2.
  { eapply parsed_as_frame.
    - eapply frame_but_frame; [|by eapply appended_to_frame_but]. lia.
    - eapply parsed_as_mono; [|done]. lia. }
  destruct hs as [|h' hs].
  - (* the last part *)
    assert (S p = end_) as Hp.
    { unfold tail in Hend. simpl in Hend. unfold p. lia. }
    destruct n as [|n]; [lia|]. cbn [parse_parts]. rewrite Nat.add_1_r, Hp, Nat.sub_diag.
    cbn [find_part_end].
    exists s2, [c]. split; [done|]. split; [by eapply appended_to_lookup|].
    split; [|done]. constructor; [done | constructor].
  - (* a comma, and the parts after it *)
    assert (tail = "," +:+ parts_text (map written (h' :: hs))) as Htail' by done.
    rewrite Htail' in Hot, Hend.
    apply occurs_app in Hot as [_ Hot]. rewrite string_app_length in Hend.
    change (String.length ",") with 1 in *.
    destruct (IH n out text end_ l p s2 (cs0 ++ [c])) as (s3 & cs & Hrun3 & Hl3 & Hcs & Hf3).
    + done.
    + done.
    + done.
    + replace (S p) with (S i + String.length (written h) + 1) by (unfold p; lia). done.
    + unfold p. lia.
    + by eapply appended_to_lookup.
    + apply Forall_app. split.
      * eapply Forall_impl; [exact Hv1|]. intros; by eapply appended_to_valid.
      * apply Forall_singleton. by eapply parsed_as_valid.
    + unfold p. lia.
    + exists s3, (c :: cs). split; [done|]. split; [by rewrite <- app_assoc in Hl3|].
      split; [|by eapply frame_but_trans].
      constructor; [|done]. eapply parsed_as_frame; [|done].
      eapply frame_but_frame; [|done]. lia.
Qed.

End Loop.

End Parsing2.

Lemma map_M_Forall2 {A B} (f : A → M B) cs ys s :
  Forall2 (λ c y, f c s = (s, Ok y)) cs ys → map_M f cs s = (s, Ok ys).
Proof.
  induction 1 as [|c y cs ys Hc _ IH]; simpl; [done|].
  by rewrite (bind_Ok _ _ _ _ _ Hc), (bind_Ok _ _ _ _ _ IH).
Qed.

Section Parsing3.

Context (env : Collaborators) (spec : Specification).

Lemma generic_name out name args :
  legible env spec out (HGeneric name args) = true →
  (name = "" ∨ (name ≠ "" ∧ name ∈ _TYPING_MODULE ∧ good_name name = true))
  ∧ args ≠ []
  ∧ (name = "Union" → Forall (λ a, is_union_hint a = false) args).
Proof.
  cbn [legible]. intros H. apply andb_true_iff in H as [H Hu].
  apply andb_true_iff in H as [H _]. apply andb_true_iff in H as [Hn Ha].
  split; [|split].
  - apply orb_true_iff in Hn as [Hn|Hn]; apply bool_decide_eq_true in Hn; [by left|].
    right. pose proof (typing_names_good _ Hn) as Hg. split; [|done].
    by apply good_name_inv in Hg as [].
  - by destruct args.
  - intros ->. rewrite bool_decide_eq_true_2 in Hu by done. simpl in Hu.
    rewrite forallb_forall in Hu. apply Forall_forall. intros a Ha'.
    apply list_elem_of_In, Hu, negb_true_iff in Ha'. done.
Qed.

(** A node of the typing module with children is rendered as its name
    and, between brackets, its children. *)
Lemma render_generic lb lbc s r l cs name args :
  shapes s !! r = Some (TYPING, Some l, generic_def name) →
  name = "" ∨ name ∈ _TYPING_MODULE →
  lb ≤ l → lb ≤ lbc → lists s !! l = Some cs →
  Forall2 (renders_as env spec lbc s) cs args →
  renders_as env spec lb s r (HGeneric name args).
Proof.
  intros Hshape Hname Hl Hlbc Hcs Hkids s' fuel out p rr md df Hf Hh.
  destruct fuel as [|fuel]; [simpl in Hh; lia|].
  rewrite (_render_node_typing env spec fuel _ _ _ _ _ _ _ (Some l) (generic_def name))
    by (by eapply frame_shape).
  assert (match generic_def name with
          | None => ret ""
          | Some (DefStr d) => ret (if p then "typing." +:+ d else d)
          | Some _ => raise TypeError
          end s' = (s', Ok (show_name p name))) as Hstr.
  { unfold generic_def, show_name. destruct Hname as [->|Hin].
    - rewrite bool_decide_eq_true_2 by done. by rewrite andb_false_r.
    - case_bool_decide as Hempty.
      { subst. apply typing_names_good in Hin. by vm_compute in Hin. }
      rewrite (bool_decide_eq_true_2 _ Hin). by destruct p. }
  rewrite (bind_Ok _ _ _ _ _ Hstr).
  assert (lists s' !! l = Some cs) as Hcs' by (destruct Hf as [_ Hf]; by apply Hf).
  rewrite (bind_Ok _ _ _ _ _ (get_list_Ok _ _ _ Hcs')).
  erewrite (bind_Ok _ _ _ _ (map (rendered env spec p rr md df) args)); [done|].
  apply map_M_Forall2. apply Forall2_fmap_r.
  assert (Forall (λ a, height a ≤ fuel) args) as Hhs.
  { apply Forall_forall. intros a Ha. pose proof (height_args name args a Ha) as Hlt. lia. }
  clear Hh Hshape Hstr Hcs Hcs'.
  induction Hkids as [|c a cs' args' Hc _ IH]; [constructor|].
  apply Forall_cons in Hhs as [Ha Hhs]. constructor; [|by apply IH].
  apply Hc; [|done]. by eapply frame_mono.
Qed.

End Parsing3.

Section Parsing4.

Context (env : Collaborators) (spec : Specification).

Lemma concat_flat_plain s cs :
  Forall (λ c, ∃ n, nodes s !! c = Some n ∧ is_union n = false) cs →
  concat (flat s <$> cs) = cs.
Proof.
  induction 1 as [|c cs (n & Hn & Hu) _ IH]; [done|].
  rewrite fmap_cons. cbn [concat]. rewrite IH. unfold flat. by rewrite Hn, Hu.
Qed.

(** The node that [_parse_node] makes of a name of the typing module (or
    of no name) and of children that have been parsed. *)
Lemma make_node_generic rec out text top start i name l cs s :
  name = "" ∨ (name ≠ "" ∧ name ∈ _TYPING_MODULE ∧ good_name name = true) →
  occurs text start name → i = start + String.length name →
  lists s !! l = Some cs → cs ≠ [] → Forall (valid_node s) cs →
  (name = "Union" → Forall (λ c, ∃ n, nodes s !! c = Some n ∧ is_union n = false) cs) →
  ∃ s' r l',
    make_node env spec rec out text top start i (Some l) s = (s', Ok (Some r))
    ∧ shapes s' !! r = Some (TYPING, Some l', generic_def name)
    ∧ l ≤ l' ∧ lists s' !! l' = Some cs ∧ frame 0 s s'.
Proof.
  intros Hname Ho Hi Hl Hcs Hv Hplain. unfold generic_def.
  assert ((length cs =? 0) = false) as Hlen by (destruct cs; [done | done]).
  destruct Hname as [->|(Hne & Hin & Hg)].
  - simpl in Hi. rewrite Nat.add_0_r in Hi. subst i.
    unfold make_node. rewrite bool_decide_eq_false_2 by (intros H; by apply H).
    assert ((if top
             then match Some l with
                  | None => ret true
                  | Some ch => let* xs := get_list ch in ret (length xs =? 0)
                  end
             else ret false) s = (s, Ok false)) as Hno.
    { destruct top; [|done].
      rewrite (bind_Ok _ _ _ _ _ (get_list_Ok _ _ _ Hl)). by rewrite Hlen. }
    rewrite (bind_Ok _ _ _ _ _ Hno).
    rewrite (bind_Ok _ _ _ _ _ (new_node_run _ _)).
    eexists _, _, l. split; [reflexivity|].
    split; [by rewrite shapes_new_node_lookup|]. split; [done|]. split; [done|].
    apply frame_new_node.
  - assert (0 < String.length name) as Hnlen by (destruct name; [done | simpl; lia]).
    unfold make_node. rewrite bool_decide_eq_true_2 by lia. cbv zeta.
    rewrite (occurs_slice text start i name Ho Hi).
    rewrite (bool_decide_eq_true_2 _ Hin), (bool_decide_eq_false_2 _ Hne).
    destruct (bool_decide (name = "Union")) eqn:Hunion.
    + apply bool_decide_eq_true in Hunion. specialize (Hplain Hunion).
      rewrite (bind_Ok _ _ _ _ _ (get_list_Ok _ _ _ Hl)), Hlen.
      rewrite (bind_Ok _ _ _ _ _ (new_list_run _)).
      set (s3 := set_lists (λ ls, ls ++ [[]]) s). set (f := length (lists s)).
      assert (lists s3 !! f = Some []) as Hf.
      { unfold s3, f. simpl. rewrite lookup_app_r by done. by rewrite Nat.sub_diag. }
      destruct (flatten_unions_run f cs s3 [] Hf) as (s4 & Hrun & Happ).
      { constructor. }
      { eapply Forall_impl; [exact Hplain|]. intros c (n & Hn & Hu).
        exists n. split; [done|]. intros Hu'. congruence. }
      rewrite (concat_flat_plain s3 cs Hplain) in Happ.
      rewrite (bind_Ok _ _ _ _ _ Hrun).
      rewrite (bind_Ok _ _ _ _ _ (new_node_run _ _)).
      eexists _, _, f. split; [reflexivity|].
      split; [rewrite shapes_new_node_lookup; by subst name|].
      assert (l < f) as Hlf by (by eapply lookup_lt_Some).
      split; [lia|]. split; [by apply (appended_to_lookup _ _ _ _ _ Happ)|].
      eapply frame_trans; [|apply frame_new_node].
      destruct Happ as (_ & Hlists & Hshapes & _). split.
      * by rewrite Hshapes.
      * intros l0 xs _ Hxs. rewrite Hlists.
        assert (l0 < f) as Hl0 by (by eapply lookup_lt_Some).
        rewrite list_lookup_insert_ne by lia. simpl. by apply lookup_app_l_Some.
    + rewrite (bind_Ok _ _ _ _ _ (new_node_run _ _)).
      eexists _, _, l. split; [reflexivity|].
      split; [by rewrite shapes_new_node_lookup|]. split; [done|]. split; [done|].
      apply frame_new_node.
Qed.

Lemma find_open_bracket name mid u :
  plain name = true →
  Py.find "[" (name +:+ spaces mid +:+ "[" +:+ u) = Some (String.length name + mid).
Proof.
  intros Hplain.
  rewrite find_app by (by apply plain_find_open).
  rewrite find_app by (apply plain_find_open, plain_spaces).
  rewrite string_app_cons. cbn [Py.find]. rewrite Ascii.eqb_refl. simpl.
  rewrite spaces_length. f_equal. lia.
Qed.

Section Brackets.

Variable k : nat.
Hypothesis IHk : ∀ h out text a b s,
  legible env spec out (erase h) = true → height (erase h) ≤ k →
  occurs text a (written h) →
  b = a + String.length (written h) →
  ∃ s' r, _parse_node env spec k out text a (Some b) s = (s', Ok (Some r))
          ∧ parsed_as env spec (length (lists s)) s' r (erase h).

(** The body of [_parse_node] on a name followed by bracketed arguments,
    with spaces before the name, between the name and the bracket and
    after the closing bracket, up to the point where the node is made. *)
Lemma parse_brackets name lead mid r args out text a end_ b s :
  name = "" ∨ good_name name = true →
  (name = "" → mid = 0) →
  args ≠ [] →
  Forall (λ h, legible env spec out (erase h) = true) args →
  Forall (λ h, height (erase h) ≤ k) args →
  occurs text a (spaces lead +:+ (name +:+ spaces mid +:+ "["
                                  +:+ parts_text (map written args)) +:+ spaces r) →
  b = a + lead
      + String.length (name +:+ spaces mid +:+ "[" +:+ parts_text (map written args))
      + r →
  match end_ with Some e => e | None => Py.len text end = b →
  ∃ top s2 cs,
    parse_node_body env spec (_parse_node env spec k) out text a end_ s
    = make_node env spec (_parse_node env spec k) out text top
        (a + lead) (a + lead + String.length name) (Some (length (lists s))) s2
    ∧ occurs text (a + lead) name
    ∧ lists s2 !! length (lists s) = Some cs
    ∧ cs ≠ []
    ∧ Forall2 (parsed_as env spec (S (length (lists s))) s2) cs (map erase args).
Proof.
  intros Hname Hmid Hargs Hcargs Hhargs Ho Hb Hend.
  unfold parse_node_body.
  assert (∃ top, match end_ with
                 | None => (Py.len text, true)
                 | Some e => (e, false)
                 end = (b, top)) as [top ->].
  { destruct end_; simpl in Hend; rewrite Hend; by eexists. }
  cbv beta iota zeta. exists top.
  set (A := parts_text (map written args)) in *.
  set (w := name +:+ spaces mid +:+ "[" +:+ A) in *.
  assert (plain name = true) as Hplain.
  { destruct Hname as [->|Hg]; [done|]. apply good_name_inv in Hg. tauto. }
  destruct (parts_text_last (map written args)) as [u Hu]. fold A in Hu.
  assert (w = (name +:+ spaces mid +:+ "[" +:+ u) +:+ "]") as Hw.
  { unfold w. rewrite Hu. by rewrite !string_app_assoc. }
  assert (w ≠ "" ∧ Py.char_at_is w 0 " " = false
          ∧ Py.char_at_is w (String.length w - 1) " " = false) as (Hne & H0 & Hlast).
  { split; [|split].
    - unfold w. destruct name; [|done]. rewrite Hmid by done. done.
    - unfold w. destruct Hname as [->|Hg].
      + rewrite Hmid by done. done.
      + apply good_name_inv in Hg as (Hne & _ & H0 & _).
        rewrite char_at_is_app_l; [done|]. destruct name; [done | simpl; lia].
    - rewrite Hw, string_app_length. simpl.
      replace (String.length (name +:+ spaces mid +:+ "[" +:+ u) + 1 - 1)
        with (String.length (name +:+ spaces mid +:+ "[" +:+ u) + 0) by lia.
      by rewrite char_at_is_app_r. }
  destruct (occurs_trim text a lead w r b Hne H0 Hlast Ho Hb) as (Hlead & Htrail & Hshow).
  rewrite Hlead, Htrail.
  set (start := a + lead) in *.
  rewrite (occurs_slice text start _ w Hshow) by done.
  unfold w at 1. rewrite (find_open_bracket name mid A Hplain).
  rewrite (bind_Ok _ _ _ _ _ (new_list_run _)).
  set (s1 := set_lists (λ ls, ls ++ [[]]) s). set (l := length (lists s)).
  pose proof Hshow as Hshow'. unfold w in Hshow'.
  apply occurs_app in Hshow' as [Hon Hosp]. apply occurs_app in Hosp as [Hosp Hobr].
  apply occurs_app in Hobr as [Hobr HoA].
  rewrite spaces_length in Hobr, HoA. change (String.length "[") with 1 in HoA.
  assert (String.length w = String.length name + mid + 1 + String.length A) as Hwlen.
  { unfold w. rewrite !string_app_length, spaces_length. simpl. lia. }
  assert (Py.char_at_is text (start + String.length w - 1) "]" = true) as ->.
  { pose proof HoA as HoA'. rewrite Hu in HoA'. apply occurs_app in HoA' as [_ HoA'].
    assert (String.length A = String.length u + 1) as HA
      by (rewrite Hu, string_app_length; done).
    replace (start + String.length w - 1)
      with (start + String.length name + mid + 1 + String.length u) by lia.
    by rewrite (occurs_head _ _ _ _ _ HoA'). }
  cbn [negb].
  assert (_strip_trailing text start (String.length name + mid + start)
          = start + String.length name) as ->.
  { apply strip_trailing_skip; [lia | lia | |].
    - intros i Hi. replace i with (start + String.length name + (i - (start + String.length name)))
        by lia.
      rewrite (occurs_char _ _ _ _ _ Hosp) by (rewrite spaces_length; lia).
      apply spaces_char. lia.
    - intros Hlt'. destruct Hname as [->|Hg]; [simpl in Hlt'; lia|].
      apply good_name_inv in Hg as (_ & _ & _ & Hlast').
      replace (start + String.length name - 1)
        with (start + (String.length name - 1)) by lia.
      rewrite (occurs_char _ _ _ _ _ Hon) by lia. done. }
  destruct (parse_parts_hints env spec k IHk
              args (S (start + String.length w - (String.length name + mid + start)))
              out text (start + String.length w) l
              (String.length name + mid + start) s1 [])
    as (s2 & cs & Hrun & Hcs & Hkids & Hf2).
  { done. }
  { done. }
  { done. }
  { replace (S (String.length name + mid + start))
      with (start + String.length name + mid + 1) by lia.
    done. }
  { fold A. lia. }
  { unfold s1, l. simpl. rewrite lookup_app_r by done. by rewrite Nat.sub_diag. }
  { constructor. }
  { lia. }
  rewrite (bind_Ok _ _ _ _ _ Hrun). simpl in Hcs.
  exists s2, cs. split; [done|]. split; [done|]. split; [done|]. split; [|done].
  intros ->. apply Forall2_nil_inv_l in Hkids. by destruct args.
Qed.

End Brackets.

(** The spaces between a missing name and the bracket are spaces before
    the bracket. *)
Lemma written_generic_lead l name m u :
  ∃ lead mid,
    spaces l +:+ name +:+ spaces m +:+ u = spaces lead +:+ name +:+ spaces mid +:+ u
    ∧ lead + mid = l + m
    ∧ (name = "" → mid = 0).
Proof.
  destruct (decide (name = "")) as [->|Hne].
  - exists (l + m), 0. rewrite !string_app_nil_l, spaces_add, string_app_assoc.
    split; [done|]. split; [lia | done].
  - exists l, m. done.
Qed.

(** [_parse_node] on a written hint: the node that it returns is the node
    of the hint. *)
Lemma parse_node_spaced k : ∀ h out text a end_ b s,
  legible env spec out (erase h) = true → height (erase h) ≤ k →
  occurs text a (written h) →
  b = a + String.length (written h) →
  match end_ with Some e => e | None => Py.len text end = b →
  ∃ s' r, _parse_node env spec k out text a end_ s = (s', Ok (Some r))
          ∧ parsed_as env spec (length (lists s)) s' r (erase h).
Proof.
  induction k as [|k IH]; intros h out text a end_ b s Hc Hh Ho Hb Hend.
  { destruct h; simpl in Hh; lia. }
  cbn [_parse_node].
  destruct h as [l name r|l name m args r].
  - unfold parse_node_body.
    assert (∃ top, match end_ with
                   | None => (Py.len text, true)
                   | Some e => (e, false)
                   end = (b, top)) as [top ->].
    { destruct end_; simpl in Hend; rewrite Hend; by eexists. }
    cbv beta iota zeta. cbn [written erase legible] in *.
    pose proof (leaf_ok_good _ _ _ _ Hc) as Hg.
    apply good_name_inv in Hg as (Hne & Hplain & H0 & Hlast).
    rewrite !string_app_length, !spaces_length in Hb.
    destruct (occurs_trim text a l name r b Hne H0 Hlast Ho ltac:(lia))
      as (Hlead & Htrail & Hshow).
    rewrite Hlead, Htrail.
    rewrite (occurs_slice text _ _ _ Hshow) by done.
    rewrite plain_find_open by done.
    by apply parse_leaf.
  - cbn [erase] in Hc, Hh.
    destruct (generic_name env spec out name _ Hc) as (Hname & Hargs & Hunion).
    pose proof (legible_args env spec out name _ Hc) as Hcargs.
    assert (Forall (λ a, height a ≤ k) (map erase args)) as Hhargs.
    { apply Forall_forall. intros x Hx. pose proof (height_args name _ x Hx). lia. }
    rewrite Forall_fmap in Hcargs, Hhargs.
    rewrite written_generic in *.
    set (A := parts_text (map written args)) in *.
    destruct (written_generic_lead l name m ("[" +:+ A +:+ spaces r))
      as (lead & mid & Htext & Hsum & Hmid).
    rewrite Htext in Ho.
    assert (String.length (spaces l +:+ name +:+ spaces m +:+ "[" +:+ A +:+ spaces r)
            = lead + String.length (name +:+ spaces mid +:+ "[" +:+ A) + r) as Hlen.
    { rewrite !string_app_length, !spaces_length. simpl. lia. }
    rewrite Hlen in Hb.
    destruct (parse_brackets k
                (λ h out text a b s Hc Hh Ho Hb,
                   IH h out text a (Some b) b s Hc Hh Ho Hb eq_refl)
                name lead mid r args out text a end_ b s)
      as (top & s2 & cs & -> & Hon & Hcs & Hcsne & Hkids); try done.
    { destruct Hname as [?|(_ & _ & ?)]; [by left | by right]. }
    { by destruct args. }
    { by rewrite !string_app_assoc in *. }
    { fold A. lia. }
    set (lc := length (lists s)) in *.
    destruct (make_node_generic (_parse_node env spec k) out text top
                (a + lead) (a + lead + String.length name) name lc cs s2)
      as (s3 & rt & l' & Hmake & Hshape & Hll' & Hl' & Hf3).
    { done. }
    { done. }
    { done. }
    { done. }
    { done. }
    { eapply Forall2_Forall_l; [exact Hkids|]. apply Forall_forall.
      intros x _ c Hp. by eapply parsed_as_valid. }
    { intros Hu. specialize (Hunion Hu).
      clear -Hkids Hunion. induction Hkids as [|c x cs' args' Hp _ IH']; [constructor|].
      apply Forall_cons in Hunion as [Hux Hunion].
      constructor; [|by apply IH'].
      destruct Hp as [(n & Hn & Hun) _]. exists n. split; [done | congruence]. }
    exists s3, rt. split; [done|]. split.
    + apply shapes_lookup_node in Hshape as (n & Hn & Hsh).
      exists n. split; [done|]. injection Hsh as Hty _ Hdef.
      unfold is_union. rewrite Hty, Hdef. cbn [erase is_union_hint]. unfold generic_def.
      destruct (decide (name = "")) as [->|Hne]; [done|].
      by rewrite (bool_decide_eq_false_2 (name = "")).
    + eapply (render_generic env spec lc (S lc) s3 rt l' cs name (map erase args));
        [done | | lia | lia | done |].
      * destruct Hname as [?|(_ & ? & _)]; [by left | by right].
      * eapply Forall2_impl; [exact Hkids|]. intros c x [_ Hr].
        eapply renders_as_frame; [|done]. eapply frame_mono; [|done]. lia.
Qed.

End Parsing4.

Lemma occurs_self w : occurs w 0 w.
Proof. by intros i c H. Qed.

(** *** Hints written as they are rendered *)

Lemma Hint_induction (P : Hint → Prop) :
  (∀ name, P (HName name)) →
  (∀ name args, Forall P args → P (HGeneric name args)) →
  ∀ h, P h.
Proof.
  intros Hn Hg. fix IH 1. intros [name|name args]; [apply Hn|].
  apply Hg. induction args as [|a args IHargs]; constructor; [apply IH | apply IHargs].
Qed.

Lemma join_comma_space ws : ∀ pre w,
  Py.join "," ((pre +:+ w) :: map (λ x, " " +:+ x) ws) = pre +:+ Py.join ", " (w :: ws).
Proof.
  unfold Py.join. induction ws as [|y ws IH]; intros pre w; [done|].
  cbn [map]. rewrite !concat_cons2, IH. by rewrite !string_app_assoc.
Qed.

Lemma written_tidy h : ∀ sp, written (tidy sp h) = pad sp +:+ show false h.
Proof.
  induction h as [name|name args IH] using Hint_induction; intros sp.
  - cbn [tidy written show]. rewrite show_false_name, string_app_nil_r. by destruct sp.
  - cbn [tidy written show]. rewrite show_false_name.
    assert (Py.join "," (map written match args with
                                     | [] => []
                                     | a :: rest => tidy false a :: map (tidy true) rest
                                     end)
            = Py.join ", " (map (show false) args)) as ->.
    { destruct args as [|a args]; [done|].
      apply Forall_cons in IH as [Ha IH]. cbn [map]. rewrite (Ha false).
      assert (map written (map (tidy true) args)
              = map (λ x, " " +:+ x) (map (show false) args)) as ->.
      { induction IH as [|b args Hb _ IHargs]; [done|].
        cbn [map]. by rewrite (Hb true), IHargs. }
      change (pad false +:+ show false a) with ("" +:+ show false a).
      by rewrite join_comma_space. }
    rewrite string_app_nil_r.
    replace (spaces (if sp then 1 else 0)) with (pad sp) by (by destruct sp).
    done.
Qed.

Lemma erase_tidy h : ∀ sp, erase (tidy sp h) = h.
Proof.
  induction h as [name|name args IH] using Hint_induction; intros sp; [done|].
  cbn [tidy erase]. f_equal.
  destruct args as [|a args]; [done|].
  apply Forall_cons in IH as [Ha IH]. cbn [map]. rewrite (Ha false). f_equal.
  induction IH as [|b args Hb _ IHargs]; [done|].
  cbn [map]. by rewrite (Hb true), IHargs.
Qed.

Section RoundTripTheorems.

Context (env : Collaborators) (spec : Specification).

Lemma forallb_Forall_impl {A} (f g : A → bool) l :
  Forall (λ a, f a = true → g a = true) l → forallb f l = true → forallb g l = true.
Proof.
  induction 1 as [|a l Ha _ IH]; [done|]. simpl. intros H.
  apply andb_true_iff in H as [H1 H2]. by rewrite Ha, IH.
Qed.

(** A hint in the rendered form is one that the parser makes a tree of,
    for both directions. *)
Lemma canonical_legible out h : canonical env spec h = true → legible env spec out h = true.
Proof.
  induction h as [name|name args IH] using Hint_induction.
  - cbn [canonical legible]. unfold leaf_ok. intros H.
    apply andb_true_iff in H as [Hg Hk]. rewrite Hg. cbn [andb].
    destruct (bool_decide (name ∈ _TYPING_MODULE)); [done|].
    by rewrite (unknown_name_found env spec name Hk).
  - cbn [canonical legible]. intros H.
    apply andb_true_iff in H as [H Hu]. apply andb_true_iff in H as [H Ha].
    rewrite H, Hu. cbn [andb]. rewrite andb_true_r.
    by apply (forallb_Forall_impl _ _ _ IH).
Qed.

(** It is rendered as it is shown. *)
Lemma rendered_canonical pep484 rr module defined h :
  canonical env spec h = true → rendered env spec pep484 rr module defined h = show pep484 h.
Proof.
  induction h as [name|name args IH] using Hint_induction.
  - cbn [canonical rendered show]. unfold leaf_text. intros H.
    apply andb_true_iff in H as [Hg Hk].
    destruct (bool_decide (name ∈ _TYPING_MODULE)) eqn:Hty; [done|].
    rewrite (unknown_name_found env spec name Hk).
    unfold show_name. by rewrite Hty, andb_false_r.
  - cbn [canonical rendered show]. intros H.
    apply andb_true_iff in H as [H _]. apply andb_true_iff in H as [_ Ha].
    assert (map (rendered env spec pep484 rr module defined) args
            = map (show pep484) args) as ->; [|done].
    rewrite forallb_forall in Ha.
    induction IH as [|a args Hap _ IHargs]; [done|].
    cbn [map]. rewrite Hap by (apply Ha; by left). f_equal.
    apply IHargs. intros x Hx. apply Ha. by right.
Qed.

(** X15. A hint in the rendered form is read back as it was written:
    built from names of the typing module, names that the symbol table
    does not know and bracketed arguments (with or without a name before
    the bracket), written with a comma and a space between arguments, its
    text is parsed to a tree, and the first render of it gives the same
    text in qualified mode, and the text with [typing.] before every name
    of the typing module in annotation mode. *)
Theorem rendered_form_is_read_back (h : Hint) (fuel : nat) (out pep484 rr : bool)
    (module : option (module_t env)) (defined : option (defined_t env))
    (s : State) (m : ManagedTypeHint) :
  canonical env spec h = true → height h ≤ fuel →
  managed s !! show false h = Some m → parse_state m = REQUIRED →
  text (type_hint m) = show false h →
  (_render env spec fuel (show false h) out pep484 rr module defined s).2
  = Ok (show pep484 h).
Proof.
  intros Hc Hh Hm Hreq Htext.
  set (s1 := set_managed (λ ms, <[show false h := with_parse_state PARSING m]> ms) s).
  pose proof (written_tidy h false) as Hw. rewrite string_app_nil_l in Hw.
  destruct (parse_node_spaced env spec fuel (tidy false h) out (show false h) 0 None
              (Py.len (show false h)) s1) as (s2 & r & Hrun & _ & Hr).
  { rewrite erase_tidy. by apply canonical_legible. }
  { by rewrite erase_tidy. }
  { rewrite Hw. apply occurs_self. }
  { by rewrite Hw. }
  { done. }
  rewrite erase_tidy in Hr.
  rewrite <- Htext in Hrun at 1.
  destruct (_render_run env spec fuel (show false h) out pep484 rr module defined s m s2
              (Some r) Hm Hreq Hrun) as (s3 & Hn & Hl & ->).
  rewrite (Hr s3 fuel out pep484 rr module defined).
  - by rewrite rendered_canonical.
  - split; [by rewrite (shapes_of_nodes _ _ Hn) | intros l xs _; by rewrite Hl].
  - done.
Qed.


(** X16. Only names of the typing module can have brackets: the first
    render of a hint that is any other name followed by bracketed
    arguments raises the [UserException] that says that the brackets are
    invalid, whether the symbol table knows the name or not, and after
    the arguments have been parsed. *)
Theorem brackets_need_a_typing_name (l : nat) (name : string) (mid : nat)
    (args : list Spaced) (r : nat) (fuel : nat) (out pep484 rr : bool)
    (module : option (module_t env)) (defined : option (defined_t env))
    (s : State) (m : ManagedTypeHint) :
  good_name name = true → bool_decide (name ∈ _TYPING_MODULE) = false →
  legible env spec out (HGeneric "" (map erase args)) = true →
  height (HGeneric name (map erase args)) ≤ fuel →
  managed s !! written (SGeneric l name mid args r) = Some m →
  parse_state m = REQUIRED →
  text (type_hint m) = written (SGeneric l name mid args r) →
  (_render env spec fuel (written (SGeneric l name mid args r)) out pep484 rr
     module defined s).2
  = Raise (UserException
             ("type hint '" +:+ written (SGeneric l name mid args r)
              +:+ "': brackets are invalid")).
Proof.
  intros Hg Hty Hc Hh Hm Hreq Htext.
  destruct (generic_name env spec out "" _ Hc) as (_ & Hargs & _).
  pose proof (legible_args env spec out "" _ Hc) as Hcargs.
  destruct fuel as [|k]; [simpl in Hh; lia|].
  assert (Forall (λ a, height a ≤ k) (map erase args)) as Hhargs.
  { apply Forall_forall. intros x Hx. pose proof (height_args name _ x Hx). lia. }
  rewrite Forall_fmap in Hcargs, Hhargs.
  set (key := written (SGeneric l name mid args r)) in *.
  set (s1 := set_managed (λ ms, <[key := with_parse_state PARSING m]> ms) s).
  assert (key = spaces l +:+ (name +:+ spaces mid +:+ "["
                              +:+ parts_text (map written args)) +:+ spaces r) as Hkey.
  { unfold key. rewrite written_generic. by rewrite !string_app_assoc. }
  destruct (parse_brackets env spec k
              (λ h out text a b s Hc Hh Ho Hb,
                 parse_node_spaced env spec k h out text a (Some b) b s Hc Hh Ho Hb eq_refl)
              name l mid r args out key 0 None (Py.len key) s1)
    as (top & s2 & cs & Hbody & Hon & _); try done.
  { by right. }
  { intros ->. done. }
  { by destruct args. }
  { rewrite <- Hkey. apply occurs_self. }
  { rewrite Hkey at 1. unfold Py.len. rewrite !string_app_length, !spaces_length. simpl. lia. }
  assert (_parse_node env spec (S k) out key 0 None s1
          = (s2, Raise (UserException (brackets_invalid_msg key)))) as Hrun.
  { cbn [_parse_node]. rewrite Hbody. unfold make_node.
    apply good_name_inv in Hg as (Hne & _).
    assert (0 < String.length name) as Hlen by (destruct name; [done | simpl; lia]).
    rewrite bool_decide_eq_true_2 by (simpl; lia). cbv zeta.
    rewrite (occurs_slice key _ _ name Hon) by done. by rewrite Hty. }
  assert (_parse env spec (S k) key out s
          = (s2, Raise (UserException (brackets_invalid_msg key)))) as Hparse.
  { unfold _parse, parse_with.
    rewrite (bind_Ok _ _ _ _ _ (get_managed_Ok _ _ _ Hm)).
    rewrite bool_decide_eq_true_2 by done.
    rewrite (bind_Ok _ _ _ _ _ (update_managed_Ok _ _ _ _ Hm)).
    rewrite Htext. fold s1.
    by rewrite (bind_Raise _ _ _ _ _ Hrun). }
  unfold _render. by rewrite (bind_Raise _ _ _ _ _ Hparse).
Qed.

End RoundTripTheorems.

Lemma rendered_form_is_read_back_witness :
  (_render sample_env empty_spec 4 (show false dict_hint) true true false None None
     dict_manager).2
  = Ok (show true dict_hint).
Proof.
  apply (rendered_form_is_read_back sample_env empty_spec dict_hint 4 true true false
           None None dict_manager
           (mkManagedTypeHint (mkTypeHint 0 "Dict[str, Union[int, [A, B]]]")
              REQUIRED None None)).
  - vm_compute. reflexivity.
  - vm_compute. lia.
  - vm_compute. reflexivity.
  - reflexivity.
  - vm_compute. reflexivity.
Defined.


Lemma brackets_need_a_typing_name_witness :
  (_render sample_env foo_bar_spec 3 (written (SGeneric 1 "Foo" 1 [SName 0 "int" 1] 0))
     true false false None None foo_int_manager).2
  = Raise (UserException
             ("type hint '" +:+ written (SGeneric 1 "Foo" 1 [SName 0 "int" 1] 0)
              +:+ "': brackets are invalid")).
Proof.
  apply (brackets_need_a_typing_name sample_env foo_bar_spec 1 "Foo" 1 [SName 0 "int" 1] 0 3
           true false false None None foo_int_manager
           (mkManagedTypeHint (mkTypeHint 0 " Foo [int ]") REQUIRED None None)).
  - vm_compute. reflexivity.
  - vm_compute. reflexivity.
  - vm_compute. reflexivity.
  - vm_compute. lia.
  - vm_compute. reflexivity.
  - reflexivity.
  - vm_compute. reflexivity.
Defined.

(** ** The override hint of a class or mapped type is rendered in its place *)

Section Override.

Context (env : Collaborators) (spec : Specification).




End Override.

